(** * jpc: the marshalling core of [BaseProtocol] (obj.js)

    A shallow embedding of the object-graph RPC runtime: the identity
    registry, the outgoing and incoming value marshallers and the class
    mirror, followed by the properties the protocol description states about
    them.

    JS objects live in an explicit heap and are named by their address, so
    that reference identity is equality of addresses.  Methods of
    [BaseProtocol] become computations in a state-and-exception monad over
    the protocol instance's fields; a thrown [Error] keeps every mutation
    made before the throw.

    Conventions of the embedding:
    - the marshallers recurse on values read from the heap, so they take
      fuel; running out is the error [OutOfFuel];
    - [async] methods run to completion: [await callRemote(...)] records the
      frame and continues, and [Promise.all] over an array marshals its
      elements from left to right;
    - [Math.random] is a list of numbers still to be drawn, and the host's
      garbage collector is the set of addresses it has reclaimed;
    - IDs, class names and property names are strings, and [o[k] = v] on an
      object built by the marshaller defines an own enumerable data
      property (the [__proto__] accessor is not a property name here). *)

From Stdlib Require Import ZArith NArith Lia Ascii String DecimalString.

From stdpp Require Import base tactics option list strings gmap.

Set Warnings "-register-all".

Open Scope string_scope.

(** ** Values *)

(** Heap addresses. *)
Definition loc := positive.

(** JS primitives that travel unchanged in both directions. *)
Inductive prim : Type :=
| PUndef
| PNull
| PBool (b : bool)
| PNum (z : Z)
| PStr (s : string).

(** Property keys: strings, and the two well-known symbols the code reads. *)
Inductive key : Type :=
| KStr (s : string)
| KToStringTag
| KIterator.

(** In-memory values.  Arrays are kept by value (the marshallers only ever
    build fresh arrays with [map]); every other object is a reference. *)
Inductive val : Type :=
| VPrim (p : prim)
| VArr (xs : list val)
| VRef (l : loc).

(** A property descriptor, as [Object.getOwnPropertyDescriptor] shows it:
    a data property, or an accessor.  [get] holds the value the getter
    yields when it is read. *)
Inductive pdesc : Type :=
| Data (enumerable : bool) (v : val)
| Accessor (enumerable : bool) (get : option val) (has_set : bool).

(** A prototype object: its address and its own properties.  A prototype
    chain is the list of prototypes from the nearest one to the root; the
    empty chain is the [null] prototype. *)
Record pnode : Type := PNode { pn_loc : loc; pn_own : list (key * pdesc) }.

Definition chain := list pnode.

(** What calling a callable object does. *)
Inductive callkind : Type :=
| LocalFn
| RemoteCall (id : string).

Record object : Type := Object {
  o_call : option callkind;
  o_own : list (key * pdesc);
  o_proto : chain
}.

(** ** Wire values

    The JSON grammar of the protocol.  A wire object is read through the
    five fields the marshaller inspects; IDs and class names are strings. *)
Inductive wire : Type :=
| WPrim (p : prim)
| WArr (ws : list wire)
| WObject (idLocal : option string) (className : option string)
          (properties : option (list (string * wire)))
          (idRemote : option string)
          (plainObject : option (list (string * wire))).

(** A class description, the payload of the [class] verb. *)
Record class_descr : Type := ClassDescr {
  cd_className : string;
  cd_extends : option string;
  cd_iterator : option string;
  cd_functions : list string;
  cd_getters : list (string * bool);
  cd_properties : list string
}.

(** Frames handed to [callRemote] by the code modelled here. *)
Inductive frame : Type :=
| FClass (ds : list class_descr)
| FDel (idRemote : string).

(** Thrown errors, one constructor per assertion message. *)
Inductive error : Type :=
| UnknownRemoteClass (className : option string)
| UnknownLocal (id : string)
| DuplicateRemote (id : string)
| NoClassName
| TypeError
| Dangling
| NoFreshID
| OutOfFuel.

#[global] Instance prim_eq_dec : EqDecision prim.
Proof. solve_decision. Defined.

#[global] Instance key_eq_dec : EqDecision key.
Proof. solve_decision. Defined.

#[global] Instance error_eq_dec : EqDecision error.
Proof. solve_decision. Defined.

(** ** The protocol instance *)

(** An entry of [_localIDsToObjects]: the object itself or a [WeakRef]. *)
Inductive lentry : Type :=
| Strong (l : loc)
| Weak (l : loc).

Record state : Type := State {
  heap : gmap loc object;
  next_loc : loc;
  collected : gset loc;
  rand : list N;
  remoteClasses : gmap string chain;
  localClasses : gset string;
  remoteObjects : gmap string loc;
  localIDsToObjects : gmap string lentry;
  localObjectsToIDs : gmap loc string;
  trace : list frame
}.

Definition set_heap (f : gmap loc object -> gmap loc object) (s : state) : state :=
  State (f (heap s)) (next_loc s) (collected s) (rand s) (remoteClasses s)
        (localClasses s) (remoteObjects s) (localIDsToObjects s)
        (localObjectsToIDs s) (trace s).

Definition set_next_loc (n : loc) (s : state) : state :=
  State (heap s) n (collected s) (rand s) (remoteClasses s)
        (localClasses s) (remoteObjects s) (localIDsToObjects s)
        (localObjectsToIDs s) (trace s).

Definition set_collected (c : gset loc) (s : state) : state :=
  State (heap s) (next_loc s) c (rand s) (remoteClasses s)
        (localClasses s) (remoteObjects s) (localIDsToObjects s)
        (localObjectsToIDs s) (trace s).

Definition set_rand (r : list N) (s : state) : state :=
  State (heap s) (next_loc s) (collected s) r (remoteClasses s)
        (localClasses s) (remoteObjects s) (localIDsToObjects s)
        (localObjectsToIDs s) (trace s).

Definition set_remoteClasses (m : gmap string chain) (s : state) : state :=
  State (heap s) (next_loc s) (collected s) (rand s) m
        (localClasses s) (remoteObjects s) (localIDsToObjects s)
        (localObjectsToIDs s) (trace s).

Definition set_localClasses (c : gset string) (s : state) : state :=
  State (heap s) (next_loc s) (collected s) (rand s) (remoteClasses s)
        c (remoteObjects s) (localIDsToObjects s)
        (localObjectsToIDs s) (trace s).

Definition set_remoteObjects (m : gmap string loc) (s : state) : state :=
  State (heap s) (next_loc s) (collected s) (rand s) (remoteClasses s)
        (localClasses s) m (localIDsToObjects s)
        (localObjectsToIDs s) (trace s).

Definition set_localIDsToObjects (m : gmap string lentry) (s : state) : state :=
  State (heap s) (next_loc s) (collected s) (rand s) (remoteClasses s)
        (localClasses s) (remoteObjects s) m
        (localObjectsToIDs s) (trace s).

Definition set_localObjectsToIDs (m : gmap loc string) (s : state) : state :=
  State (heap s) (next_loc s) (collected s) (rand s) (remoteClasses s)
        (localClasses s) (remoteObjects s) (localIDsToObjects s)
        m (trace s).

Definition set_trace (t : list frame) (s : state) : state :=
  State (heap s) (next_loc s) (collected s) (rand s) (remoteClasses s)
        (localClasses s) (remoteObjects s) (localIDsToObjects s)
        (localObjectsToIDs s) t.

(** ** The monad of methods *)

Inductive outcome (A : Type) : Type :=
| Ok (a : A)
| Throw (e : error).

Arguments Ok {A} a.

Arguments Throw {A} e.

Definition M (A : Type) : Type := state -> outcome A * state.

Definition ret {A} (a : A) : M A := fun s => (Ok a, s).

Definition throw {A} (e : error) : M A := fun s => (Throw e, s).

Definition bind {A B} (m : M A) (k : A -> M B) : M B :=
  fun s => match m s with
           | (Ok a, s') => k a s'
           | (Throw e, s') => (Throw e, s')
           end.

Definition gets {A} (f : state -> A) : M A := fun s => (Ok (f s), s).

Definition modify (f : state -> state) : M unit := fun s => (Ok tt, f s).

Notation "x <- m ;; k" := (bind m (fun x => k))
  (at level 100, m at next level, right associativity).

Notation "m ;;; k" := (bind m (fun _ => k))
  (at level 100, right associativity).

(** [assert(cond, message)] of util.js, as the first revision of the file
    spells it out: [if (!cond) throw new Error(message)]. *)
Definition assert (cond : bool) (e : error) : M unit :=
  if cond then ret tt else throw e.

Fixpoint mapM {A B} (f : A -> M B) (xs : list A) : M (list B) :=
  match xs with
  | [] => ret []
  | x :: r => y <- f x ;; ys <- mapM f r ;; ret (y :: ys)
  end.

(** ** Property tables and prototype chains *)

Fixpoint assoc_get {K V} `{EqDecision K} (k : K) (l : list (K * V)) : option V :=
  match l with
  | [] => None
  | (k', v) :: r => if decide (k' = k) then Some v else assoc_get k r
  end.

(** [o[k] = v] on a property table: overwrite in place, or append. *)
Fixpoint assoc_set {K V} `{EqDecision K} (k : K) (v : V) (l : list (K * V))
  : list (K * V) :=
  match l with
  | [] => [(k, v)]
  | (k', v') :: r =>
      if decide (k' = k) then (k, v) :: r else (k', v') :: assoc_set k v r
  end.

Fixpoint chain_lookup (k : key) (c : chain) : option pdesc :=
  match c with
  | [] => None
  | n :: c' =>
      match assoc_get k (pn_own n) with
      | Some d => Some d
      | None => chain_lookup k c'
      end
  end.

Definition lookup_prop (k : key) (own : list (key * pdesc)) (c : chain)
  : option pdesc :=
  match assoc_get k own with
  | Some d => Some d
  | None => chain_lookup k c
  end.

Definition read_desc (d : pdesc) : val :=
  match d with
  | Data _ v => v
  | Accessor _ (Some v) _ => v
  | Accessor _ None _ => VPrim PUndef
  end.

(** [x[k]] for an object with own properties [own] and prototype chain [c]. *)
Definition get_on (own : list (key * pdesc)) (c : chain) (k : key) : val :=
  match lookup_prop k own c with
  | Some d => read_desc d
  | None => VPrim PUndef
  end.

(** [k in x]. *)
Definition has_on (own : list (key * pdesc)) (c : chain) (k : key) : bool :=
  bool_decide (is_Some (lookup_prop k own c)).

Definition desc_enumerable (d : pdesc) : bool :=
  match d with
  | Data e _ => e
  | Accessor e _ _ => e
  end.

(** A value read where the code expects a name or an ID: a non-empty string
    is truthy; every other value the code meets there is absent or empty. *)
Definition name_of (v : val) : option string :=
  match v with
  | VPrim (PStr s) => if decide (s = "") then None else Some s
  | _ => None
  end.

Definition truthy_str (o : option string) : option string :=
  match o with
  | Some s => if decide (s = "") then None else Some s
  | None => None
  end.

(** ** Built-in objects *)

Definition Object_ctor_loc : loc := 1%positive.

Definition Object_prototype_loc : loc := 2%positive.

Definition Function_ctor_loc : loc := 3%positive.

Definition Function_prototype_loc : loc := 4%positive.

Definition RemoteClass_ctor_loc : loc := 5%positive.

Definition RemoteClass_prototype_loc : loc := 6%positive.

Definition Object_prototype : pnode :=
  PNode Object_prototype_loc
        [(KStr "constructor", Data false (VRef Object_ctor_loc))].

Definition Function_prototype : pnode :=
  PNode Function_prototype_loc
        [(KStr "constructor", Data false (VRef Function_ctor_loc))].

(** [class RemoteClass { constructor(className) {...} }] *)
Definition RemoteClass_prototype : pnode :=
  PNode RemoteClass_prototype_loc
        [(KStr "constructor", Data false (VRef RemoteClass_ctor_loc))].

Definition function_named (name : string) : object :=
  Object (Some LocalFn)
         [(KStr "name", Data false (VPrim (PStr name)))]
         [Function_prototype; Object_prototype].

Definition heap0 : gmap loc object :=
  <[Object_ctor_loc := function_named "Object"]>
  (<[Function_ctor_loc := function_named "Function"]>
  (<[RemoteClass_ctor_loc := function_named "RemoteClass"]> ∅)).

(** A fresh protocol instance; [r] is what [Math.random] will yield. *)
Definition init (r : list N) : state :=
  State heap0 7%positive ∅ r ∅ ∅ ∅ ∅ ∅ [].

(** ** Heap access *)

Definition alloc (o : object) : M loc :=
  fun s => let l := next_loc s in
           (Ok l, set_next_loc (Pos.succ l) (set_heap (insert l o) s)).

Definition heap_get (l : loc) : M object :=
  fun s => match heap s !! l with
           | Some o => (Ok o, s)
           | None => (Throw Dangling, s)
           end.

(** [x[k] = v] on a heap object: an own enumerable data property. *)
Definition set_prop (l : loc) (k : key) (v : val) : M unit :=
  o <- heap_get l ;;
  modify (set_heap (insert l
    (Object (o_call o) (assoc_set k (Data true v) (o_own o)) (o_proto o)))).

(** [callRemote(method, payload)]: abstract in [BaseProtocol]; the frame is
    recorded and the awaited reply arrives before the caller continues. *)
Definition callRemote (f : frame) : M unit :=
  modify (fun s => set_trace (trace s ++ [f]) s).

(** ** ID to objects *)

Definition is_live (l : loc) (s : state) : bool :=
  bool_decide (l ∉ collected s).

(** [(Math.random() * 1e20).toFixed()] for the integer the product rounds to. *)
Definition toFixed (n : N) : string := NilZero.string_of_uint (N.to_uint n).

Fixpoint pick_fresh (used : gmap string lentry) (r : list N)
  : option (string * list N) :=
  match r with
  | [] => None
  | n :: r' =>
      if bool_decide (is_Some (used !! toFixed n)) then pick_fresh used r'
      else Some (toFixed n, r')
  end.

(** The [do ... while] loop draws until an unused ID comes up; a random
    source that never yields one makes the loop run forever, which the
    embedding reports as [NoFreshID]. *)
Definition generateNewObjID : M string :=
  fun s => match pick_fresh (localIDsToObjects s) (rand s) with
           | Some (id, r') => (Ok id, set_rand r' s)
           | None => (Throw NoFreshID, set_rand [] s)
           end.

Definition getRemoteObject (id : string) : M (option loc) :=
  gets (fun s => match remoteObjects s !! id with
                 | Some l => if is_live l s then Some l else None
                 | None => None
                 end).

Definition getLocalObject (id : string) : M loc :=
  e <- gets (fun s => localIDsToObjects s !! id) ;;
  match e with
  | None => throw (UnknownLocal id)
  | Some (Strong l) => ret l
  | Some (Weak l) =>
      live <- gets (is_live l) ;;
      assert live (UnknownLocal id) ;;;
      modify (fun s => set_localIDsToObjects
                         (<[id := Strong l]> (localIDsToObjects s)) s) ;;;
      ret l
  end.

Definition getOrCreateIDForLocalObject (obj : loc) : M string :=
  known <- gets (fun s => truthy_str (localObjectsToIDs s !! obj)) ;;
  id <- match known with
        | Some id => ret id
        | None =>
            id <- generateNewObjID ;;
            modify (fun s => set_localObjectsToIDs
                               (<[obj := id]> (localObjectsToIDs s)) s) ;;;
            ret id
        end ;;
  modify (fun s => set_localIDsToObjects
                     (<[id := Strong obj]> (localIDsToObjects s)) s) ;;;
  ret id.

Definition addRemoteObject (id : string) (obj : loc) : M unit :=
  existing <- getRemoteObject id ;;
  assert (bool_decide (existing = None)) (DuplicateRemote id) ;;;
  modify (fun s => set_remoteObjects (<[id := obj]> (remoteObjects s)) s).

Definition deleteLocalObject (id : string) : M unit :=
  e <- gets (fun s => localIDsToObjects s !! id) ;;
  match e with
  | None => throw (UnknownLocal id)
  | Some (Weak _) => ret tt
  | Some (Strong l) =>
      modify (fun s => set_localIDsToObjects
                         (<[id := Weak l]> (localIDsToObjects s)) s)
  end.

(** The two finalization callbacks installed by [start], and the host
    collecting an object. *)
Definition localFinalizer (id : string) : M unit :=
  modify (fun s => set_localIDsToObjects (delete id (localIDsToObjects s)) s).

Definition remoteFinalizer (id : string) : M unit :=
  modify (fun s => set_remoteObjects (delete id (remoteObjects s)) s) ;;;
  callRemote (FDel id).

Definition collect (l : loc) : M unit :=
  modify (fun s => set_collected ({[l]} ∪ collected s) s).

(** ** Class names *)

Definition starts_underscore (s : string) : bool :=
  match s with
  | String c _ => bool_decide (c = "_"%char)
  | EmptyString => false
  end.

(** [typeof(v) == "function"] *)
Definition is_function (h : gmap loc object) (v : val) : bool :=
  match v with
  | VRef l => match h !! l with
              | Some o => bool_decide (is_Some (o_call o))
              | None => false
              end
  | _ => false
  end.

(** [getClassName(obj)], for [obj] with prototype chain [c]:
    [(proto && (proto[Symbol.toStringTag] || proto.constructor.name)) || "Object"].
    Reading [.name] off a missing constructor is a [TypeError]. *)
Definition getClassName (c : chain) : M string :=
  match c with
  | [] => ret "Object"
  | proto :: rest =>
      match name_of (get_on (pn_own proto) rest KToStringTag) with
      | Some tag => ret tag
      | None =>
          match get_on (pn_own proto) rest (KStr "constructor") with
          | VPrim PUndef | VPrim PNull => throw TypeError
          | VPrim _ | VArr _ => ret "Object"
          | VRef l =>
              ctor <- heap_get l ;;
              ret (default "Object"
                     (name_of (get_on (o_own ctor) (o_proto ctor) (KStr "name"))))
          end
      end
  end.

(** [instanceof RemoteClass] *)
Definition instanceof_RemoteClass (c : chain) : bool :=
  existsb (fun n => Pos.eqb (pn_loc n) RemoteClass_prototype_loc) c.

(** ** Class mirror, outgoing side *)

(** The loop over [Object.getOwnPropertyNames(proto)]. *)
Fixpoint describe_members (h : gmap loc object) (own : list (key * pdesc))
         (descr : class_descr) : class_descr :=
  match own with
  | [] => descr
  | (KStr propName, property) :: r =>
      if starts_underscore propName || bool_decide (propName = "constructor")
      then describe_members h r descr
      else
        match property with
        | Data _ v =>
            if is_function h v then
              describe_members h r
                (ClassDescr (cd_className descr) (cd_extends descr)
                   (cd_iterator descr) (cd_functions descr ++ [propName])
                   (cd_getters descr) (cd_properties descr))
            else
              describe_members h r
                (ClassDescr (cd_className descr) (cd_extends descr)
                   (cd_iterator descr) (cd_functions descr)
                   (cd_getters descr) (cd_properties descr ++ [propName]))
        | Accessor _ (Some _) has_set =>
            describe_members h r
              (ClassDescr (cd_className descr) (cd_extends descr)
                 (cd_iterator descr) (cd_functions descr)
                 (cd_getters descr ++ [(propName, has_set)])
                 (cd_properties descr))
        | Accessor _ None _ =>
            describe_members h r
              (ClassDescr (cd_className descr) (cd_extends descr)
                 (cd_iterator descr) (cd_functions descr)
                 (cd_getters descr) (cd_properties descr ++ [propName]))
        end
  | _ :: r => describe_members h r descr
  end.

(** [sendClassDescription(className, instance)], for an [instance] whose
    prototype chain is [c].  [Symbol.asyncInterator] is misspelt in the
    source and evaluates to [undefined], so the first test is
    ["undefined" in proto]. *)
Fixpoint sendClassDescription (className : string) (c : chain) : M unit :=
  sent <- gets (fun s => bool_decide (className ∈ localClasses s)) ;;
  if sent : bool then ret tt
  else
    modify (fun s => set_localClasses ({[className]} ∪ localClasses s) s) ;;;
    match c with
    | [] => throw TypeError
    | proto :: rest =>
        parent <- getClassName rest ;;
        extends <- (if decide (parent = "Object") then ret None
                    else sendClassDescription parent rest ;;; ret (Some parent)) ;;
        let iterator :=
          if has_on (pn_own proto) rest (KStr "undefined") then Some "asyncIterator"
          else if has_on (pn_own proto) rest KIterator then Some "iterator"
          else None in
        h <- gets heap ;;
        callRemote (FClass [describe_members h (pn_own proto)
                              (ClassDescr className extends iterator [] [] [])])
    end.

(** ** Value marshaller, outgoing *)

(** Keys visited by [for (propName in obj)]: enumerable string keys, own
    ones first, then up the chain; a key already met shadows later ones. *)
Definition string_key (kd : key * pdesc) : option (string * bool) :=
  match kd with
  | (KStr n, d) => Some (n, desc_enumerable d)
  | _ => None
  end.

Fixpoint for_in_tables (seen : list string) (tables : list (list (key * pdesc)))
  : list string :=
  match tables with
  | [] => []
  | t :: r =>
      let names := omap string_key t in
      let fresh := filter (fun nd => nd.1 ∉ seen) names in
      (map fst (filter (fun nd => nd.2 = true) fresh))
        ++ for_in_tables (seen ++ map fst names) r
  end.

Definition for_in (own : list (key * pdesc)) (c : chain) : list string :=
  for_in_tables [] (own :: map pn_own c).

Definition str_of (v : val) : option string :=
  match v with
  | VPrim (PStr s) => Some s
  | _ => None
  end.

Section Outgoing.

(** The recursive call [this.mapOutgoingObjects]. *)
Variable rec : val -> M wire.

(** The [for (propName in obj)] loop of the plain-record branch. *)
Fixpoint plain_fields (own : list (key * pdesc)) (c : chain)
         (names : list string) (acc : list (string * wire))
  : M (list (string * wire)) :=
  match names with
  | [] => ret acc
  | propName :: r =>
      w <- rec (get_on own c (KStr propName)) ;;
      plain_fields own c r (assoc_set propName w acc)
  end.

(** The loop over [Object.getOwnPropertyNames(obj)] of
    [createObjectDescription]. *)
Fixpoint describe_props (own : list (key * pdesc))
         (props : option (list (string * wire)))
  : M (option (list (string * wire))) :=
  match own with
  | [] => ret props
  | (KStr propName, property) :: r =>
      if starts_underscore propName then describe_props r props
      else
        h <- gets heap ;;
        let skip := match property with
                    | Data _ v => is_function h v
                    | Accessor _ get _ => bool_decide (is_Some get)
                    end in
        if skip then describe_props r props
        else
          w <- rec (read_desc property) ;;
          describe_props r (Some (assoc_set propName w (default [] props)))
  | _ :: r => describe_props r props
  end.

Definition createObjectDescription_with (obj : loc) (id : string) : M wire :=
  o <- heap_get obj ;;
  className <- getClassName (o_proto o) ;;
  assert (negb (bool_decide (className = ""))) NoClassName ;;;
  sent <- gets (fun s => bool_decide (className ∈ localClasses s)) ;;
  (if sent : bool then ret tt
   else sendClassDescription className (o_proto o)) ;;;
  props <- describe_props (o_own o) None ;;
  ret (WObject (Some id) (Some className) props None None).

End Outgoing.

Fixpoint mapOutgoingObjects (fuel : nat) (value : val) : M wire :=
  match fuel with
  | O => throw OutOfFuel
  | S fuel' =>
      match value with
      | VPrim p => ret (WPrim p)
      | VArr xs =>
          ws <- mapM (mapOutgoingObjects fuel') xs ;;
          ret (WArr ws)
      | VRef obj =>
          o <- heap_get obj ;;
          if bool_decide (is_Some (o_call o)) then
            getOrCreateIDForLocalObject obj ;;;
            id <- getOrCreateIDForLocalObject obj ;;
            ret (WObject (Some id) (Some "Function") None None None)
          else if instanceof_RemoteClass (o_proto o) then
            ret (WObject None None None
                         (str_of (get_on (o_own o) (o_proto o) (KStr "id"))) None)
          else
            className <- getClassName (o_proto o) ;;
            if decide (className = "Object") then
              plainObject <- plain_fields (mapOutgoingObjects fuel')
                               (o_own o) (o_proto o)
                               (for_in (o_own o) (o_proto o)) [] ;;
              ret (WObject None None None None (Some plainObject))
            else
              id <- getOrCreateIDForLocalObject obj ;;
              createObjectDescription_with (mapOutgoingObjects fuel') obj id
      end
  end.

Definition createObjectDescription (fuel : nat) (obj : loc) (id : string)
  : M wire :=
  createObjectDescription_with (mapOutgoingObjects fuel) obj id.

(** ** Value marshaller, incoming *)

(** [makeCallable(id)]: the closure that sends the [call] verb. *)
Definition makeCallable (id : string) : M loc :=
  alloc (Object (Some (RemoteCall id)) [] [Function_prototype; Object_prototype]).

Section Incoming.

(** The recursive call [this.mapIncomingObjects]. *)
Variable rec : wire -> M val.

(** [for (propName in fields) target[propName] = rec(fields[propName])] *)
Fixpoint assign_fields (target : loc) (fields : list (string * wire)) : M unit :=
  match fields with
  | [] => ret tt
  | (propName, w) :: r =>
      v <- rec w ;;
      set_prop target (KStr propName) v ;;;
      assign_fields target r
  end.

Definition makeStub_with (idLocal : string) (className : option string)
           (properties : option (list (string * wire))) : M loc :=
  proto <- gets (fun s => className ≫= fun c => remoteClasses s !! c) ;;
  match proto with
  | None => throw (UnknownRemoteClass className)
  | Some proto =>
      stub <- alloc (Object None [] proto) ;;
      set_prop stub (KStr "id") (VPrim (PStr idLocal)) ;;;
      addRemoteObject idLocal stub ;;;
      assign_fields stub (default [] properties) ;;;
      ret stub
  end.

End Incoming.

Fixpoint mapIncomingObjects (fuel : nat) (value : wire) : M val :=
  match fuel with
  | O => throw OutOfFuel
  | S fuel' =>
      match value with
      | WPrim p => ret (VPrim p)
      | WArr ws =>
          vs <- mapM (mapIncomingObjects fuel') ws ;;
          ret (VArr vs)
      | WObject idLocal className properties idRemote plainObject =>
          match truthy_str idLocal with
          | Some id =>
              existing <- getRemoteObject id ;;
              match existing with
              | Some stub => ret (VRef stub)
              | None =>
                  if decide (className = Some "Function") then
                    stub <- makeCallable id ;;
                    addRemoteObject id stub ;;;
                    ret (VRef stub)
                  else
                    stub <- makeStub_with (mapIncomingObjects fuel')
                              id className properties ;;
                    ret (VRef stub)
              end
          | None =>
              match truthy_str idRemote with
              | Some id =>
                  obj <- getLocalObject id ;;
                  ret (VRef obj)
              | None =>
                  match plainObject with
                  | Some fields =>
                      fresh <- alloc (Object None [] [Object_prototype]) ;;
                      assign_fields (mapIncomingObjects fuel') fresh fields ;;;
                      ret (VRef fresh)
                  | None => ret (VPrim PUndef)
                  end
              end
          end
      end
  end.

Definition makeStub (fuel : nat) := makeStub_with (mapIncomingObjects fuel).

(** * Predicates that the statements use *)

(** ** Registry operations *)

Definition target (e : lentry) : loc :=
  match e with
  | Strong l => l
  | Weak l => l
  end.

(** Operations on the remote registry: registering a stub, the host
    collecting an object, and the finalization callback that releases an ID. *)
Inductive rop : Type :=
| RAdd (id : string) (obj : loc)
| RCollect (l : loc)
| RRelease (id : string).

Definition exec (op : rop) (s : state) : state :=
  match op with
  | RAdd id obj => snd (addRemoteObject id obj s)
  | RCollect l => snd (collect l s)
  | RRelease id => snd (remoteFinalizer id s)
  end.

Definition run (ops : list rop) (s : state) : state :=
  fold_left (fun s op => exec op s) ops s.

(** The live stubs the registry holds for [id]. *)
Definition live_stubs (id : string) (s : state) : list (string * loc) :=
  filter (fun kv => kv.1 = id ∧ is_live kv.2 s = true)
         (map_to_list (remoteObjects s)).

(** ** The marshallers, step by step *)

(** Properties that marshal without recursion into the heap. *)
Definition simple_prop (kd : key * pdesc) : Prop :=
  match kd.2 with
  | Data _ (VPrim _) => True
  | Accessor _ _ _ => True
  | Data _ _ => False
  end.

(** [frame s s']: [s'] extends [s] -- objects allocated in [s] are untouched,
    nothing was collected, the class table is the same and every live stub
    registered in [s] is still registered. *)
Record frame_le (s s' : state) : Prop := FrameLe {
  fr_next : (next_loc s <= next_loc s')%positive;
  fr_collected : collected s' = collected s;
  fr_classes : remoteClasses s' = remoteClasses s;
  fr_heap : ∀ l, (l < next_loc s)%positive → heap s' !! l = heap s !! l;
  fr_stubs : ∀ id l, remoteObjects s !! id = Some l → is_live l s = true →
                     remoteObjects s' !! id = Some l
}.

(** The state in which [makeStub] starts to assign properties: the stub is
    allocated, carries its [id] and is registered. *)
Definition stub_registered (id : string) (proto : chain) (s : state) : state :=
  set_remoteObjects (<[id := next_loc s]> (remoteObjects s))
    (set_heap (insert (next_loc s)
                 (Object None [(KStr "id", Data true (VPrim (PStr id)))] proto))
       (set_next_loc (Pos.succ (next_loc s)) s)).

(** The value stored under [k] came out of the recursive marshaller
    applied to a field named [k]. *)
Definition assigned (rec : wire → M val) (fields : list (string * wire)) (own : list (key * pdesc))
           (k : string) : Prop :=
  ∃ v w sa sb, (k, w) ∈ fields ∧ rec w sa = (Ok v, sb)
               ∧ assoc_get (KStr k) own = Some (Data true v).

(** Fields whose values are primitives. *)
Definition prim_fields (fields : list (string * wire)) : Prop :=
  Forall (fun kw => ∃ p, kw.2 = WPrim p) fields.

(** ** The name filter *)

Definition clean_name (n : string) : Prop :=
  starts_underscore n = false ∧ n ≠ "constructor".

Definition clean_descr (d : class_descr) : Prop :=
  Forall clean_name (cd_functions d)
  ∧ Forall clean_name (cd_getters d).*1
  ∧ Forall clean_name (cd_properties d).

Definition clean_frame (f : frame) : Prop :=
  match f with
  | FClass ds => Forall clean_descr ds
  | FDel _ => True
  end.

(** No [properties] map anywhere inside a wire value has a name that starts
    with an underscore. *)
Inductive clean : wire → Prop :=
| clean_prim p : clean (WPrim p)
| clean_arr ws : Forall clean ws → clean (WArr ws)
| clean_obj idL cn props idR po :
    Forall (fun kw => starts_underscore kw.1 = false ∧ clean kw.2)
           (default [] props) →
    Forall (fun kw => clean kw.2) (default [] po) →
    clean (WObject idL cn props idR po).

(** [sends s s']: from [s] to [s'] the heap is the same and the trace has
    grown by class descriptions that pass the name filter. *)
Definition sends (s s' : state) : Prop :=
  heap s' = heap s
  ∧ ∃ ext, trace s' = (trace s ++ ext)%list ∧ Forall clean_frame ext.

(** A descriptor that [createObjectDescription] lets through: no getter, and
    not a function value. *)
Definition sendable (h : gmap loc object) (d : pdesc) : Prop :=
  match d with
  | Data _ v => is_function h v = false
  | Accessor _ g _ => g = None
  end.

Definition filtered (kw : string * wire) : Prop :=
  starts_underscore kw.1 = false ∧ clean kw.2.

(** ** Plain records *)

(** The content of a plain record, without addresses: what "structurally
    equal" compares. *)
Inductive ptree : Type :=
| TPrim (p : prim)
| TRec (fields : list (string * ptree)).

Fixpoint depth (t : ptree) : nat :=
  match t with
  | TPrim _ => O
  | TRec fields =>
      S ((fix go (l : list (string * ptree)) : nat :=
            match l with
            | [] => O
            | (_, t') :: r => Nat.max (depth t') (go r)
            end) fields)
  end.

(** The wire form of a plain record: [{plainObject: {name: wire, ...}}]. *)
Fixpoint wire_of (t : ptree) : wire :=
  match t with
  | TPrim p => WPrim p
  | TRec fields =>
      WObject None None None None
        (Some ((fix go (l : list (string * ptree)) : list (string * wire) :=
                  match l with
                  | [] => []
                  | (k, t') :: r => (k, wire_of t') :: go r
                  end) fields))
  end.

Definition wire_fields (fields : list (string * ptree)) : list (string * wire) :=
  map (fun kt => (kt.1, wire_of kt.2)) fields.

Definition max_depth (fields : list (string * ptree)) : nat :=
  foldr (fun kt n => Nat.max (depth kt.2) n) O fields.

(** [plain_on h D v t]: in heap [h], the value [v] is a primitive or a plain
    record -- an object of class ["Object"] whose own properties are
    enumerable data properties with distinct names -- with content [t], and
    all its objects lie at addresses in [D]. *)
Inductive plain_on (h : gmap loc object) (D : loc → Prop) : val → ptree → Prop :=
| plain_prim p : plain_on h D (VPrim p) (TPrim p)
| plain_rec l own fields :
    D l →
    h !! l = Some (Object None own [Object_prototype]) →
    NoDup fields.*1 →
    Forall2 (fun kd kt => kd.1 = KStr kt.1
                          ∧ ∃ v, kd.2 = Data true v ∧ plain_on h D v kt.2)
            own fields →
    plain_on h D (VRef l) (TRec fields).

Definition builtins (h : gmap loc object) : Prop :=
  h !! Object_ctor_loc = Some (function_named "Object").

(** How the own properties of a plain record relate to its content. *)
Definition field_of (h : gmap loc object) (D : loc → Prop)
           (kd : key * pdesc) (kt : string * ptree) : Prop :=
  kd.1 = KStr kt.1 ∧ ∃ v, kd.2 = Data true v ∧ plain_on h D v kt.2.

(** Everything but the heap and the allocation pointer is the same. *)
Definition same_registries (s s' : state) : Prop :=
  collected s' = collected s ∧ rand s' = rand s
  ∧ remoteClasses s' = remoteClasses s ∧ localClasses s' = localClasses s
  ∧ remoteObjects s' = remoteObjects s
  ∧ localIDsToObjects s' = localIDsToObjects s
  ∧ localObjectsToIDs s' = localObjectsToIDs s ∧ trace s' = trace s.

Definition between (lo hi : loc) (l : loc) : Prop :=
  (lo <= l)%positive ∧ (l < hi)%positive.

(** What receiving the wire form of a tree does: a value with the same
    content, built from fresh objects only. *)
Definition received (fuel : nat) (t : ptree) : Prop :=
  ∀ s, ∃ v s',
    mapIncomingObjects fuel (wire_of t) s = (Ok v, s')
    ∧ plain_on (heap s') (between (next_loc s) (next_loc s')) v t
    ∧ (next_loc s <= next_loc s')%positive
    ∧ (∀ l, (l < next_loc s)%positive → heap s' !! l = heap s !! l)
    ∧ (∀ fields, t = TRec fields → v = VRef (next_loc s))
    ∧ same_registries s s'.

(** ** Order of class descriptions *)

(** A description of class [c] has been sent (and, [callRemote] being
    awaited, answered). *)
Definition described (tr : list frame) (c : string) : Prop :=
  ∃ ds d, FClass ds ∈ tr ∧ d ∈ ds ∧ cd_className d = c.

(** Each description that names a parent comes after a description of that
    parent. *)
Definition parents_first (tr : list frame) : Prop :=
  ∀ pre ds post d p,
    tr = (pre ++ FClass ds :: post)%list → d ∈ ds → cd_extends d = Some p →
    described pre p.

(** Every class marked as sent has been described, parents first. *)
Definition sent_ok (s : state) : Prop :=
  (∀ c, c ∈ localClasses s → described (trace s) c) ∧ parents_first (trace s).

Definition name_at (s : state) (c : chain) : outcome string :=
  fst (getClassName c s).

(** The class names that [sendClassDescription] walks through above the
    class of an instance with prototype chain [c]. *)
Fixpoint lineage (s : state) (c : chain) : list string :=
  match c with
  | [] => []
  | _ :: rest =>
      match name_at s rest with
      | Ok parent =>
          if decide (parent = "Object") then [] else parent :: lineage s rest
      | Throw _ => []
      end
  end.

(** Along every prototype chain in the heap, a class name stands for one
    class only. *)
Definition chains_ok (s : state) : Prop :=
  ∀ l o cn, heap s !! l = Some o → name_at s (o_proto o) = Ok cn →
            NoDup (cn :: lineage s (o_proto o)).

(** The class names that the object descriptions inside a wire value refer
    to.  A bare [{idLocal, className: "Function"}] is a function reference
    and names no class. *)
Fixpoint class_names (w : wire) : list string :=
  match w with
  | WPrim _ => []
  | WArr ws =>
      (fix go (l : list wire) : list string :=
         match l with
         | [] => []
         | x :: r => class_names x ++ go r
         end) ws
  | WObject _ cn props _ po =>
      let go := fix go (l : list (string * wire)) : list string :=
                  match l with
                  | [] => []
                  | (_, x) :: r => class_names x ++ go r
                  end in
      match cn, props with
      | Some c, None => if decide (c = "Function") then [] else [c]
      | Some c, Some _ => [c]
      | None, _ => []
      end
      ++ match props with Some l => go l | None => [] end
      ++ match po with Some l => go l | None => [] end
  end%list.

Definition fields_names (l : list (string * wire)) : list string :=
  concat (map (fun kw => class_names kw.2) l).

Definition own_name (cn : option string) (props : option (list (string * wire)))
  : list string :=
  match cn, props with
  | Some c, None => if decide (c = "Function") then [] else [c]
  | Some c, Some _ => [c]
  | None, _ => []
  end.

(** [carries s s' names]: the step from [s] to [s'] keeps the heap, only
    appends to the trace, keeps the trace well ordered, and every class in
    [names] has been described by the end. *)
Definition carries (s s' : state) (names : list string) : Prop :=
  sent_ok s' ∧ heap s' = heap s
  ∧ (∃ ext, trace s' = (trace s ++ ext)%list)
  ∧ ∀ c, c ∈ names → described (trace s') c.

(** * Worked examples *)

(** [class Car extends Movable], and an instance of it on the server. *)
Module Example.

Definition Movable_ctor : loc := 10%positive.

Definition Car_ctor : loc := 12%positive.

Definition startEngine_fn : loc := 14%positive.

Definition car : loc := 20%positive.

Definition Movable_prototype : pnode :=
  PNode 11%positive [(KStr "constructor", Data false (VRef Movable_ctor))].

Definition Car_prototype : pnode :=
  PNode 13%positive
    [(KStr "constructor", Data false (VRef Car_ctor));
     (KStr "startEngine", Data false (VRef startEngine_fn));
     (KStr "owner", Accessor false (Some (VPrim (PStr "Fred Flintstone"))) true)].

Definition Car_chain : chain :=
  [Car_prototype; Movable_prototype; Object_prototype].

(** [new Car()], with one public field besides [_owner]. *)
Definition car_object : object :=
  Object None
    [(KStr "_owner", Data true (VPrim (PStr "Fred Flintstone")));
     (KStr "wheels", Data true (VPrim (PNum 4)))]
    Car_chain.

Definition car_heap : gmap loc object :=
  <[Movable_ctor := function_named "Movable"]>
  (<[Car_ctor := function_named "Car"]>
  (<[startEngine_fn := function_named "startEngine"]>
  (<[car := car_object]> heap0))).

(** The server before it has exposed anything. *)
Definition server : state :=
  set_next_loc 30%positive (set_heap (fun _ => car_heap) (init [42%N; 7%N])).

(** The server after it has sent the car once. *)
Definition server_sent : state := snd (mapOutgoingObjects 3 (VRef car) server).

Definition car_description : wire :=
  WObject (Some "42") (Some "Car")
          (Some [("wheels", WPrim (PNum 4))]) None None.

End Example.

(** The peer that receives the car. *)
Module Client.

(** The stub prototypes that the descriptions of [Movable] and [Car]
    leave in [_remoteClasses]. *)
Definition Movable_stub : pnode :=
  PNode 50%positive [(KStr "className", Data true (VPrim (PStr "Movable")))].

Definition Car_stub : pnode :=
  PNode 51%positive [(KStr "className", Data true (VPrim (PStr "Car")))].

Definition Car_stub_chain : chain :=
  [Car_stub; Movable_stub; RemoteClass_prototype; Object_prototype].

Definition fresh : state :=
  set_next_loc 60%positive
    (set_remoteClasses
       {["Movable" := [Movable_stub; RemoteClass_prototype; Object_prototype];
         "Car" := Car_stub_chain]}
       (init [])).

(** After the car's description has been received once. *)
Definition with_car : state :=
  snd (mapIncomingObjects 3 Example.car_description fresh).

Definition car_stub : loc := 60%positive.

End Client.

(** An instance with an own accessor that has a setter but no getter. *)
Module Gauge.

Definition Gauge_ctor : loc := 10%positive.

Definition gauge : loc := 20%positive.

Definition Gauge_prototype : pnode :=
  PNode 11%positive [(KStr "constructor", Data false (VRef Gauge_ctor))].

Definition gauge_object : object :=
  Object None
    [(KStr "level", Accessor true None true);
     (KStr "unit", Data true (VPrim (PStr "bar")))]
    [Gauge_prototype; Object_prototype].

Definition server : state :=
  set_next_loc 30%positive
    (set_heap (fun _ => <[Gauge_ctor := function_named "Gauge"]>
                        (<[gauge := gauge_object]> heap0))
       (init [5%N])).

End Gauge.

(** The record [{a: 1, b: {c: 2}}]. *)
Module Config.

Definition outer : loc := 21%positive.

Definition inner : loc := 22%positive.

Definition content : list (string * ptree) :=
  [("a", TPrim (PNum 1)); ("b", TRec [("c", TPrim (PNum 2))])].

Definition server : state :=
  set_next_loc 30%positive
    (set_heap (fun _ =>
       <[outer := Object None
                    [(KStr "a", Data true (VPrim (PNum 1)));
                     (KStr "b", Data true (VRef inner))]
                    [Object_prototype]]>
       (<[inner := Object None [(KStr "c", Data true (VPrim (PNum 2)))]
                          [Object_prototype]]> heap0))
       (init [])).

Definition on_wire : wire :=
  WObject None None None None
    (Some [("a", WPrim (PNum 1));
           ("b", WObject None None None None (Some [("c", WPrim (PNum 2))]))]).

End Config.

(** A subclass of a class that defines [Symbol.toStringTag]. *)
Module Tagged.

Definition Base_ctor : loc := 10%positive.

Definition Derived_ctor : loc := 12%positive.

Definition derived : loc := 20%positive.

Definition Base_prototype : pnode :=
  PNode 11%positive
    [(KStr "constructor", Data false (VRef Base_ctor));
     (KToStringTag, Accessor false (Some (VPrim (PStr "Base"))) false)].

Definition Derived_prototype : pnode :=
  PNode 13%positive [(KStr "constructor", Data false (VRef Derived_ctor))].

Definition derived_object : object :=
  Object None [(KStr "x", Data true (VPrim (PNum 1)))]
         [Derived_prototype; Base_prototype; Object_prototype].

Definition server : state :=
  set_next_loc 30%positive
    (set_heap (fun _ =>
       <[Base_ctor := function_named "Base"]>
       (<[Derived_ctor := function_named "Derived"]>
       (<[derived := derived_object]> heap0)))
       (init [8%N])).

Definition sent : state := snd (mapOutgoingObjects 3 (VRef derived) server).

End Tagged.


(** * Further predicates *)

(** ** The life of a local registry entry *)

(** What happens to the local registry: the marshaller exports an object,
    the peer releases an ID, an echoed ID is resolved, the host collects an
    object, the finalization callback of an ID runs. *)
Inductive lop : Type :=
| LExport (o : loc)
| LRelease (id : string)
| LResolve (id : string)
| LCollect (l : loc)
| LFinalize (id : string).

Definition lexec (op : lop) (s : state) : state :=
  match op with
  | LExport o => snd (getOrCreateIDForLocalObject o s)
  | LRelease id => snd (deleteLocalObject id s)
  | LResolve id => snd (getLocalObject id s)
  | LCollect l => snd (collect l s)
  | LFinalize id => snd (localFinalizer id s)
  end.

(** What the host guarantees: only a live object is exported, and the
    callback of an ID runs only once no live object carries that ID. *)
Definition allowed (op : lop) (s : state) : Prop :=
  match op with
  | LExport o => is_live o s = true
  | LFinalize id => ∀ o, localObjectsToIDs s !! o = Some id → is_live o s = false
  | LRelease _ | LResolve _ | LCollect _ => True
  end.

Inductive lruns : state → list lop → state → Prop :=
| lruns_nil s : lruns s [] s
| lruns_cons s op ops s' :
    allowed op s → lruns (lexec op s) ops s' → lruns s (op :: ops) s'.

(** Every live object that has an ID is registered under it. *)
Definition exposed_ok (s : state) : Prop :=
  ∀ o i, localObjectsToIDs s !! o = Some i → i ≠ "" → is_live o s = true →
         ∃ e, localIDsToObjects s !! i = Some e ∧ target e = o.

(** ** What a marshaller may change *)

(** [out_le s s']: what the outgoing marshaller leaves alone and what it
    only adds to.  The heap, the allocation pointer, the collected set and
    everything about remote objects are the same; classes are only added to
    the sent set and frames to the trace; an object keeps its ID and an ID
    that is strongly held stays strongly held. *)
Record out_le (s s' : state) : Prop := OutLe {
  ol_heap : heap s' = heap s;
  ol_next : next_loc s' = next_loc s;
  ol_collected : collected s' = collected s;
  ol_remoteObjects : remoteObjects s' = remoteObjects s;
  ol_remoteClasses : remoteClasses s' = remoteClasses s;
  ol_localClasses : localClasses s ⊆ localClasses s';
  ol_trace : ∃ ext, trace s' = (trace s ++ ext)%list;
  ol_ids : ∀ o i, localObjectsToIDs s !! o = Some i → i ≠ "" →
                  localObjectsToIDs s' !! o = Some i;
  ol_strong : ∀ i o, localIDsToObjects s !! i = Some (Strong o) →
                     ∃ o', localIDsToObjects s' !! i = Some (Strong o');
  ol_dom : ∀ i, is_Some (localIDsToObjects s !! i) →
                is_Some (localIDsToObjects s' !! i)
}.

(** [in_le s s']: what the incoming marshaller leaves alone.  It sends
    nothing, draws no random number, knows no more and no fewer local
    objects, and every local entry keeps its object (a weak entry may have
    become strong). *)
Record in_le (s s' : state) : Prop := InLe {
  il_trace : trace s' = trace s;
  il_rand : rand s' = rand s;
  il_collected : collected s' = collected s;
  il_localClasses : localClasses s' = localClasses s;
  il_remoteClasses : remoteClasses s' = remoteClasses s;
  il_ids : localObjectsToIDs s' = localObjectsToIDs s;
  il_next : (next_loc s <= next_loc s')%positive;
  il_entries : ∀ i, target <$> (localIDsToObjects s' !! i)
                    = target <$> (localIDsToObjects s !! i)
}.

(** The IDs under which a wire value refers to objects of its sender. *)
Fixpoint ids_local (w : wire) : list string :=
  match w with
  | WPrim _ => []
  | WArr ws =>
      (fix go (l : list wire) : list string :=
         match l with
         | [] => []
         | x :: r => ids_local x ++ go r
         end) ws
  | WObject idL _ props _ po =>
      let go := fix go (l : list (string * wire)) : list string :=
                  match l with
                  | [] => []
                  | (_, x) :: r => ids_local x ++ go r
                  end in
      match idL with Some i => [i] | None => [] end
      ++ match props with Some l => go l | None => [] end
      ++ match po with Some l => go l | None => [] end
  end%list.

Definition fields_ids (l : list (string * wire)) : list string :=
  concat (map (fun kw => ids_local kw.2) l).

(** Every ID in [w] is non-empty and strongly held in [s]. *)
Definition echoable (s : state) (w : wire) : Prop :=
  ∀ i, i ∈ ids_local w →
       i ≠ "" ∧ ∃ o, localIDsToObjects s !! i = Some (Strong o).

(** The class names described in a trace, in the order they were sent. *)
Definition sent_names (tr : list frame) : list string :=
  concat (map (fun f => match f with
                        | FClass ds => map cd_className ds
                        | FDel _ => []
                        end) tr).

(** No class has been described twice, and every class described is marked
    as sent. *)
Definition once_ok (s : state) : Prop :=
  NoDup (sent_names (trace s))
  ∧ ∀ c, c ∈ sent_names (trace s) → c ∈ localClasses s.

(** [news s s']: the trace has grown by descriptions of classes that were
    not marked as sent in [s], each described once and all marked as sent
    in [s'], where no mark has been removed. *)
Definition news (s s' : state) : Prop :=
  localClasses s ⊆ localClasses s'
  ∧ ∃ ext, trace s' = (trace s ++ ext)%list
      ∧ NoDup (sent_names ext)
      ∧ ∀ x, x ∈ sent_names ext → (x ∉ localClasses s) ∧ x ∈ localClasses s'.

(** ** The two local tables agree *)

(** Every object that has an ID is the object the registry holds under that
    ID.  This holds of a new protocol instance and is kept by exporting,
    releasing and resolving; the finalization callback of the local registry
    runs for objects the host has already dropped from the weak
    object-to-ID table. *)
Definition registry_ok (s : state) : Prop :=
  ∀ o i, localObjectsToIDs s !! o = Some i → i ≠ "" →
         ∃ e, localIDsToObjects s !! i = Some e ∧ target e = o.

(** An object that is strongly held under its own ID stays so. *)
Definition keeps (s s' : state) : Prop :=
  ∀ i o, localIDsToObjects s !! i = Some (Strong o) →
         localObjectsToIDs s !! o = Some i → i ≠ "" →
         localIDsToObjects s' !! i = Some (Strong o)
         ∧ localObjectsToIDs s' !! o = Some i.

Definition reg_le (s s' : state) : Prop :=
  registry_ok s → registry_ok s' ∧ keeps s s'.

(** ** The ways a marshaller can fail *)

(** Failures of the outgoing marshaller: a [TypeError] of the language, an
    ID loop that finds no free ID, and the two failures of the embedding
    itself. *)
Definition out_error (e : error) : Prop :=
  match e with
  | OutOfFuel | Dangling | NoFreshID | TypeError => True
  | _ => False
  end.

(** Failures of the incoming marshaller: the two assertions on what the peer
    refers to, and running out of fuel. *)
Definition in_error (e : error) : Prop :=
  match e with
  | UnknownRemoteClass _ | UnknownLocal _ | OutOfFuel => True
  | _ => False
  end.

(** ** Object graphs with a cycle *)

(** [visits s o l']: when the outgoing marshaller works on the object [o],
    it marshals a reference to [l'] -- the value of a property that the
    [for ... in] loop of the plain-record branch meets, or of an own data
    property that [createObjectDescription] describes. *)
Definition visits (s : state) (o : object) (l' : loc) : Prop :=
  match name_at s (o_proto o) with
  | Ok cn =>
      if decide (cn = "Object") then
        ∃ k, k ∈ for_in (o_own o) (o_proto o)
             ∧ get_on (o_own o) (o_proto o) (KStr k) = VRef l'
      else
        ∃ n e, (KStr n, Data e (VRef l')) ∈ o_own o
               ∧ starts_underscore n = false
               ∧ is_function (heap s) (VRef l') = false
  | Throw _ => False
  end.

(** [cyclic s C]: every address in [C] holds an object that is neither a
    function nor a stub and from which the marshaller is led to an address
    in [C] again. *)
Definition cyclic (s : state) (C : gset loc) : Prop :=
  ∀ l, l ∈ C →
       ∃ o, heap s !! l = Some o ∧ o_call o = None
            ∧ instanceof_RemoteClass (o_proto o) = false
            ∧ ∃ l', l' ∈ C ∧ visits s o l'.

(** The record [node = {self: node}]. *)
Module Loop.

Definition node : loc := 21%positive.

Definition server : state :=
  set_next_loc 30%positive
    (set_heap (fun _ =>
       <[node := Object None [(KStr "self", Data true (VRef node))]
                        [Object_prototype]]> heap0)
       (init [])).

End Loop.

(** ** Listeners *)

(** [getterListener(payload)], the handler of the [get] verb, for a payload
    whose [name] and [obj] are strings, as the two assertions demand.  The
    read [obj[name]] yields what [get_on] yields. *)
Definition getterListener (fuel : nat) (name obj : string) : M wire :=
  o <- getLocalObject obj ;;
  ob <- heap_get o ;;
  mapOutgoingObjects fuel (get_on (o_own ob) (o_proto ob) (KStr name)).

(** * Class mirror, incoming side *)

(** [registerRemoteClass], the handler of the [class] verb.  A stub
    prototype is a table of own properties; a prototype chain lists the stub
    prototypes from the nearest one up and ends, implicitly, in
    [RemoteClass.prototype] and [Object.prototype], which hold writable data
    properties only.  The source is an ES module, so it runs in strict mode:
    an assignment that meets an accessor without setter, own or inherited,
    throws a [TypeError].  Member names are ASCII. *)
Module Mirror.

(** The closures installed on a stub prototype. *)
Inductive stubfn : Type :=
| MakeIterator (symbolName : string)
| MakeFunction (functionName : string)
| MakeGetter (propName : string)
| MakeSetter (propName : string)
| MakeNewObj (className : string).

Inductive sval : Type :=
| SStr (s : string)
| SFn (f : stubfn).

(** Property keys of a stub prototype: a name, or [Symbol.asyncIterator]. *)
Inductive mkey : Type :=
| Name (n : string)
| AsyncIterator.

(** An own property: a data property made by assignment (writable,
    enumerable, configurable), or an enumerable accessor with a getter and
    no setter. *)
Inductive slot : Type :=
| SData (v : sval)
| SGet (get : stubfn) (configurable : bool).

#[global] Instance stubfn_eq_dec : EqDecision stubfn.
Proof. solve_decision. Defined.

#[global] Instance sval_eq_dec : EqDecision sval.
Proof. solve_decision. Defined.

#[global] Instance mkey_eq_dec : EqDecision mkey.
Proof. solve_decision. Defined.

#[global] Instance slot_eq_dec : EqDecision slot.
Proof. solve_decision. Defined.

Definition proto := list (mkey * slot).

(** [_remoteClasses] maps a class name to a stub prototype, the prototype
    given by its chain: a [gmap string (list proto)]. *)

Inductive merror : Type :=
| SuperUnknown (extends : string)
| TypeError.

#[global] Instance merror_eq_dec : EqDecision merror.
Proof. solve_decision. Defined.

(** The first property named [k] along a chain. *)
Fixpoint inherited (k : mkey) (c : list proto) : option slot :=
  match c with
  | [] => None
  | p :: r =>
      match assoc_get k p with
      | Some d => Some d
      | None => inherited k r
      end
  end.

(** [proto[k] = v] in strict mode, for [proto] with own properties [own]
    and prototype chain [parents]; [None] is the [TypeError]. *)
Definition assign (k : mkey) (v : sval) (parents : list proto) (own : proto)
  : option proto :=
  match inherited k (own :: parents) with
  | Some (SGet _ _) => None
  | _ => Some (assoc_set k (SData v) own)
  end.

(** [Object.defineProperty(proto, name, {enumerable: true, get})]: a new
    accessor is not configurable; an existing configurable property is
    turned into an accessor and stays configurable; an accessor that is not
    configurable cannot get another getter. *)
Definition defineGetter (name : string) (get : stubfn) (own : proto)
  : option proto :=
  match assoc_get (Name name) own with
  | None => Some (assoc_set (Name name) (SGet get false) own)
  | Some (SData _) | Some (SGet _ true) =>
      Some (assoc_set (Name name) (SGet get true) own)
  | Some (SGet _ false) => None
  end.

Definition toUpperCase (c : ascii) : ascii :=
  let n := nat_of_ascii c in
  if (97 <=? n)%nat && (n <=? 122)%nat then ascii_of_nat (n - 32) else c.

(** ["set" + name[0].toUpperCase() + name.substr(1)]; [name[0]] of the
    empty string is [undefined], whose [toUpperCase] is a [TypeError]. *)
Definition setterName (name : string) : option string :=
  match name with
  | EmptyString => None
  | String c r => Some ("set" ++ String (toUpperCase c) r)
  end.

(** [for (let func of classDescrJSON.functions)] *)
Fixpoint add_functions (parents : list proto) (functions : list string)
         (own : proto) : option proto :=
  match functions with
  | [] => Some own
  | name :: r =>
      own' ← assign (Name name) (SFn (MakeFunction name)) parents own;
      add_functions parents r own'
  end.

(** [for (let getter of classDescrJSON.getters)] *)
Fixpoint add_getters (parents : list proto) (getters : list (string * bool))
         (own : proto) : option proto :=
  match getters with
  | [] => Some own
  | (name, hasSetter) :: r =>
      own1 ← defineGetter name (MakeGetter name) own;
      own2 ← (if hasSetter : bool then
                sn ← setterName name;
                assign (Name sn) (SFn (MakeSetter name)) parents own1
              else Some own1);
      add_getters parents r own2
  end.

(** The names of the setter stubs that a list of getters asks for. *)
Definition setter_names (getters : list (string * bool)) : list string :=
  omap (fun g => if g.2 : bool then setterName g.1 else None) getters.

(** The stub prototype built for a description, given the chain of the
    parent's stub prototype ([[]] when there is no parent and the prototype
    is a [new RemoteClass(className)]). *)
Definition build (parents : list proto) (d : class_descr) : option proto :=
  own0 ← (match parents with
          | [] => Some [(Name "className", SData (SStr (cd_className d)))]
          | _ => assign (Name "className") (SStr (cd_className d)) parents []
          end);
  own1 ← (match truthy_str (cd_iterator d) with
          | Some it => assign AsyncIterator (SFn (MakeIterator it)) parents own0
          | None => Some own0
          end);
  own2 ← add_functions parents (cd_functions d) own1;
  own3 ← add_getters parents (cd_getters d) own2;
  assign (Name "newRemote") (SFn (MakeNewObj (cd_className d))) parents own3.

(** [registerRemoteClass(classDescrJSON)] for one description: the error
    thrown, if any, and the registry afterwards. *)
Definition registerRemoteClass (d : class_descr) (reg : gmap string (list proto))
  : option merror * gmap string (list proto) :=
  match reg !! cd_className d with
  | Some _ => (None, reg)
  | None =>
      let parent :=
        match truthy_str (cd_extends d) with
        | Some p => match reg !! p with
                    | Some c => inr c
                    | None => inl (SuperUnknown p)
                    end
        | None => inr []
        end in
      match parent with
      | inl e => (Some e, reg)
      | inr parents =>
          match build parents d with
          | Some own => (None, <[cd_className d := own :: parents]> reg)
          | None => (Some TypeError, reg)
          end
      end
  end.

(** [registerRemoteClass] for an array of descriptions: the loop stops at
    the first exception. *)
Fixpoint registerRemoteClasses (ds : list class_descr) (reg : gmap string (list proto))
  : option merror * gmap string (list proto) :=
  match ds with
  | [] => (None, reg)
  | d :: r =>
      match registerRemoteClass d reg with
      | (None, reg') => registerRemoteClasses r reg'
      | (Some e, reg') => (Some e, reg')
      end
  end.

(** The peer handling the frames of a trace one after the other; an
    exception in one handler does not stop the next frame from being
    handled.  Frames of other verbs do not reach this handler. *)
Fixpoint replay (tr : list frame) (reg : gmap string (list proto))
  : list (option merror) * gmap string (list proto) :=
  match tr with
  | [] => ([], reg)
  | FClass ds :: r =>
      let '(e, reg') := registerRemoteClasses ds reg in
      let '(es, reg'') := replay r reg' in
      (e :: es, reg'')
  | FDel _ :: r => replay r reg
  end.

End Mirror.

(** * The ID registry of the earlier revision *)

(** The module-level registry of local objects in the earlier revision of
    the file: strong maps in both directions, and IDs drawn by
    [generateObjID]. *)
Module Legacy.

Record state : Type := State {
  gLocalIDsToObjects : gmap string loc;
  gLocalObjectsToIDs : gmap loc string;
  rand : list N
}.

Inductive error : Type :=
| UnknownLocal (id : string)
| NoFreshID.

Inductive outcome (A : Type) : Type :=
| Ok (a : A)
| Throw (e : error).

Arguments Ok {A} a.

Arguments Throw {A} e.

(** [Math.round(Math.random() * 10^20) + ""].  The product binds tighter
    than [^], which is bitwise XOR on 32-bit integers: the left operand
    [Math.random() * 10] is truncated to an integer [d] with [0 <= d <= 9],
    and the result is the decimal numeral of [d XOR 20].  The random source
    holds the truncated products still to be drawn. *)
Definition generateObjID (d : N) : string := toFixed (N.lxor d 20).

(** The strings [generateObjID] can return. *)
Definition ids : list string :=
  ["20"; "21"; "22"; "23"; "16"; "17"; "18"; "19"; "28"; "29"].

(** The [do ... while (gLocalIDsToObjects.has(id))] loop; [None] when no
    draw of the source gives an unused ID. *)
Fixpoint draw (used : gmap string loc) (r : list N) : option (string * list N) :=
  match r with
  | [] => None
  | d :: r' =>
      if bool_decide (is_Some (used !! generateObjID d)) then draw used r'
      else Some (generateObjID d, r')
  end.

Definition getLocalObject (id : string) (s : state) : outcome loc :=
  match gLocalIDsToObjects s !! id with
  | Some obj => Ok obj
  | None => Throw (UnknownLocal id)
  end.

Definition getExistingIDForLocalObject (obj : loc) (s : state) : option string :=
  gLocalObjectsToIDs s !! obj.

Definition getNewIDForLocalObject (obj : loc) (s : state)
  : outcome string * state :=
  match draw (gLocalIDsToObjects s) (rand s) with
  | Some (id, r') =>
      (Ok id, State (<[id := obj]> (gLocalIDsToObjects s))
                    (<[obj := id]> (gLocalObjectsToIDs s)) r')
  | None =>
      (Throw NoFreshID,
       State (gLocalIDsToObjects s) (gLocalObjectsToIDs s) [])
  end.

Definition deleteLocalObject (id : string) (s : state) : outcome unit * state :=
  match gLocalIDsToObjects s !! id with
  | None => (Throw (UnknownLocal id), s)
  | Some obj =>
      (Ok tt, State (delete id (gLocalIDsToObjects s))
                    (delete obj (gLocalObjectsToIDs s)) (rand s))
  end.

(** The two local maps are inverse to each other. *)
Definition consistent (s : state) : Prop :=
  ∀ i o, gLocalIDsToObjects s !! i = Some o ↔ gLocalObjectsToIDs s !! o = Some i.

End Legacy.

(** * Properties *)

(** ** Basic facts about the embedding *)

Arguments truthy_str : simpl never.

Arguments name_of : simpl never.

Arguments makeStub_with : simpl never.

Arguments getClassName : simpl never.

Ltac unfold_m :=
  unfold bind, ret, throw, gets, modify, assert in *; simpl in *.

Lemma toFixed_nonempty (n : N) : toFixed n ≠ "".
Proof.
  unfold toFixed, NilZero.string_of_uint.
  destruct (N.to_uint n); simpl; discriminate.
Qed.

Lemma pick_fresh_spec (used : gmap string lentry) (r r' : list N) (id : string) :
  pick_fresh used r = Some (id, r') → id ≠ "" ∧ used !! id = None.
Proof.
  induction r as [|n r IH]; simpl; [discriminate|].
  case_bool_decide as Hin; [exact IH|].
  intros [= <- <-]. split; [apply toFixed_nonempty|].
  destruct (used !! toFixed n) eqn:E; [|reflexivity].
  exfalso. apply Hin. eauto.
Qed.

Lemma truthy_str_Some (o : option string) (s : string) :
  truthy_str o = Some s ↔ o = Some s ∧ s ≠ "".
Proof.
  unfold truthy_str. destruct o as [t|]; [|split; [discriminate|intros [? _]; discriminate]].
  destruct (decide (t = "")) as [->|Hne]; split.
  - discriminate.
  - intros [[= <-] Hs]. congruence.
  - intros [= <-]. auto.
  - intros [[= <-] _]. reflexivity.
Qed.

(** The ID handed out for a local object is never the empty string, and the
    ID table then holds the object itself under it. *)
Lemma getOrCreateID_spec (obj : loc) (s s1 : state) (id : string) :
  getOrCreateIDForLocalObject obj s = (Ok id, s1) →
  id ≠ "" ∧ localIDsToObjects s1 !! id = Some (Strong obj)
  ∧ localObjectsToIDs s1 !! obj = Some id
  ∧ heap s1 = heap s ∧ next_loc s1 = next_loc s ∧ collected s1 = collected s
  ∧ remoteObjects s1 = remoteObjects s ∧ remoteClasses s1 = remoteClasses s
  ∧ localClasses s1 = localClasses s ∧ trace s1 = trace s.
Proof.
  unfold getOrCreateIDForLocalObject, generateNewObjID. unfold_m.
  destruct (truthy_str (localObjectsToIDs s !! obj)) as [i|] eqn:Hk.
  - intros [= <- <-]. apply truthy_str_Some in Hk as [Hk Hne]. simpl.
    rewrite lookup_insert_eq. auto 10.
  - destruct (pick_fresh (localIDsToObjects s) (rand s)) as [[i r']|] eqn:Hp;
      [|discriminate].
    intros [= <- <-]. apply pick_fresh_spec in Hp as [Hne _]. simpl.
    rewrite !lookup_insert_eq. auto 10.
Qed.

(** An object that already has an ID keeps it, and only its entry in
    [_localIDsToObjects] is rewritten (back to a strong reference). *)
Lemma getOrCreateID_known (obj : loc) (s : state) (id : string) :
  localObjectsToIDs s !! obj = Some id → id ≠ "" →
  getOrCreateIDForLocalObject obj s
  = (Ok id, set_localIDsToObjects (<[id := Strong obj]> (localIDsToObjects s)) s).
Proof.
  intros Hk Hne. unfold getOrCreateIDForLocalObject. unfold_m.
  assert (truthy_str (localObjectsToIDs s !! obj) = Some id) as ->
    by (apply truthy_str_Some; auto).
  reflexivity.
Qed.

(** ** C1: identity round-trip *)

(** C1.  Once a local object [o] has been exposed, so that
    [getOrCreateIDForLocalObject(o)] returned [i] and the local registry
    holds [i -> o], the incoming marshaller maps the echoed reference
    [{idRemote: i}] to the address [o] itself, and changes nothing. *)
Theorem identity_round_trip (o : loc) (i : string) (s s1 : state) (fuel : nat) :
  getOrCreateIDForLocalObject o s = (Ok i, s1) →
  localIDsToObjects s1 !! i = Some (Strong o)
  ∧ mapIncomingObjects (S fuel) (WObject None None None (Some i) None) s1
    = (Ok (VRef o), s1).
Proof.
  intros H. apply getOrCreateID_spec in H as (Hne & Hreg & _).
  split; [exact Hreg|].
  simpl. assert (truthy_str (Some i) = Some i) as ->
    by (apply truthy_str_Some; auto).
  unfold getLocalObject. unfold_m. rewrite Hreg. reflexivity.
Qed.

Lemma identity_round_trip_witness :
  getOrCreateIDForLocalObject 20%positive (init [42%N]) =
    (Ok "42", set_localIDsToObjects {["42" := Strong 20%positive]}
                (set_localObjectsToIDs {[20%positive := "42"]} (init [])))
  ∧ mapIncomingObjects 1 (WObject None None None (Some "42") None)
      (set_localIDsToObjects {["42" := Strong 20%positive]}
         (set_localObjectsToIDs {[20%positive := "42"]} (init [])))
    = (Ok (VRef 20%positive),
       set_localIDsToObjects {["42" := Strong 20%positive]}
         (set_localObjectsToIDs {[20%positive := "42"]} (init []))).
Proof.
  split; [reflexivity|].
  apply (identity_round_trip 20%positive "42" (init [42%N])). reflexivity.
Defined.

(** ** C8: release demotes, never deletes *)

(** C8.  For an ID [i] registered in the local registry, handling [del]
    succeeds and leaves under [i] a weak reference to the same object: a
    strong entry is replaced, a weak one leaves the whole state untouched.
    No other entry moves and the object-to-ID table is kept, so while the
    object is alive [getLocalObject(i)] still resolves to it (promoting it
    again) and re-exporting the object reuses [i]. *)
Theorem release_demotes (s : state) (i : string) (e : lentry) :
  localIDsToObjects s !! i = Some e →
  ∃ s', deleteLocalObject i s = (Ok tt, s')
    ∧ localIDsToObjects s' !! i = Some (Weak (target e))
    ∧ (e = Weak (target e) → s' = s)
    ∧ (∀ j, j ≠ i → localIDsToObjects s' !! j = localIDsToObjects s !! j)
    ∧ localObjectsToIDs s' = localObjectsToIDs s
    ∧ (is_live (target e) s' = true →
       ∃ s'', getLocalObject i s' = (Ok (target e), s'')
              ∧ localIDsToObjects s'' !! i = Some (Strong (target e)))
    ∧ (localObjectsToIDs s !! target e = Some i → i ≠ "" →
       ∃ s'', getOrCreateIDForLocalObject (target e) s' = (Ok i, s'')
              ∧ localIDsToObjects s'' !! i = Some (Strong (target e))).
Proof.
  intros Hreg. unfold deleteLocalObject. unfold_m. rewrite Hreg.
  destruct e as [l|l]; simpl.
  - eexists. split; [reflexivity|]. simpl. rewrite lookup_insert_eq.
    repeat split.
    + discriminate.
    + intros j Hj. by rewrite lookup_insert_ne.
    + intros Hlive. unfold getLocalObject. unfold_m. rewrite lookup_insert_eq.
      unfold is_live in *. simpl in *. rewrite Hlive. simpl.
      eexists. split; [reflexivity|]. simpl. by rewrite lookup_insert_eq.
    + intros Hk Hne. eexists. split.
      * apply getOrCreateID_known; [exact Hk|exact Hne].
      * simpl. by rewrite lookup_insert_eq.
  - exists s. repeat split; auto.
    + intros Hlive. unfold getLocalObject. unfold_m. rewrite Hreg.
      rewrite Hlive. simpl. eexists. split; [reflexivity|].
      simpl. by rewrite lookup_insert_eq.
    + intros Hk Hne. eexists. split.
      * apply getOrCreateID_known; [exact Hk|exact Hne].
      * simpl. by rewrite lookup_insert_eq.
Qed.

Lemma release_demotes_witness :
  ∃ s', deleteLocalObject "42"
          (set_localIDsToObjects {["42" := Strong 20%positive]} (init [])) = (Ok tt, s')
    ∧ localIDsToObjects s' !! "42" = Some (Weak 20%positive).
Proof.
  destruct (release_demotes
              (set_localIDsToObjects {["42" := Strong 20%positive]} (init []))
              "42" (Strong 20%positive)) as (s' & H1 & H2 & _).
  - reflexivity.
  - exists s'. split; [exact H1|exact H2].
Defined.

(** ** C6: single stub per ID *)

Lemma filter_key_length {V} (P : string * V → Prop) `{∀ x, Decision (P x)}
      (id : string) (l : list (string * V)) :
  NoDup (l.*1) → (∀ kv, P kv → kv.1 = id) → (List.length (filter P l) <= 1)%nat.
Proof.
  intros Hnd HP. induction l as [|[k v] l IH]; simpl; [lia|].
  inversion Hnd as [|? ? Hk Hnd']; subst.
  rewrite filter_cons. destruct (decide (P (k, v))) as [Hp|Hp]; [|auto].
  apply HP in Hp. simpl in Hp. subst k.
  assert (filter P l = []) as ->; [|simpl; lia].
  destruct (filter P l) as [|[k' v'] r] eqn:E; [reflexivity|exfalso].
  assert ((k', v') ∈ filter P l) as Hin by (rewrite E; left).
  apply list_elem_of_filter in Hin as [Hp' Hin].
  apply HP in Hp'. simpl in Hp'. subst k'.
  apply Hk. apply list_elem_of_fmap. exists (id, v'). auto.
Qed.



(** ** Stepping through the monad *)

Lemma bind_inv {A B} (m : M A) (k : A → M B) (s s' : state) (r : outcome B) :
  bind m k s = (r, s') →
  (∃ a s1, m s = (Ok a, s1) ∧ k a s1 = (r, s'))
  ∨ (∃ e, m s = (Throw e, s') ∧ r = Throw e).
Proof.
  unfold bind. destruct (m s) as [[a|e] s1].
  - intros H. left. eauto.
  - intros [= <- <-]. right. eauto.
Qed.

Lemma bind_ok {A B} (m : M A) (k : A → M B) (s s1 : state) (a : A) :
  m s = (Ok a, s1) → bind m k s = k a s1.
Proof. unfold bind. by intros ->. Qed.

Lemma bind_throw {A B} (m : M A) (k : A → M B) (s s1 : state) (e : error) :
  m s = (Throw e, s1) → bind m k s = (Throw e, s1).
Proof. unfold bind. by intros ->. Qed.

Lemma heap_get_inv (l : loc) (s s' : state) (r : outcome object) :
  heap_get l s = (r, s') →
  s' = s ∧ ((∃ o, heap s !! l = Some o ∧ r = Ok o)
            ∨ (heap s !! l = None ∧ r = Throw Dangling)).
Proof.
  unfold heap_get. destruct (heap s !! l) as [o|]; intros [= <- <-]; eauto.
Qed.

Lemma heap_get_ok (l : loc) (s : state) (o : object) :
  heap s !! l = Some o → heap_get l s = (Ok o, s).
Proof. unfold heap_get. by intros ->. Qed.

(** [getClassName] only reads. *)
Lemma getClassName_state (c : chain) (s s' : state) (r : outcome string) :
  getClassName c s = (r, s') → s' = s.
Proof.
  unfold getClassName. destruct c as [|proto rest]; [by intros [= _ <-]|].
  destruct (name_of _); [by intros [= _ <-]|].
  destruct (get_on _ _ (KStr "constructor")) as [[]| |l];
    try (by intros [= _ <-]).
  intros H. apply bind_inv in H as [(o & s1 & H1 & H2)|(e & H1 & _)].
  - apply heap_get_inv in H1 as [-> _]. by injection H2 as _ <-.
  - by apply heap_get_inv in H1 as [-> _].
Qed.

(** The class name is never empty. *)
Lemma getClassName_nonempty (c : chain) (s s' : state) (cn : string) :
  getClassName c s = (Ok cn, s') → cn ≠ "".
Proof.
  unfold getClassName. destruct c as [|proto rest]; [by intros [= <- _]|].
  destruct (name_of _) as [tag|] eqn:Htag.
  - intros [= <- _]. unfold name_of in Htag.
    destruct (get_on _ _ KToStringTag) as [[| | | |t]| |]; try discriminate.
    destruct (decide (t = "")); [discriminate|]. by injection Htag as <-.
  - destruct (get_on _ _ (KStr "constructor")) as [[]| |l];
      try discriminate; try (by intros [= <- _]).
    intros H. apply bind_inv in H as [(o & s1 & H1 & H2)|(e & _ & ?)];
      [|discriminate].
    injection H2 as <- _.
    destruct (name_of (get_on (o_own o) _ _)) as [n|] eqn:Hn; simpl; [|discriminate].
    unfold name_of in Hn.
    destruct (get_on _ _ (KStr "name")) as [[| | | |t]| |]; try discriminate.
    destruct (decide (t = "")); [discriminate|]. by injection Hn as <-.
Qed.

(** Whatever the recursive marshaller does, a description that
    [createObjectDescription] returns carries the ID it was given, the class
    name of the object, and no other reference field. *)
Lemma createObjectDescription_shape (rec : val → M wire) (obj : loc)
      (id : string) (s s' : state) (w : wire) :
  createObjectDescription_with rec obj id s = (Ok w, s') →
  ∃ o cn props, heap s !! obj = Some o
    ∧ getClassName (o_proto o) s = (Ok cn, s)
    ∧ w = WObject (Some id) (Some cn) props None None.
Proof.
  unfold createObjectDescription_with. intros H.
  apply bind_inv in H as [(o & s1 & H1 & H)|(e & _ & ?)]; [|discriminate].
  apply heap_get_inv in H1 as [-> [(o' & Ho & [= <-])|[_ ?]]]; [|discriminate].
  apply bind_inv in H as [(cn & s1 & H1 & H)|(e & _ & ?)]; [|discriminate].
  pose proof (getClassName_state _ _ _ _ H1) as ->.
  apply bind_inv in H as [(? & s2 & _ & H)|(e & _ & ?)]; [|discriminate].
  apply bind_inv in H as [(? & s3 & _ & H)|(e & _ & ?)]; [|discriminate].
  apply bind_inv in H as [(? & s4 & _ & H)|(e & _ & ?)]; [|discriminate].
  apply bind_inv in H as [(props & s5 & _ & H)|(e & _ & ?)]; [|discriminate].
  injection H as <- <-. eauto 10.
Qed.

(** ** A worked example: [class Car extends Movable] *)

Example first_export :
  fst (mapOutgoingObjects 3 (VRef Example.car) Example.server) = Ok Example.car_description
  ∧ trace Example.server_sent =
      [FClass [ClassDescr "Movable" None None [] [] []];
       FClass [ClassDescr "Car" (Some "Movable") None
                          ["startEngine"] [("owner", true)] []]].
Proof. split; reflexivity. Qed.

(** ** C7: what a known object is sent as *)

Lemma describe_props_simple (fuel : nat) (own : list (key * pdesc))
      (acc : option (list (string * wire))) (s : state) :
  Forall simple_prop own →
  ∃ props, describe_props (mapOutgoingObjects (S fuel)) own acc s = (Ok props, s).
Proof.
  intros Hall. revert acc. induction Hall as [|[k d] own Hs _ IH]; intros acc.
  - by eexists.
  - simpl. destruct k as [n| |]; try apply IH.
    destruct (starts_underscore n); [apply IH|].
    unfold bind at 1. unfold gets at 1.
    destruct d as [en v|en g hs]; unfold simple_prop in Hs; simpl in Hs.
    + destruct v as [p| |]; try done. simpl. apply IH.
    + destruct g as [v|]; simpl; [apply IH|]. apply IH.
Qed.




(** ** What the incoming marshaller leaves alone *)

Lemma frame_refl (s : state) : frame_le s s.
Proof. split; auto. reflexivity. Qed.

Lemma is_live_collected (l : loc) (s s' : state) :
  collected s' = collected s → is_live l s' = is_live l s.
Proof. unfold is_live. by intros ->. Qed.

Lemma frame_trans (s s1 s2 : state) :
  frame_le s s1 → frame_le s1 s2 → frame_le s s2.
Proof.
  intros [N1 C1 K1 H1 R1] [N2 C2 K2 H2 R2]. split.
  - by etrans.
  - congruence.
  - congruence.
  - intros l Hl. rewrite H2 by lia. by apply H1.
  - intros id l Hr Hlive. apply R2; [by apply R1|].
    by rewrite (is_live_collected _ _ _ C1).
Qed.

Lemma frame_alloc (o : object) (s : state) :
  frame_le s (snd (alloc o s)).
Proof.
  split; simpl; auto; [lia|].
  intros l Hl. rewrite lookup_insert_ne; [done|lia].
Qed.

Lemma frame_set_prop (s0 s s' : state) (t : loc) (k : key) (v : val)
      (r : outcome unit) :
  frame_le s0 s → (next_loc s0 <= t)%positive →
  set_prop t k v s = (r, s') → frame_le s0 s'.
Proof.
  intros Hfr Ht. unfold set_prop. intros H.
  apply bind_inv in H as [(o & s1 & H1 & H)|(e & H1 & _)];
    apply heap_get_inv in H1 as [-> _]; [|done].
  unfold modify in H. injection H as _ <-.
  destruct Hfr as [N C K Hh R]. split; simpl; auto.
  intros l Hl. rewrite lookup_insert_ne by lia. by apply Hh.
Qed.

Lemma getRemoteObject_inv (id : string) (s s' : state) (r : outcome (option loc)) :
  getRemoteObject id s = (r, s') →
  s' = s ∧ ((∃ l, r = Ok (Some l) ∧ remoteObjects s !! id = Some l
                  ∧ is_live l s = true)
            ∨ (r = Ok None
               ∧ ∀ l, remoteObjects s !! id = Some l → is_live l s = false)).
Proof.
  unfold getRemoteObject, gets. intros [= <- <-]. split; [done|].
  destruct (remoteObjects s !! id) as [l|] eqn:E.
  - destruct (is_live l s) eqn:L.
    + left. eauto.
    + right. split; [done|]. by intros ? [= <-].
  - right. split; [done|]. discriminate.
Qed.

Lemma frame_addRemoteObject (id : string) (obj : loc) (s s' : state)
      (r : outcome unit) :
  addRemoteObject id obj s = (r, s') → frame_le s s'.
Proof.
  unfold addRemoteObject. intros H.
  apply bind_inv in H as [(ex & s1 & H1 & H)|(e & H1 & _)];
    apply getRemoteObject_inv in H1 as [-> Hex]; [|apply frame_refl].
  destruct Hex as [(l & [= ->] & _)|[[= ->] Hno]].
  - unfold_m. injection H as _ <-. apply frame_refl.
  - unfold_m. injection H as _ <-. split; simpl; auto; [reflexivity|].
    intros id' l Hr Hlive. destruct (decide (id = id')) as [<-|Hne].
    + apply Hno in Hr. congruence.
    + by rewrite lookup_insert_ne.
Qed.

Lemma frame_getLocalObject (id : string) (s s' : state) (r : outcome loc) :
  getLocalObject id s = (r, s') → frame_le s s'.
Proof.
  unfold getLocalObject. unfold_m.
  destruct (localIDsToObjects s !! id) as [[l|l]|].
  - intros [= _ <-]. apply frame_refl.
  - destruct (is_live l s); simpl; intros [= _ <-];
      [split; simpl; auto; reflexivity|apply frame_refl].
  - intros [= _ <-]. apply frame_refl.
Qed.

Section IncomingFrame.

Variable rec : wire → M val.

Hypothesis rec_frame : ∀ w s r s', rec w s = (r, s') → frame_le s s'.

Lemma frame_mapM (ws : list wire) (s s' : state) (r : outcome (list val)) :
  mapM rec ws s = (r, s') → frame_le s s'.
Proof.
  revert s s' r. induction ws as [|w ws IH]; intros s s' r; simpl.
  - intros [= _ <-]. apply frame_refl.
  - intros H.
    apply bind_inv in H as [(v & s1 & H1 & H)|(e & H1 & _)];
      [|by eapply rec_frame].
    apply rec_frame in H1.
    apply bind_inv in H as [(vs & s2 & H2 & H)|(e & H2 & _)].
    + apply IH in H2. injection H as _ <-. by eapply frame_trans.
    + apply IH in H2. by eapply frame_trans.
Qed.

Lemma frame_assign_fields (s0 : state) (t : loc) (fields : list (string * wire))
      (s s' : state) (r : outcome unit) :
  frame_le s0 s → (next_loc s0 <= t)%positive →
  assign_fields rec t fields s = (r, s') → frame_le s0 s'.
Proof.
  intros Hfr Ht. revert s r Hfr.
  induction fields as [|[k w] fields IH]; intros s r Hfr; simpl.
  - by intros [= _ <-].
  - intros H.
    apply bind_inv in H as [(v & s1 & H1 & H)|(e & H1 & _)];
      apply rec_frame in H1;
      pose proof (frame_trans _ _ _ Hfr H1) as Hfr1; [|done].
    apply bind_inv in H as [(? & s2 & H2 & H)|(e & H2 & _)].
    + eapply IH; [|exact H]. by eapply frame_set_prop.
    + by eapply frame_set_prop.
Qed.

Lemma frame_makeStub (id : string) (cn : option string)
      (props : option (list (string * wire))) (s s' : state) (r : outcome loc) :
  makeStub_with rec id cn props s = (r, s') → frame_le s s'.
Proof.
  unfold makeStub_with. intros H.
  apply bind_inv in H as [(proto & s1 & H1 & H)|(e & H1 & _)];
    [|discriminate].
  injection H1 as <- <-.
  destruct (cn ≫= _) as [proto|]; [|injection H as _ <-; apply frame_refl].
  apply bind_inv in H as [(stub & s1 & H1 & H)|(e & H1 & _)]; [|discriminate].
  pose proof (frame_alloc (Object None [] proto) s) as Hfr1.
  rewrite H1 in Hfr1. simpl in Hfr1.
  assert (stub = next_loc s) as -> by (by injection H1 as <- _).
  apply bind_inv in H as [(? & s2 & H2 & H)|(e & H2 & _)];
    (eapply frame_set_prop in H2; [|exact Hfr1|reflexivity]); [|done].
  apply bind_inv in H as [(? & s3 & H3 & H)|(e & H3 & _)];
    apply frame_addRemoteObject in H3;
    pose proof (frame_trans _ _ _ H2 H3) as Hfr3; [|done].
  apply bind_inv in H as [(? & s4 & H4 & H)|(e & H4 & _)];
    (eapply frame_assign_fields in H4; [|exact Hfr3|reflexivity]); [|done].
  by injection H as _ <-.
Qed.

End IncomingFrame.

Lemma mapIncomingObjects_frame (fuel : nat) (w : wire) (s : state)
      (r : outcome val) (s' : state) :
  mapIncomingObjects fuel w s = (r, s') → frame_le s s'.
Proof.
  revert w s r s'. induction fuel as [|fuel IH]; intros w s r s'; simpl.
  - intros [= _ <-]. apply frame_refl.
  - destruct w as [p|ws|idL cn props idR po].
    + intros [= _ <-]. apply frame_refl.
    + intros H. apply bind_inv in H as [(vs & s1 & H1 & H)|(e & H1 & _)].
      * apply (frame_mapM _ IH) in H1. by injection H as _ <-.
      * by apply (frame_mapM _ IH) in H1.
    + destruct (truthy_str idL) as [id|].
      * intros H. apply bind_inv in H as [(ex & s1 & H1 & H)|(e & H1 & _)];
          apply getRemoteObject_inv in H1 as [-> _]; [|apply frame_refl].
        destruct ex as [stub|]; [injection H as _ <-; apply frame_refl|].
        destruct (decide (cn = Some "Function")) as [Hfn|Hfn].
        -- apply bind_inv in H as [(stub & s1 & H1 & H)|(e & H1 & _)];
             [|discriminate].
           pose proof (frame_alloc
             (Object (Some (RemoteCall id)) [] [Function_prototype; Object_prototype]) s)
             as Hfr1.
           unfold makeCallable in H1. rewrite H1 in Hfr1. simpl in Hfr1.
           apply bind_inv in H as [(? & s2 & H2 & H)|(e & H2 & _)];
             apply frame_addRemoteObject in H2.
           ++ injection H as _ <-. by eapply frame_trans.
           ++ by eapply frame_trans.
        -- apply bind_inv in H as [(stub & s1 & H1 & H)|(e & H1 & _)].
           ++ apply (frame_makeStub _ IH) in H1. by injection H as _ <-.
           ++ by apply (frame_makeStub _ IH) in H1.
      * destruct (truthy_str idR) as [id|].
        -- intros H. apply bind_inv in H as [(obj & s1 & H1 & H)|(e & H1 & _)];
             apply frame_getLocalObject in H1; [|done].
           by injection H as _ <-.
        -- destruct po as [fields|]; [|intros [= _ <-]; apply frame_refl].
           intros H.
           apply bind_inv in H as [(fresh & s1 & H1 & H)|(e & H1 & _)];
             [|discriminate].
           pose proof (frame_alloc (Object None [] [Object_prototype]) s) as Hfr1.
           rewrite H1 in Hfr1. simpl in Hfr1.
           assert (fresh = next_loc s) as -> by (by injection H1 as <- _).
           apply bind_inv in H as [(? & s2 & H2 & H)|(e & H2 & _)];
             (eapply (frame_assign_fields _ IH) in H2;
              [|exact Hfr1|reflexivity]); [|done].
           by injection H as _ <-.
Qed.

Lemma getRemoteObject_live (id : string) (l : loc) (s : state) :
  remoteObjects s !! id = Some l → is_live l s = true →
  getRemoteObject id s = (Ok (Some l), s).
Proof. unfold getRemoteObject, gets. by intros -> ->. Qed.

Lemma getRemoteObject_none (id : string) (s : state) :
  (∀ l, remoteObjects s !! id = Some l → is_live l s = false) →
  getRemoteObject id s = (Ok None, s).
Proof.
  unfold getRemoteObject, gets. intros H.
  destruct (remoteObjects s !! id) as [l|]; [|done]. by rewrite (H l).
Qed.

Lemma truthy_str_nonempty (id : string) : id ≠ "" → truthy_str (Some id) = Some id.
Proof. intros. by apply truthy_str_Some. Qed.

Lemma addRemoteObject_ok (id : string) (obj : loc) (s : state) :
  (∀ l, remoteObjects s !! id = Some l → is_live l s = false) →
  addRemoteObject id obj s
  = (Ok tt, set_remoteObjects (<[id := obj]> (remoteObjects s)) s).
Proof.
  intros Hnone. unfold addRemoteObject.
  by rewrite (bind_ok _ _ _ _ _ (getRemoteObject_none _ _ Hnone)).
Qed.

Lemma set_prop_ok (t : loc) (k : key) (v : val) (o : object) (s : state) :
  heap s !! t = Some o →
  set_prop t k v s
  = (Ok tt, set_heap (insert t (Object (o_call o)
                                  (assoc_set k (Data true v) (o_own o))
                                  (o_proto o))) s).
Proof.
  intros Ho. unfold set_prop. by rewrite (bind_ok _ _ _ _ _ (heap_get_ok _ _ _ Ho)).
Qed.

Lemma makeStub_unfold (rec : wire → M val) (id : string) (cn : option string)
      (props : option (list (string * wire))) (proto : chain) (s : state) :
  (∀ l, remoteObjects s !! id = Some l → is_live l s = false) →
  cn ≫= (fun c => remoteClasses s !! c) = Some proto →
  makeStub_with rec id cn props s
  = (assign_fields rec (next_loc s) (default [] props) ;;; ret (next_loc s))
      (stub_registered id proto s).
Proof.
  intros Hnone Hproto. unfold makeStub_with.
  unfold bind at 1. unfold gets at 1. rewrite Hproto.
  unfold bind at 1. unfold alloc at 1.
  erewrite (bind_ok (set_prop _ _ _)); cycle 1.
  { apply set_prop_ok. simpl. apply lookup_insert_eq. }
  erewrite (bind_ok (addRemoteObject _ _)); cycle 1.
  { apply addRemoteObject_ok. intros l Hl. exact (Hnone l Hl). }
  unfold stub_registered, set_heap, set_remoteObjects, set_next_loc. simpl.
  by rewrite insert_insert_eq.
Qed.

(** ** C5: references without properties *)


(** ** Property tables *)

Lemma assoc_get_set_eq {K V} `{EqDecision K} (k : K) (v : V) (l : list (K * V)) :
  assoc_get k (assoc_set k v l) = Some v.
Proof.
  induction l as [|[k' v'] l IH]; simpl.
  - by rewrite decide_True.
  - destruct (decide (k' = k)) as [->|Hne]; simpl.
    + by rewrite decide_True.
    + by rewrite decide_False.
Qed.

Lemma assoc_get_set_ne {K V} `{EqDecision K} (k k' : K) (v : V) (l : list (K * V)) :
  k' ≠ k → assoc_get k' (assoc_set k v l) = assoc_get k' l.
Proof.
  intros Hne. induction l as [|[k0 v0] l IH]; simpl.
  - by rewrite decide_False.
  - destruct (decide (k0 = k)) as [->|Hne0]; simpl.
    + by rewrite !decide_False.
    + destruct (decide (k0 = k')); [done|exact IH].
Qed.

(** ** What [makeStub] assigns *)

Section AssignFields.

Variable rec : wire → M val.

Hypothesis rec_frame : ∀ w s r s', rec w s = (r, s') → frame_le s s'.

Lemma assign_fields_target (t : loc) (fields : list (string * wire))
      (s s' : state) (r : outcome unit) (o : object) :
  heap s !! t = Some o → (t < next_loc s)%positive →
  assign_fields rec t fields s = (r, s') →
  ∃ o', heap s' !! t = Some o'
    ∧ o_call o' = o_call o ∧ o_proto o' = o_proto o
    ∧ (∀ kk, kk ∉ (KStr <$> fields.*1) →
             assoc_get kk (o_own o') = assoc_get kk (o_own o))
    ∧ (r = Ok tt → ∀ k, k ∈ fields.*1 → assigned rec fields (o_own o') k).
Proof.
  revert s o. induction fields as [|[k w] fields IH]; intros s o Ho Ht; simpl.
  - intros [= <- <-]. exists o. repeat split; auto.
    intros _ k Hk. by apply elem_of_nil in Hk.
  - intros H.
    apply bind_inv in H as [(v & s1 & H1 & H)|(e & H1 & ->)].
    + pose proof (rec_frame _ _ _ _ H1) as F1.
      assert (heap s1 !! t = Some o) as Ho1
          by (rewrite (fr_heap _ _ F1) by done; done).
      assert (t < next_loc s1)%positive as Ht1
          by (pose proof (fr_next _ _ F1); lia).
      rewrite (bind_ok _ _ _ _ _ (set_prop_ok _ _ _ _ _ Ho1)) in H.
      apply IH with
        (o := Object (o_call o) (assoc_set (KStr k) (Data true v) (o_own o))
                     (o_proto o)) in H;
        [|simpl; apply lookup_insert_eq|exact Ht1].
      destruct H as (o' & Ho' & Hc & Hp & Hout & Hin).
      exists o'. simpl in *. repeat split; auto.
      * intros kk Hkk. rewrite Hout.
        -- apply assoc_get_set_ne. intros ->. apply Hkk. left.
        -- intros Hk. apply Hkk. by right.
      * intros -> k' Hk'.
        destruct (decide (k' ∈ fields.*1)) as [Hrest|Hrest].
        -- destruct (Hin eq_refl k' Hrest) as (v' & w' & sa & sb & Hm & Hr & Hg).
           exists v', w', sa, sb. repeat split; auto. by right.
        -- apply elem_of_cons in Hk' as [->|?]; [|done].
           exists v, w, s, s1. repeat split; [left|done|].
           rewrite Hout; [apply assoc_get_set_eq|].
           intros Hk. apply Hrest. apply list_elem_of_fmap in Hk as (x & [= ->] & Hx).
           done.
    + pose proof (rec_frame _ _ _ _ H1) as F1.
      exists o. repeat split; auto.
      * by rewrite (fr_heap _ _ F1).
      * discriminate.
Qed.

End AssignFields.

Lemma assign_fields_prims (fuel : nat) (t : loc) (fields : list (string * wire))
      (s : state) (o : object) :
  prim_fields fields → heap s !! t = Some o →
  ∃ s', assign_fields (mapIncomingObjects (S fuel)) t fields s = (Ok tt, s').
Proof.
  intros Hp. revert s o. induction Hp as [|[k w] fields [p Hw] _ IH]; intros s o Ho.
  - by eexists.
  - simpl in Hw. subst w. simpl.
    unfold bind at 1. unfold ret at 1.
    rewrite (bind_ok _ _ _ _ _ (set_prop_ok _ _ _ _ _ Ho)).
    eapply IH. simpl. apply lookup_insert_eq.
Qed.

(** ** The receiving side of the example *)

Example first_receipt :
  fst (mapIncomingObjects 3 Example.car_description Client.fresh) = Ok (VRef Client.car_stub)
  ∧ remoteObjects Client.with_car !! "42" = Some Client.car_stub
  ∧ heap Client.with_car !! Client.car_stub
    = Some (Object None
              [(KStr "id", Data true (VPrim (PStr "42")));
               (KStr "wheels", Data true (VPrim (PNum 4)))]
              Client.Car_stub_chain).
Proof. repeat split; reflexivity. Qed.



(** ** C2: descriptions that carry properties *)




(** ** What the outgoing marshaller sends *)

Lemma sends_refl (s : state) : sends s s.
Proof. split; [done|]. exists []. by rewrite app_nil_r. Qed.

Lemma sends_trans (s s1 s2 : state) : sends s s1 → sends s1 s2 → sends s s2.
Proof.
  intros [H1 (e1 & T1 & F1)] [H2 (e2 & T2 & F2)]. split; [congruence|].
  exists (e1 ++ e2)%list. split; [by rewrite T2, T1, app_assoc|].
  by apply Forall_app.
Qed.

Lemma sends_same (s s' : state) :
  heap s' = heap s → trace s' = trace s → sends s s'.
Proof. intros Hh Ht. split; [done|]. exists []. by rewrite app_nil_r. Qed.

Lemma sends_getOrCreateID (obj : loc) (s s' : state) (r : outcome string) :
  getOrCreateIDForLocalObject obj s = (r, s') → sends s s'.
Proof.
  destruct r as [id|e].
  - intros H. apply getOrCreateID_spec in H as (_ & _ & _ & Hh & _ & _ & _ & _ & _ & Ht).
    by apply sends_same.
  - unfold getOrCreateIDForLocalObject, generateNewObjID. unfold_m.
    destruct (truthy_str _); [discriminate|].
    destruct (pick_fresh _ _) as [[? ?]|]; [discriminate|].
    intros [= _ <-]. by apply sends_same.
Qed.

Lemma describe_members_clean (h : gmap loc object) (own : list (key * pdesc))
      (d : class_descr) :
  clean_descr d → clean_descr (describe_members h own d).
Proof.
  revert d. induction own as [|[k p] own IH]; intros d Hd; simpl; [done|].
  destruct k as [n| |]; try by apply IH.
  destruct (starts_underscore n) eqn:Hu; simpl; [by apply IH|].
  case_bool_decide as Hc; [by apply IH|].
  assert (clean_name n) as Hn by done.
  destruct Hd as (Hf & Hg & Hp).
  destruct p as [en v|en [g|] hs]; [destruct (is_function h v)| |];
    apply IH; repeat split; simpl; auto;
    rewrite ?fmap_app; apply Forall_app; simpl; auto.
Qed.

Lemma sends_sendClassDescription (className : string) (c : chain)
      (s s' : state) (r : outcome unit) :
  sendClassDescription className c s = (r, s') → sends s s'.
Proof.
  revert className s s' r. induction c as [|proto rest IH];
    intros className s s' r; simpl.
  - unfold_m. case_bool_decide; intros [= _ <-]; by apply sends_same.
  - intros H. apply bind_inv in H as [(sent & s1 & H1 & H)|(e & H1 & _)];
      [|discriminate].
    injection H1 as <- <-. destruct (bool_decide _); [injection H as _ <-; apply sends_refl|].
    apply bind_inv in H as [([] & s1 & H1 & H)|(e & H1 & _)]; [|discriminate].
    assert (sends s s1) as S1 by (injection H1 as <-; by apply sends_same).
    clear H1. apply (sends_trans _ _ _ S1).
    apply bind_inv in H as [(parent & s2 & H2 & H)|(e & H2 & _)];
      pose proof (getClassName_state _ _ _ _ H2) as ->; [|apply sends_refl].
    clear H2.
    apply bind_inv in H as [(ext & s3 & H3 & H)|(e & H3 & _)].
    + assert (sends s1 s3) as S3.
      { destruct (decide (parent = "Object")).
        - injection H3 as _ <-. apply sends_refl.
        - apply bind_inv in H3 as [(? & s4 & H4 & H3)|(e & H4 & _)].
          + injection H3 as _ <-. by eapply IH.
          + by eapply IH. }
      eapply sends_trans; [exact S3|].
      unfold bind, gets, callRemote, modify in H. injection H as _ <-.
      split; [done|]. eexists. split; [reflexivity|].
      constructor; [|constructor]. simpl. constructor; [|constructor].
      apply describe_members_clean. repeat split; constructor.
    + destruct (decide (parent = "Object")); [discriminate|].
      apply bind_inv in H3 as [(? & s4 & H4 & H3)|(e' & H4 & _)];
        [discriminate|]. by eapply IH.
Qed.

Lemma Forall_assoc_set {K V} `{EqDecision K} (P : K * V → Prop) (k : K) (v : V)
      (l : list (K * V)) :
  Forall P l → P (k, v) → Forall P (assoc_set k v l).
Proof.
  intros Hl Hkv. induction Hl as [|[k' v'] l Hx Hl IH]; simpl.
  - by constructor.
  - destruct (decide (k' = k)); by constructor.
Qed.

Lemma assoc_set_keys {K V} `{EqDecision K} (k k' : K) (v : V) (l : list (K * V)) :
  k' ∈ (assoc_set k v l).*1 → k' = k ∨ k' ∈ l.*1.
Proof.
  induction l as [|[k0 v0] l IH]; simpl.
  - intros Hin. apply list_elem_of_singleton in Hin. auto.
  - destruct (decide (k0 = k)) as [->|Hne]; simpl.
    + intros Hin. apply elem_of_cons in Hin as [->|Hin]; [auto|].
      right. by right.
    + intros Hin. apply elem_of_cons in Hin as [->|Hin].
      * right. left.
      * destruct (IH Hin) as [->|?]; [auto|]. right. by right.
Qed.

Section OutgoingClean.

Variable rec : val → M wire.

Hypothesis rec_sends :
  ∀ v s r s', rec v s = (r, s') → sends s s' ∧ ∀ w, r = Ok w → clean w.

Lemma mapM_clean (xs : list val) (s : state) (r : outcome (list wire))
      (s' : state) :
  mapM rec xs s = (r, s') → sends s s' ∧ ∀ ws, r = Ok ws → Forall clean ws.
Proof.
  revert s r s'. induction xs as [|x xs IH]; intros s r s'; simpl.
  - intros [= <- <-]. split; [apply sends_refl|]. intros ? [= <-]. constructor.
  - intros H. apply bind_inv in H as [(w & s1 & H1 & H)|(e & H1 & ->)];
      apply rec_sends in H1 as [S1 C1]; [|by split].
    apply bind_inv in H as [(ws & s2 & H2 & H)|(e & H2 & ->)];
      apply IH in H2 as [S2 C2].
    + injection H as <- <-. split; [by eapply sends_trans|].
      intros ? [= <-]. constructor; auto.
    + split; [by eapply sends_trans|]. discriminate.
Qed.

Lemma plain_fields_clean (own : list (key * pdesc)) (c : chain)
      (names : list string) (acc : list (string * wire)) (s : state)
      (r : outcome (list (string * wire))) (s' : state) :
  Forall (fun kw => clean kw.2) acc →
  plain_fields rec own c names acc s = (r, s') →
  sends s s' ∧ ∀ m, r = Ok m → Forall (fun kw => clean kw.2) m.
Proof.
  revert acc s. induction names as [|n names IH]; intros acc s Hacc; simpl.
  - intros [= <- <-]. split; [apply sends_refl|]. by intros ? [= <-].
  - intros H. apply bind_inv in H as [(w & s1 & H1 & H)|(e & H1 & ->)];
      apply rec_sends in H1 as [S1 C1]; [|by split].
    apply IH in H as [S2 C2]; [|apply Forall_assoc_set; auto].
    split; [by eapply sends_trans|exact C2].
Qed.

Lemma describe_props_clean (own : list (key * pdesc))
      (props : option (list (string * wire))) (s : state)
      (r : outcome (option (list (string * wire)))) (s' : state) :
  Forall filtered (default [] props) →
  describe_props rec own props s = (r, s') →
  sends s s'
  ∧ ∀ props', r = Ok props' →
      Forall filtered (default [] props')
      ∧ ∀ k, k ∈ (default [] props').*1 →
          k ∈ (default [] props).*1
          ∨ ∃ d, (KStr k, d) ∈ own ∧ sendable (heap s) d.
Proof.
  revert props s r s'. induction own as [|[k d] own IH]; intros props s r s' Hacc; simpl.
  - intros [= <- <-]. split; [apply sends_refl|]. intros ? [= <-]. auto.
  - assert (∀ r s',
              describe_props rec own props s = (r, s') →
              sends s s'
              ∧ ∀ props', r = Ok props' →
                  Forall filtered (default [] props')
                  ∧ ∀ k0, k0 ∈ (default [] props').*1 →
                      k0 ∈ (default [] props).*1
                      ∨ ∃ d0, (KStr k0, d0) ∈ (k, d) :: own
                              ∧ sendable (heap s) d0) as Hskip.
    { intros r0 s0 H. apply IH in H as [S C]; [|done]. split; [done|].
      intros props' ->. destruct (C _ eq_refl) as [F Kin]. split; [done|].
      intros k0 Hk0. destruct (Kin k0 Hk0) as [?|(d0 & Hd0 & Hs)]; [auto|].
      right. exists d0. split; [by right|done]. }
    destruct k as [n| |]; try apply Hskip.
    destruct (starts_underscore n) eqn:Hu; [apply Hskip|].
    unfold bind at 1. unfold gets at 1.
    destruct (match d with
              | Data _ v => is_function (heap s) v
              | Accessor _ get _ => bool_decide (is_Some get)
              end) eqn:Hsk; [apply Hskip|].
    assert (sendable (heap s) d) as Hd.
    { destruct d as [en v|en g hs]; simpl; [done|].
      apply bool_decide_eq_false in Hsk. destruct g; [|done].
      exfalso. apply Hsk. eauto. }
    intros H. apply bind_inv in H as [(w & s1 & H1 & H)|(e & H1 & ->)];
      apply rec_sends in H1 as [S1 C1]; [|by split].
    apply IH in H as [S2 C2];
      [|simpl; apply Forall_assoc_set; [done|split; [done|by apply C1]]].
    split; [by eapply sends_trans|].
    intros props' ->. destruct (C2 _ eq_refl) as [F Kin]. split; [done|].
    intros k0 Hk0. destruct (Kin k0 Hk0) as [Hin|(d0 & Hd0 & Hs)].
    + simpl in Hin. apply assoc_set_keys in Hin as [->|Hin]; [|auto].
      right. exists d. split; [left|done].
    + right. exists d0. split; [by right|].
      destruct S1 as [Hh _]. by rewrite <- Hh.
Qed.

Lemma createObjectDescription_clean (obj : loc) (id : string) (s : state)
      (r : outcome wire) (s' : state) :
  createObjectDescription_with rec obj id s = (r, s') →
  sends s s'
  ∧ ∀ w, r = Ok w →
      clean w
      ∧ ∃ o cn props, heap s !! obj = Some o
          ∧ w = WObject (Some id) (Some cn) props None None
          ∧ ∀ k, k ∈ (default [] props).*1 →
              starts_underscore k = false
              ∧ ∃ d, (KStr k, d) ∈ o_own o ∧ sendable (heap s) d.
Proof.
  unfold createObjectDescription_with. intros H.
  apply bind_inv in H as [(o & s1 & H1 & H)|(e & H1 & ->)];
    apply heap_get_inv in H1 as [-> Ho]; [|by split; [apply sends_refl|]].
  destruct Ho as [(o' & Ho & [= <-])|[_ ?]]; [|discriminate].
  apply bind_inv in H as [(cn & s1 & H1 & H)|(e & H1 & ->)];
    pose proof (getClassName_state _ _ _ _ H1) as ->;
    [|by split; [apply sends_refl|]].
  apply bind_inv in H as [([] & s1 & H2 & H)|(e & H2 & ->)]; cycle 1.
  { unfold assert, ret, throw in H2. destruct (negb _); [discriminate|].
    injection H2 as _ <-. by split; [apply sends_refl|]. }
  assert (s1 = s) as ->.
  { unfold assert, ret, throw in H2. destruct (negb _); [|discriminate].
    by injection H2 as <-. }
  apply bind_inv in H as [(sent & s1 & H3 & H)|(e & H3 & ->)]; [|discriminate].
  injection H3 as <- <-.
  apply bind_inv in H as [([] & s2 & H4 & H)|(e & H4 & ->)]; cycle 1.
  { destruct (bool_decide _); [discriminate|].
    apply sends_sendClassDescription in H4. by split. }
  assert (sends s s2) as S2.
  { destruct (bool_decide _); [injection H4 as <-; apply sends_refl|].
    by apply sends_sendClassDescription in H4. }
  apply bind_inv in H as [(props & s3 & H5 & H)|(e & H5 & ->)];
    apply describe_props_clean in H5 as [S3 C3]; try (by constructor);
    [|split; [by eapply sends_trans|discriminate]].
  injection H as <- <-. split; [by eapply sends_trans|].
  intros w [= <-]. destruct (C3 _ eq_refl) as [F Kin]. split.
  - constructor; [|constructor].
    eapply Forall_impl; [exact F|]. by intros [k w] [? ?].
  - exists o, cn, props. repeat split; auto.
    + apply list_elem_of_fmap in H as ([k' w'] & -> & Hin).
      rewrite Forall_forall in F. by destruct (F _ Hin).
    + destruct (Kin k H) as [Hin|(d & Hd & Hs)].
      * by apply elem_of_nil in Hin.
      * exists d. split; [done|]. destruct S2 as [Hh _]. by rewrite <- Hh.
Qed.

End OutgoingClean.

Lemma mapOutgoingObjects_clean (fuel : nat) (v : val) (s : state)
      (r : outcome wire) (s' : state) :
  mapOutgoingObjects fuel v s = (r, s') →
  sends s s' ∧ ∀ w, r = Ok w → clean w.
Proof.
  revert v s r s'. induction fuel as [|fuel IH]; intros v s r s'; simpl.
  - intros [= <- <-]. split; [apply sends_refl|discriminate].
  - destruct v as [p|xs|obj].
    + intros [= <- <-]. split; [apply sends_refl|]. intros ? [= <-]. constructor.
    + intros H. apply bind_inv in H as [(ws & s1 & H1 & H)|(e & H1 & ->)];
        apply (mapM_clean _ IH) in H1 as [S1 C1]; [|by split].
      injection H as <- <-. split; [done|]. intros ? [= <-]. constructor. auto.
    + intros H. apply bind_inv in H as [(o & s1 & H1 & H)|(e & H1 & ->)];
        apply heap_get_inv in H1 as [-> _]; [|by split; [apply sends_refl|]].
      destruct (bool_decide (is_Some (o_call o))).
      { apply bind_inv in H as [(? & s1 & H1 & H)|(e & H1 & ->)];
          apply sends_getOrCreateID in H1; [|by split].
        apply bind_inv in H as [(id & s2 & H2 & H)|(e & H2 & ->)];
          apply sends_getOrCreateID in H2;
          [|split; [by eapply sends_trans|discriminate]].
        injection H as <- <-. split; [by eapply sends_trans|].
        intros ? [= <-]. constructor; constructor. }
      destruct (instanceof_RemoteClass (o_proto o)).
      { injection H as <- <-. split; [apply sends_refl|].
        intros ? [= <-]. constructor; constructor. }
      apply bind_inv in H as [(cn & s1 & H1 & H)|(e & H1 & ->)];
        pose proof (getClassName_state _ _ _ _ H1) as ->;
        [|by split; [apply sends_refl|]].
      destruct (decide (cn = "Object")).
      * assert (Forall (fun kw : string * wire => clean kw.2) []) as Hnil
            by constructor.
        apply bind_inv in H as [(m & s1 & H2 & H)|(e' & H2 & ->)];
          apply (plain_fields_clean _ IH _ _ _ _ _ _ _ Hnil) in H2 as [S2 C2];
          [|by split].
        injection H as <- <-. split; [done|].
        intros ? [= <-]. constructor; [constructor|]. simpl. auto.
      * apply bind_inv in H as [(id & s1 & H2 & H)|(e' & H2 & ->)];
          apply sends_getOrCreateID in H2; [|by split].
        apply (createObjectDescription_clean _ IH) in H as [S3 C3].
        split; [by eapply sends_trans|].
        intros w ->. by destruct (C3 _ eq_refl).
Qed.

(** ** C9: the property filter *)

(** C9, as the code has it.  Whatever the outgoing marshaller is given and
    however it ends, the class descriptions it has sent list no name that
    starts with an underscore and not ["constructor"]; and in a value it
    returns, no [properties] map at any depth has a name that starts with an
    underscore, while the [properties] of a description of [obj] name only
    own properties of [obj] whose descriptor has no getter and whose value
    is not a function. *)
Theorem property_filter (fuel : nat) (v : val) (s : state) (r : outcome wire)
        (s' : state) :
  mapOutgoingObjects fuel v s = (r, s') →
  (∃ ext, trace s' = (trace s ++ ext)%list ∧ Forall clean_frame ext)
  ∧ ∀ w, r = Ok w →
      clean w
      ∧ ∀ obj idL cn props idR po,
          v = VRef obj → w = WObject idL cn (Some props) idR po →
          ∃ o, heap s !! obj = Some o
            ∧ ∀ k, k ∈ props.*1 →
                starts_underscore k = false
                ∧ ∃ d, (KStr k, d) ∈ o_own o ∧ sendable (heap s) d.
Proof.
  intros H. pose proof (mapOutgoingObjects_clean _ _ _ _ _ H) as [[_ S] C].
  split; [exact S|]. intros w ->. split; [by apply C|].
  intros obj idL cn props idR po -> ->.
  destruct fuel as [|fuel]; [discriminate|]. simpl in H.
  apply bind_inv in H as [(o & s1 & H1 & H)|(e & _ & ?)]; [|discriminate].
  apply heap_get_inv in H1 as [-> [(o' & Ho & [= <-])|[_ ?]]]; [|discriminate].
  destruct (bool_decide (is_Some (o_call o))).
  { apply bind_inv in H as [(? & s1 & _ & H)|(e & _ & ?)]; [|discriminate].
    apply bind_inv in H as [(? & s2 & _ & H)|(e & _ & ?)]; discriminate. }
  destruct (instanceof_RemoteClass (o_proto o)); [discriminate|].
  apply bind_inv in H as [(cn' & s1 & H1 & H)|(e & _ & ?)]; [|discriminate].
  pose proof (getClassName_state _ _ _ _ H1) as ->.
  destruct (decide (cn' = "Object")).
  { apply bind_inv in H as [(? & s1 & _ & H)|(e' & _ & ?)]; discriminate. }
  apply bind_inv in H as [(id & s1 & H2 & H)|(e' & _ & ?)]; [|discriminate].
  apply getOrCreateID_spec in H2 as (_ & _ & _ & Hh & _).
  apply (createObjectDescription_clean _ (mapOutgoingObjects_clean fuel)) in H
    as [_ C3].
  destruct (C3 _ eq_refl) as (_ & o2 & cn2 & props2 & Ho2 & [= _ _ <-] & Hk).
  rewrite Hh in Ho2, Hk. exists o2. split; [done|]. exact Hk.
Qed.

Lemma property_filter_witness :
  clean Example.car_description
  ∧ ∃ ext, trace Example.server_sent = (trace Example.server ++ ext)%list
           ∧ Forall clean_frame ext.
Proof.
  destruct (property_filter 3 (VRef Example.car) Example.server
              (Ok Example.car_description) Example.server_sent) as [S C].
  - reflexivity.
  - split; [exact (proj1 (C _ eq_refl))|exact S].
Defined.

(** The claim as stated fails: [level] is an accessor property, not a data
    property, and it is transmitted all the same. *)
Lemma setter_only_accessor_transmitted :
  (heap Gauge.server !! Gauge.gauge) ≫=
    (fun o => assoc_get (KStr "level") (o_own o))
  = Some (Accessor true None true)
  ∧ fst (mapOutgoingObjects 3 (VRef Gauge.gauge) Gauge.server)
    = Ok (WObject (Some "5") (Some "Gauge")
            (Some [("level", WPrim PUndef); ("unit", WPrim (PStr "bar"))])
            None None).
Proof. split; reflexivity. Qed.

(** ** Plain records as trees *)

Lemma wire_of_rec (fields : list (string * ptree)) :
  wire_of (TRec fields) = WObject None None None None (Some (wire_fields fields)).
Proof.
  simpl. do 2 f_equal. induction fields as [|[k t] r IH]; simpl; [done|].
  by rewrite IH.
Qed.

Lemma depth_rec (fields : list (string * ptree)) :
  depth (TRec fields) = S (max_depth fields).
Proof.
  simpl. f_equal. induction fields as [|[k t] r IH]; simpl; [done|].
  by rewrite IH.
Qed.

Lemma ptree_rect' (P : ptree → Prop) :
  (∀ p, P (TPrim p)) →
  (∀ fields, Forall (fun kt => P kt.2) fields → P (TRec fields)) →
  ∀ t, P t.
Proof.
  intros Hp Hr. fix IH 1. intros [p|fields]; [apply Hp|].
  apply Hr. induction fields as [|[k t] r IHr]; constructor; [apply IH|exact IHr].
Qed.

Lemma plain_on_mono (h h' : gmap loc object) (D D' : loc → Prop) (v : val)
      (t : ptree) :
  plain_on h D v t →
  (∀ l, D l → h' !! l = h !! l) → (∀ l, D l → D' l) →
  plain_on h' D' v t.
Proof.
  intros H Hh HD. revert v H. induction t as [p|fields IH] using ptree_rect';
    intros v H; inversion H as [|l own ? Dl Hl Hnd Hf]; subst.
  - constructor.
  - econstructor; eauto; [by rewrite Hh|].
    clear Hl Hnd H. induction Hf as [|[k d] [k' t'] own fields Hx Hf IHf];
      [constructor|].
    inversion IH as [|? ? IHx IHr]; subst.
    constructor; [|by apply IHf].
    destruct Hx as [Hk (v & Hd & Hv)]. split; [done|]. exists v. split; [done|].
    by apply IHx.
Qed.

Lemma assoc_set_fresh {K V} `{EqDecision K} (k : K) (v : V) (l : list (K * V)) :
  k ∉ l.*1 → assoc_set k v l = (l ++ [(k, v)])%list.
Proof.
  induction l as [|[k' v'] l IH]; simpl; [done|].
  intros Hk. apply not_elem_of_cons in Hk as [Hne Hk].
  rewrite decide_False by done. by rewrite IH.
Qed.

Lemma assoc_get_NoDup {K V} `{EqDecision K} (k : K) (v : V) (l : list (K * V)) :
  NoDup l.*1 → (k, v) ∈ l → assoc_get k l = Some v.
Proof.
  induction l as [|[k' v'] l IH]; simpl; intros Hnd Hin.
  - by apply elem_of_nil in Hin.
  - inversion Hnd as [|? ? Hk Hnd']; subst.
    apply elem_of_cons in Hin as [[= -> ->]|Hin].
    + by rewrite decide_True.
    + rewrite decide_False; [by apply IH|].
      intros ->. apply Hk. apply list_elem_of_fmap. by exists (k, v).
Qed.

#[global] Instance KStr_inj : Inj (=) (=) KStr.
Proof. by intros ? ? [= ->]. Qed.

Lemma fields_keys (h : gmap loc object) (D : loc → Prop)
      (own : list (key * pdesc)) (fields : list (string * ptree)) :
  Forall2 (field_of h D) own fields → own.*1 = KStr <$> fields.*1.
Proof.
  induction 1 as [|[k d] [k' t] own fields [Hk _] _ IH]; [done|].
  rewrite !fmap_cons. simpl in *. by f_equal.
Qed.

Lemma fields_lookup (h : gmap loc object) (D : loc → Prop)
      (own : list (key * pdesc)) (fields : list (string * ptree))
      (c : chain) (k : string) (t : ptree) :
  Forall2 (field_of h D) own fields → NoDup fields.*1 → (k, t) ∈ fields →
  ∃ v, get_on own c (KStr k) = v ∧ plain_on h D v t.
Proof.
  intros Hf Hnd Hin.
  assert (NoDup own.*1) as Hnd'.
  { rewrite (fields_keys _ _ _ _ Hf). apply (NoDup_fmap_2 _). exact Hnd. }
  assert (∃ v, (KStr k, Data true v) ∈ own ∧ plain_on h D v t) as (v & Hv & Hp).
  { clear Hnd Hnd'. induction Hf as [|[k0 d] [k' t'] own fields Hx Hf IH].
    - by apply elem_of_nil in Hin.
    - apply elem_of_cons in Hin as [[= <- <-]|Hin].
      + destruct Hx as [Hk (v & Hd & Hp)]. simpl in *. subst.
        exists v. split; [left|done].
      + destruct (IH Hin) as (v & Hv & Hp). exists v. split; [by right|done]. }
  exists v. split; [|done]. unfold get_on, lookup_prop.
  by rewrite (assoc_get_NoDup _ _ _ Hnd' Hv).
Qed.

Lemma for_in_plain (h : gmap loc object) (D : loc → Prop)
      (own : list (key * pdesc)) (fields : list (string * ptree)) :
  Forall2 (field_of h D) own fields →
  for_in own [Object_prototype] = fields.*1.
Proof.
  intros Hf. unfold for_in. cbn [for_in_tables map].
  change (omap string_key (pn_own Object_prototype))
    with [("constructor", false)].
  assert (omap string_key own
          = map (fun kt : string * ptree => (kt.1, true)) fields) as ->.
  { induction Hf as [|[k d] [k' t] own fields [Hk (v & Hd & _)] _ IH]; [done|].
    simpl in Hk, Hd. subst k d.
    change (omap string_key ((KStr k', Data true v) :: own))
      with ((k', true) :: omap string_key own).
    by rewrite IH. }
  set (names := map (fun kt : string * ptree => (kt.1, true)) fields).
  assert (filter (fun nd : string * bool => nd.1 ∉ []) names = names) as ->.
  { clearbody names. induction names as [|x l IH]; [done|].
    rewrite filter_cons_True; [by rewrite IH|]. apply not_elem_of_nil. }
  assert (map fst (filter (fun nd : string * bool => nd.2 = true) names)
          = fields.*1) as ->.
  { subst names. clear Hf. induction fields as [|[k t] l IH]; [done|].
    cbn [map]. rewrite filter_cons_True by done. cbn [map].
    rewrite fmap_cons. f_equal. exact IH. }
  assert (∀ seen : list string,
            map fst (filter (fun nd : string * bool => nd.2 = true)
                       (filter (fun nd : string * bool => nd.1 ∉ seen)
                          [("constructor", false)])) = []) as Htail.
  { intros seen. rewrite filter_cons.
    destruct (decide (("constructor", false).1 ∉ seen)); [|done].
    rewrite filter_cons_False; [done|]. simpl. discriminate. }
  rewrite Htail. by rewrite !app_nil_r.
Qed.

Lemma plain_fields_run (rec : val → M wire) (own : list (key * pdesc))
      (c : chain) (s : state) (rest : list (string * ptree))
      (acc : list (string * wire)) :
  (∀ k t, (k, t) ∈ rest → rec (get_on own c (KStr k)) s = (Ok (wire_of t), s)) →
  (∀ k, k ∈ rest.*1 → k ∉ acc.*1) → NoDup rest.*1 →
  plain_fields rec own c rest.*1 acc s = (Ok (acc ++ wire_fields rest)%list, s).
Proof.
  revert acc. induction rest as [|[k t] rest IH]; intros acc Hrec Hacc Hnd; simpl.
  - by rewrite app_nil_r.
  - inversion Hnd as [|? ? Hk Hnd']; subst.
    rewrite (bind_ok _ _ _ _ _ (Hrec k t ltac:(left))).
    rewrite assoc_set_fresh by (apply Hacc; left).
    rewrite IH; [by rewrite <- app_assoc| | |done].
    + intros k' t' Hin. apply Hrec. by right.
    + intros k' Hk'. rewrite fmap_app. simpl. intros Hin.
      apply elem_of_app in Hin as [Hin|Hin].
      * apply (Hacc k'); [by right|done].
      * apply list_elem_of_singleton in Hin. by subst.
Qed.

Lemma max_depth_elem (fields : list (string * ptree)) (k : string) (t : ptree) :
  (k, t) ∈ fields → (depth t <= max_depth fields)%nat.
Proof.
  induction fields as [|[k' t'] r IH]; intros Hin.
  - by apply elem_of_nil in Hin.
  - apply elem_of_cons in Hin as [[= <- <-]|Hin].
    + unfold max_depth. simpl. lia.
    + apply IH in Hin. unfold max_depth in *. simpl. lia.
Qed.

Lemma getClassName_plain (s : state) :
  builtins (heap s) → getClassName [Object_prototype] s = (Ok "Object", s).
Proof.
  intros Hb. unfold getClassName. simpl.
  unfold bind, heap_get. by rewrite Hb.
Qed.

(** A plain record goes out as its tree, and the state does not change. *)
Lemma mapOutgoingObjects_plain (t : ptree) (fuel : nat) (v : val) (s : state)
      (D : loc → Prop) :
  builtins (heap s) → plain_on (heap s) D v t → (depth t < fuel)%nat →
  mapOutgoingObjects fuel v s = (Ok (wire_of t), s).
Proof.
  intros Hb. revert fuel v. induction t as [p|fields IH] using ptree_rect';
    intros fuel v Hp Hd; inversion Hp as [|l own ? Dl Hl Hnd Hf]; subst;
    (destruct fuel as [|fuel]; [lia|]).
  - reflexivity.
  - rewrite wire_of_rec. rewrite depth_rec in Hd. simpl.
    rewrite (bind_ok _ _ _ _ _ (heap_get_ok _ _ _ Hl)). simpl.
    rewrite (bind_ok _ _ _ _ _ (getClassName_plain _ Hb)).
    destruct (decide ("Object" = "Object")); [|done].
    rewrite (for_in_plain _ _ _ _ Hf).
    erewrite (bind_ok (plain_fields _ _ _ _ _)); cycle 1.
    { apply plain_fields_run; [| |done].
      - intros k t Hin.
        destruct (fields_lookup _ _ _ _ [Object_prototype] k t Hf Hnd Hin)
          as (v & -> & Hv).
        rewrite Forall_forall in IH. apply (IH (k, t) Hin); [done|].
        pose proof (max_depth_elem _ _ _ Hin). simpl. lia.
      - intros k _. apply not_elem_of_nil. }
    reflexivity.
Qed.

Lemma same_registries_refl (s : state) : same_registries s s.
Proof. by repeat split. Qed.

Lemma same_registries_trans (s s1 s2 : state) :
  same_registries s s1 → same_registries s1 s2 → same_registries s s2.
Proof.
  intros (?&?&?&?&?&?&?&?) (?&?&?&?&?&?&?&?). repeat split; congruence.
Qed.

Lemma field_of_mono (h h' : gmap loc object) (D D' : loc → Prop)
      (own : list (key * pdesc)) (fields : list (string * ptree)) :
  Forall2 (field_of h D) own fields →
  (∀ l, D l → h' !! l = h !! l) → (∀ l, D l → D' l) →
  Forall2 (field_of h' D') own fields.
Proof.
  intros Hf Hh HD. eapply Forall2_impl; [exact Hf|].
  intros [k d] [k' t] [Hk (v & Hd & Hp)]. split; [done|].
  exists v. split; [done|]. by eapply plain_on_mono.
Qed.

Lemma assign_plain (fuel : nat) (l0 : loc) (rest : list (string * ptree)) :
  Forall (fun kt => received fuel kt.2) rest →
  ∀ s own_acc,
    heap s !! l0 = Some (Object None own_acc [Object_prototype]) →
    (l0 < next_loc s)%positive →
    NoDup rest.*1 → (∀ k, k ∈ rest.*1 → KStr k ∉ own_acc.*1) →
    ∃ s' own_new,
      assign_fields (mapIncomingObjects fuel) l0 (wire_fields rest) s = (Ok tt, s')
      ∧ heap s' !! l0
        = Some (Object None (own_acc ++ own_new)%list [Object_prototype])
      ∧ Forall2 (field_of (heap s') (between (next_loc s) (next_loc s')))
                own_new rest
      ∧ (next_loc s <= next_loc s')%positive
      ∧ (∀ l, (l < next_loc s)%positive → l ≠ l0 → heap s' !! l = heap s !! l)
      ∧ same_registries s s'.
Proof.
  induction 1 as [|[k t] rest Hrec _ IH]; intros s own_acc Hl0 Hlt Hnd Hfresh.
  - exists s, []. split; [done|]. split; [by rewrite app_nil_r|].
    split; [constructor|]. split; [reflexivity|]. split; [done|].
    apply same_registries_refl.
  - simpl in Hrec. destruct (Hrec s) as (v & s1 & Hv & Hp & Hn1 & Hh1 & _ & Hr1).
    inversion Hnd as [|? ? Hk Hnd']; subst.
    assert (heap s1 !! l0 = Some (Object None own_acc [Object_prototype])) as Hl1
        by (by rewrite Hh1).
    set (own1 := (own_acc ++ [(KStr k, Data true v)])%list).
    set (s2 := set_heap (insert l0 (Object None own1 [Object_prototype])) s1).
    assert (set_prop l0 (KStr k) v s1 = (Ok tt, s2)) as Hset.
    { rewrite (set_prop_ok _ _ _ _ _ Hl1). simpl.
      rewrite assoc_set_fresh; [done|]. apply Hfresh. left. }
    destruct (IH s2 own1) as (s' & own_new & Hrun & Hl' & Hf & Hn2 & Hh2 & Hr2).
    + simpl. apply lookup_insert_eq.
    + simpl. lia.
    + exact Hnd'.
    + intros k' Hk'. unfold own1. rewrite fmap_app. simpl.
      intros Hin. apply elem_of_app in Hin as [Hin|Hin].
      * apply (Hfresh k'); [by right|done].
      * apply list_elem_of_singleton in Hin. injection Hin as ->. done.
    + exists s', ((KStr k, Data true v) :: own_new). simpl in Hn2, Hh2.
      split; [|split; [|split; [|split; [|split]]]].
      * cbn [wire_fields map assign_fields]. simpl.
        rewrite (bind_ok _ _ _ _ _ Hv), (bind_ok _ _ _ _ _ Hset). exact Hrun.
      * rewrite Hl'. unfold own1. by rewrite <- app_assoc.
      * constructor.
        -- split; [done|]. exists v. split; [done|].
           eapply plain_on_mono; [exact Hp| |].
           ++ intros l [Hlo Hhi]. rewrite Hh2 by lia.
              simpl. rewrite lookup_insert_ne; [done|lia].
           ++ intros l [Hlo Hhi]. split; lia.
        -- eapply field_of_mono; [exact Hf|done|].
           intros l [Hlo Hhi]. simpl in Hlo. split; lia.
      * lia.
      * intros l Hl Hne. rewrite Hh2 by (done || lia). simpl.
        rewrite lookup_insert_ne by done. apply Hh1. lia.
      * eapply same_registries_trans; [exact Hr1|]. exact Hr2.
Qed.

Lemma mapIncomingObjects_plain (t : ptree) (hA : gmap loc object)
      (DA : loc → Prop) (vA : val) (fuel : nat) :
  plain_on hA DA vA t → (depth t < fuel)%nat → received fuel t.
Proof.
  revert vA fuel. induction t as [p|fields IH] using ptree_rect';
    intros vA fuel HA Hd; inversion HA as [|lA own ? _ _ Hnd Hf]; subst;
    (destruct fuel as [|fuel]; [lia|]); intros s.
  - exists (VPrim p), s. split; [done|]. split; [constructor|].
    split; [reflexivity|]. split; [done|]. split; [discriminate|].
    apply same_registries_refl.
  - rewrite depth_rec in Hd.
    assert (Forall (fun kt => received fuel kt.2) fields) as Hrec.
    { rewrite Forall_forall in IH. apply Forall_forall. intros [k t] Hin.
      assert (∃ v, plain_on hA DA v t) as [v Hv].
      { clear -Hf Hin. induction Hf as [|[k0 d] [k' t'] own fields Hx Hf IHf].
        - by apply elem_of_nil in Hin.
        - apply elem_of_cons in Hin as [[= <- <-]|Hin]; [|by apply IHf].
          destruct Hx as [_ (v & _ & Hp)]. by exists v. }
      apply (IH (k, t) Hin v); [done|].
      pose proof (max_depth_elem _ _ _ Hin). simpl. lia. }
    set (l0 := next_loc s).
    set (s0 := snd (alloc (Object None [] [Object_prototype]) s)).
    destruct (assign_plain fuel l0 fields Hrec s0 [])
      as (s' & own_new & Hrun & Hl' & Hf' & Hn & Hh & Hr).
    + simpl. apply lookup_insert_eq.
    + simpl. lia.
    + exact Hnd.
    + intros k _. apply not_elem_of_nil.
    + exists (VRef l0), s'. simpl in Hn, Hh, Hl'.
      split; [|split; [|split; [|split; [|split]]]].
      * rewrite wire_of_rec. simpl.
        unfold bind at 1. unfold alloc at 1. fold s0. fold l0.
        by rewrite (bind_ok _ _ _ _ _ Hrun).
      * econstructor; [split; [reflexivity|fold l0; lia]|exact Hl'|exact Hnd|].
        eapply field_of_mono; [exact Hf'|done|].
        intros l [Hlo Hhi]. simpl in Hlo. split; [fold l0; lia|done].
      * fold l0. lia.
      * intros l Hl. fold l0 in Hl. rewrite Hh by lia. simpl.
        rewrite lookup_insert_ne; [done|]. fold l0. lia.
      * done.
      * exact Hr.
Qed.

(** ** C3: plain records travel by value *)

(** C3.  A plain record with content [fields] -- primitives and nested
    plain records -- goes out as [{plainObject: m}], where [m] maps each
    property to the wire form of its value, and the sender's state does not
    change.  Receiving that wire form succeeds in any state: the result is
    an object at the next free address, with the same content, all of whose
    objects are newly allocated; no object that existed before is touched
    (so the result is none of them), and no registry changes. *)
Theorem plain_record_round_trip (sA sB : state) (l : loc)
        (fields : list (string * ptree)) (D : loc → Prop) (fuel : nat) :
  builtins (heap sA) →
  plain_on (heap sA) D (VRef l) (TRec fields) →
  (depth (TRec fields) < fuel)%nat →
  let w := WObject None None None None (Some (wire_fields fields)) in
  mapOutgoingObjects fuel (VRef l) sA = (Ok w, sA)
  ∧ ∃ sB',
      mapIncomingObjects fuel w sB = (Ok (VRef (next_loc sB)), sB')
      ∧ plain_on (heap sB') (between (next_loc sB) (next_loc sB'))
                 (VRef (next_loc sB)) (TRec fields)
      ∧ (∀ l', (l' < next_loc sB)%positive →
               heap sB' !! l' = heap sB !! l' ∧ VRef (next_loc sB) ≠ VRef l')
      ∧ same_registries sB sB'.
Proof.
  intros Hb Hp Hd w. subst w. rewrite <- wire_of_rec. split.
  - by eapply mapOutgoingObjects_plain.
  - destruct (mapIncomingObjects_plain _ _ _ _ _ Hp Hd sB)
      as (v & sB' & Hrun & Hp' & _ & Hh & Hv & Hr).
    rewrite (Hv fields eq_refl) in Hrun, Hp'.
    exists sB'. split; [done|]. split; [done|]. split; [|done].
    intros l' Hl'. split; [by apply Hh|]. intros [= Heq]. lia.
Qed.

Lemma plain_record_round_trip_witness :
  mapOutgoingObjects 3 (VRef Config.outer) Config.server
  = (Ok Config.on_wire, Config.server)
  ∧ ∃ s', mapIncomingObjects 3 Config.on_wire Config.server
          = (Ok (VRef 30%positive), s').
Proof.
  destruct (plain_record_round_trip Config.server Config.server Config.outer
              Config.content (fun _ => True) 3) as (Hout & s' & Hin & _).
  - reflexivity.
  - econstructor; [done|reflexivity| |].
    + apply NoDup_cons. split; [|apply NoDup_singleton].
      intros Hin. apply list_elem_of_singleton in Hin. discriminate.
    + constructor; [|constructor; [|constructor]].
      * split; [reflexivity|]. eexists. split; [reflexivity|constructor].
      * split; [reflexivity|]. eexists. split; [reflexivity|].
        econstructor; [done|reflexivity|apply NoDup_singleton|].
        constructor; [|constructor].
        split; [reflexivity|]. eexists. split; [reflexivity|constructor].
  - simpl. lia.
  - split; [exact Hout|]. exists s'. exact Hin.
Defined.

(** ** Class descriptions in the trace *)

Lemma getClassName_eq (c : chain) (s : state) :
  getClassName c s = (name_at s c, s).
Proof.
  unfold name_at. destruct (getClassName c s) as [r s'] eqn:E.
  by rewrite (getClassName_state _ _ _ _ E).
Qed.

Lemma name_at_heap (s s' : state) (c : chain) :
  heap s' = heap s → name_at s' c = name_at s c.
Proof.
  intros Hh. unfold name_at, getClassName.
  destruct c as [|proto rest]; [done|].
  destruct (name_of _); [done|].
  destruct (get_on _ _ (KStr "constructor")) as [[]| |l]; try done.
  unfold bind, heap_get. rewrite Hh. by destruct (heap s !! l).
Qed.

Lemma lineage_heap (s s' : state) (c : chain) :
  heap s' = heap s → lineage s' c = lineage s c.
Proof.
  intros Hh. induction c as [|proto rest IH]; simpl; [done|].
  rewrite (name_at_heap _ _ _ Hh). destruct (name_at s rest); [|done].
  destruct (decide _); [done|]. by rewrite IH.
Qed.

Lemma described_app (tr ext : list frame) (c : string) :
  described tr c → described (tr ++ ext) c.
Proof.
  intros (ds & d & Hin & Hd & Hc). exists ds, d. split; [|done].
  apply elem_of_app. by left.
Qed.

Lemma described_snoc (tr : list frame) (d : class_descr) :
  described (tr ++ [FClass [d]]) (cd_className d).
Proof.
  exists [d], d. split; [|split; [left|done]].
  apply elem_of_app. right. left.
Qed.

Lemma parents_first_snoc (tr : list frame) (d : class_descr) :
  parents_first tr →
  (∀ p, cd_extends d = Some p → described tr p) →
  parents_first (tr ++ [FClass [d]]).
Proof.
  intros Hpf Hd pre ds post d' p Heq Hin Hext.
  destruct post as [|f post _] using rev_ind.
  - apply app_inj_tail in Heq as [<- [= <-]].
    apply list_elem_of_singleton in Hin as ->. by apply Hd.
  - rewrite app_comm_cons, app_assoc in Heq.
    apply app_inj_tail in Heq as [-> _]. by eapply Hpf.
Qed.

Lemma describe_members_head (h : gmap loc object) (own : list (key * pdesc))
      (d : class_descr) :
  cd_className (describe_members h own d) = cd_className d
  ∧ cd_extends (describe_members h own d) = cd_extends d.
Proof.
  revert d. induction own as [|[k pd] own IH]; intros d; simpl; [done|].
  destruct k as [n| |]; try apply IH.
  destruct (_ || _); [apply IH|].
  destruct pd as [? v|? [?|] ?]; [destruct (is_function _ v)| |];
    by rewrite (proj1 (IH _)), (proj2 (IH _)).
Qed.

(** The recursion of [sendClassDescription], with the names whose
    description is still pending further up the call stack. *)
Lemma sendClassDescription_order (c : chain) :
  ∀ (className : string) (pending : list string) (s s' : state),
    parents_first (trace s) →
    (∀ x, x ∈ localClasses s → x ∈ pending ∨ described (trace s) x) →
    className ∉ pending →
    (∀ x, x ∈ lineage s c → x ∉ pending) →
    NoDup (className :: lineage s c) →
    sendClassDescription className c s = (Ok tt, s') →
    parents_first (trace s')
    ∧ (∀ x, x ∈ localClasses s' → x ∈ pending ∨ described (trace s') x)
    ∧ described (trace s') className
    ∧ heap s' = heap s
    ∧ ∃ ext, trace s' = (trace s ++ ext)%list.
Proof.
  induction c as [|proto rest IH];
    intros className pending s s' Hpf Hcls Hcn Hlin Hnd; simpl.
  - unfold_m. case_bool_decide as Hsent; [|discriminate].
    intros [= <-]. repeat split; auto.
    + destruct (Hcls _ Hsent); [done|done].
    + exists []. by rewrite app_nil_r.
  - intros H.
    apply bind_inv in H as [(sent & s0 & H0 & H)|(e & _ & ?)]; [|discriminate].
    injection H0 as <- <-. case_bool_decide as Hsent.
    { injection H as <-. repeat split; auto.
      - destruct (Hcls _ Hsent); [done|done].
      - exists []. by rewrite app_nil_r. }
    apply bind_inv in H as [([] & s1 & H1 & H)|(e & _ & ?)]; [|discriminate].
    injection H1 as <-.
    set (s1 := set_localClasses ({[className]} ∪ localClasses s) s) in *.
    unfold bind at 1 in H. rewrite getClassName_eq in H.
    destruct (name_at s1 rest) as [parent|e] eqn:Hparent; [|discriminate].
    assert (name_at s rest = Ok parent) as Hparent'
        by (by rewrite <- (name_at_heap s s1 rest eq_refl)).
    simpl in Hnd, Hlin. rewrite Hparent' in Hnd, Hlin.
    apply bind_inv in H as [(ext & s3 & H3 & H)|(e & _ & ?)]; [|discriminate].
    assert (parents_first (trace s3)
            ∧ (∀ x, x ∈ localClasses s3 →
                    x ∈ className :: pending ∨ described (trace s3) x)
            ∧ (∀ p, ext = Some p → described (trace s3) p)
            ∧ heap s3 = heap s
            ∧ ∃ e3, trace s3 = (trace s ++ e3)%list) as (Hpf3 & Hcls3 & Hext & Hh3 & e3 & He3).
    { destruct (decide (parent = "Object")) as [->|Hne].
      - injection H3 as <- <-. repeat split; auto.
        + intros x Hx. simpl in Hx. apply elem_of_union in Hx as [Hx|Hx].
          * apply elem_of_singleton in Hx as ->. left. left.
          * destruct (Hcls _ Hx); [left; by right|by right].
        + discriminate.
        + exists []. by rewrite app_nil_r.
      - apply bind_inv in H3 as [([] & s4 & H4 & H3)|(e & _ & ?)];
          [|discriminate].
        injection H3 as <- <-.
        apply (IH parent (className :: pending)) in H4
          as (Hpf4 & Hcls4 & Hd4 & Hh4 & e4 & He4).
        + repeat split; auto.
          * by intros p [= <-].
          * by exists e4.
        + exact Hpf.
        + intros x Hx. simpl in Hx. apply elem_of_union in Hx as [Hx|Hx].
          * apply elem_of_singleton in Hx as ->. left. left.
          * destruct (Hcls _ Hx); [left; by right|by right].
        + intros Hin. apply elem_of_cons in Hin as [->|Hin].
          * inversion Hnd as [|? ? Hk _]; subst. apply Hk. left.
          * apply (Hlin parent); [left|done].
        + intros x Hx Hin.
          rewrite (lineage_heap s s1 rest eq_refl) in Hx.
          apply elem_of_cons in Hin as [->|Hin].
          * inversion Hnd as [|? ? Hk _]; subst. apply Hk. by right.
          * apply (Hlin x); [by right|done].
        + rewrite (lineage_heap s s1 rest eq_refl).
          by inversion Hnd. }
    unfold bind, gets, callRemote, modify in H. injection H as <-. simpl.
    set (d := describe_members _ _ _).
    assert (cd_className d = className ∧ cd_extends d = ext) as [Hdn Hde]
        by (subst d; apply describe_members_head).
    repeat split.
    + apply parents_first_snoc; [done|]. intros p Hp. apply Hext. congruence.
    + intros x Hx. destruct (Hcls3 _ Hx) as [Hin|Hdx].
      * apply elem_of_cons in Hin as [->|Hin]; [|by left].
        right. rewrite <- Hdn. apply described_snoc.
      * right. by apply described_app.
    + rewrite <- Hdn. apply described_snoc.
    + done.
    + exists (e3 ++ [FClass [d]])%list. by rewrite He3, app_assoc.
Qed.

Lemma class_names_arr (ws : list wire) :
  class_names (WArr ws) = concat (map class_names ws).
Proof. simpl. induction ws as [|x r IH]; simpl; [done|]. by rewrite IH. Qed.

Lemma class_names_obj idL cn props idR po :
  class_names (WObject idL cn props idR po)
  = (own_name cn props ++ fields_names (default [] props)
       ++ fields_names (default [] po))%list.
Proof.
  assert (∀ l : list (string * wire),
            (fix go (l : list (string * wire)) : list string :=
               match l with
               | [] => []
               | (_, x) :: r => (class_names x ++ go r)%list
               end) l = fields_names l) as Hgo.
  { induction l as [|[k x] r IH]; [done|]. unfold fields_names. simpl.
    by rewrite IH. }
  simpl. unfold own_name. f_equal. f_equal.
  - destruct props; [apply Hgo|done].
  - destruct po; [apply Hgo|done].
Qed.

Lemma fields_names_assoc_set (k : string) (w : wire) (acc : list (string * wire))
      (c : string) :
  c ∈ fields_names (assoc_set k w acc) →
  c ∈ class_names w ∨ c ∈ fields_names acc.
Proof.
  unfold fields_names. induction acc as [|[k' w'] acc IH]; simpl.
  - rewrite app_nil_r. auto.
  - destruct (decide (k' = k)); simpl; intros Hin;
      apply elem_of_app in Hin as [Hin|Hin].
    + auto.
    + right. apply elem_of_app. auto.
    + right. apply elem_of_app. auto.
    + destruct (IH Hin); [auto|]. right. apply elem_of_app. auto.
Qed.

Lemma chains_ok_heap (s s' : state) :
  heap s' = heap s → chains_ok s → chains_ok s'.
Proof.
  intros Hh Hok l o cn Hl Hn. rewrite Hh in Hl.
  rewrite (name_at_heap _ _ _ Hh) in Hn. rewrite (lineage_heap _ _ _ Hh).
  by eapply Hok.
Qed.

Lemma carries_refl (s : state) : sent_ok s → carries s s [].
Proof.
  intros Hok. repeat split; try apply Hok.
  - exists []. by rewrite app_nil_r.
  - intros c Hc. by apply elem_of_nil in Hc.
Qed.

Lemma carries_step (s s1 s2 : state) (n1 n2 : list string) :
  carries s s1 n1 → carries s1 s2 n2 → carries s s2 (n1 ++ n2).
Proof.
  intros (_ & H1 & (e1 & T1) & D1) (Hok & H2 & (e2 & T2) & D2).
  split; [done|]. split; [congruence|]. split.
  - exists (e1 ++ e2)%list. by rewrite T2, T1, app_assoc.
  - intros c Hc. apply elem_of_app in Hc as [Hc|Hc]; [|by apply D2].
    rewrite T2. apply described_app. by apply D1.
Qed.

Lemma carries_names (s s' : state) (n n' : list string) :
  carries s s' n → (∀ c, c ∈ n' → c ∈ n) → carries s s' n'.
Proof.
  intros (Hok & Hh & He & Hd) Hsub. split; [done|]. split; [done|].
  split; [done|]. intros c Hc. apply Hd. by apply Hsub.
Qed.

Lemma carries_same (s s' : state) :
  sent_ok s → heap s' = heap s → trace s' = trace s →
  localClasses s' = localClasses s → carries s s' [].
Proof.
  intros [Hc Hp] Hh Ht Hl. split; [|split; [done|split]].
  - split; [|by rewrite Ht]. intros c. rewrite Hl, Ht. apply Hc.
  - exists []. by rewrite app_nil_r.
  - intros c Hin. by apply elem_of_nil in Hin.
Qed.

Lemma carries_getOrCreateID (obj : loc) (s s' : state) (id : string) :
  sent_ok s → getOrCreateIDForLocalObject obj s = (Ok id, s') → carries s s' [].
Proof.
  intros Hok H.
  apply getOrCreateID_spec in H as (_ & _ & _ & Hh & _ & _ & _ & _ & Hl & Ht).
  by apply carries_same.
Qed.

Section OutgoingOrder.

Variable rec : val → M wire.

Hypothesis rec_carries :
  ∀ v s w s', sent_ok s → chains_ok s → rec v s = (Ok w, s') →
              carries s s' (class_names w).

Lemma mapM_order (xs : list val) (s : state) (ws : list wire) (s' : state) :
  sent_ok s → chains_ok s → mapM rec xs s = (Ok ws, s') →
  carries s s' (concat (map class_names ws)).
Proof.
  revert s ws s'. induction xs as [|x xs IH]; intros s ws s' Hok Hch; simpl.
  - intros [= <- <-]. by apply carries_refl.
  - intros H.
    apply bind_inv in H as [(w & s1 & H1 & H)|(e & _ & ?)]; [|discriminate].
    apply rec_carries in H1 as C1; [|done|done].
    apply bind_inv in H as [(ws' & s2 & H2 & H)|(e & _ & ?)]; [|discriminate].
    injection H as <- <-.
    apply IH in H2 as C2;
      [|apply C1|eapply chains_ok_heap; [apply C1|done]].
    simpl. by eapply carries_step.
Qed.

Lemma plain_fields_order (own : list (key * pdesc)) (c : chain)
      (names : list string) :
  ∀ (acc : list (string * wire)) (base s : state) (m : list (string * wire))
    (s' : state),
    carries base s (fields_names acc) → chains_ok s →
    plain_fields rec own c names acc s = (Ok m, s') →
    carries base s' (fields_names m).
Proof.
  induction names as [|n names IH]; intros acc base s m s' Hc Hch; simpl.
  - by intros [= <- <-].
  - intros H.
    apply bind_inv in H as [(w & s1 & H1 & H)|(e & _ & ?)]; [|discriminate].
    apply rec_carries in H1 as C1; [|apply Hc|done].
    eapply IH; [| |exact H].
    + eapply carries_names; [exact (carries_step _ _ _ _ _ Hc C1)|].
      intros x Hx. apply fields_names_assoc_set in Hx as [?|?];
        apply elem_of_app; auto.
    + eapply chains_ok_heap; [apply C1|done].
Qed.

Lemma describe_props_order (own : list (key * pdesc)) :
  ∀ (props : option (list (string * wire))) (base s : state)
    (props' : option (list (string * wire))) (s' : state),
    carries base s (fields_names (default [] props)) → chains_ok s →
    describe_props rec own props s = (Ok props', s') →
    carries base s' (fields_names (default [] props')).
Proof.
  induction own as [|[k d] own IH]; intros props base s props' s' Hc Hch; simpl.
  - by intros [= <- <-].
  - destruct k as [n| |]; try by apply IH.
    destruct (starts_underscore n); [by apply IH|].
    unfold bind at 1. unfold gets at 1.
    destruct (match d with
              | Data _ v => is_function (heap s) v
              | Accessor _ get _ => bool_decide (is_Some get)
              end); [by apply IH|].
    intros H.
    apply bind_inv in H as [(w & s1 & H1 & H)|(e & _ & ?)]; [|discriminate].
    apply rec_carries in H1 as C1; [|apply Hc|done].
    eapply IH; [| |exact H].
    + eapply carries_names; [exact (carries_step _ _ _ _ _ Hc C1)|].
      intros x Hx. simpl in Hx.
      apply fields_names_assoc_set in Hx as [?|?]; apply elem_of_app; auto.
    + eapply chains_ok_heap; [apply C1|done].
Qed.

Lemma createObjectDescription_order (obj : loc) (id : string) (s : state)
      (w : wire) (s' : state) :
  sent_ok s → chains_ok s →
  createObjectDescription_with rec obj id s = (Ok w, s') →
  carries s s' (class_names w).
Proof.
  intros Hok Hch. unfold createObjectDescription_with. intros H.
  apply bind_inv in H as [(o & s1 & H1 & H)|(e & _ & ?)]; [|discriminate].
  apply heap_get_inv in H1 as [-> [(o' & Ho & [= <-])|[_ ?]]]; [|discriminate].
  unfold bind at 1 in H. rewrite getClassName_eq in H.
  destruct (name_at s (o_proto o)) as [cn|] eqn:Hcn; [|discriminate].
  apply bind_inv in H as [([] & s1 & H2 & H)|(e & _ & ?)]; [|discriminate].
  assert (s1 = s) as ->.
  { unfold assert, ret, throw in H2. destruct (negb _); [|discriminate].
    by injection H2 as <-. }
  apply bind_inv in H as [(sent & s1 & H3 & H)|(e & _ & ?)]; [|discriminate].
  injection H3 as <- <-.
  apply bind_inv in H as [([] & s2 & H4 & H)|(e & _ & ?)]; [|discriminate].
  assert (carries s s2 [cn]) as C2.
  { clear H2. case_bool_decide as Hsent.
    - unfold ret in H4. injection H4 as <-.
      split; [done|]. split; [done|]. split.
      + exists []. by rewrite app_nil_r.
      + intros c Hc. apply list_elem_of_singleton in Hc as ->.
        by apply Hok.
    - apply (sendClassDescription_order _ _ []) in H4
        as (Hpf & Hcls & Hd & Hh & He).
      + split; [split; [|done]|].
        * intros c Hc. destruct (Hcls c Hc) as [Hin|?]; [|done].
          by apply elem_of_nil in Hin.
        * split; [done|]. split; [done|].
          intros c Hc. by apply list_elem_of_singleton in Hc as ->.
      + apply Hok.
      + intros x Hx. right. by apply Hok.
      + apply not_elem_of_nil.
      + intros x _. apply not_elem_of_nil.
      + by eapply Hch. }
  apply bind_inv in H as [(props & s3 & H5 & H)|(e & _ & ?)]; [|discriminate].
  injection H as <- <-.
  apply (describe_props_order _ None s2) in H5 as C3;
    [|by apply carries_refl; apply C2
     |eapply chains_ok_heap; [apply C2|done]].
  eapply carries_names; [exact (carries_step _ _ _ _ _ C2 C3)|].
  intros c. rewrite class_names_obj. simpl. rewrite app_nil_r.
  intros Hc. apply elem_of_cons.
  apply elem_of_app in Hc as [Hc|Hc]; [left|by right].
  destruct props; simpl in Hc.
  - by apply list_elem_of_singleton in Hc.
  - destruct (decide (cn = "Function")); [by apply elem_of_nil in Hc|].
    by apply list_elem_of_singleton in Hc.
Qed.

End OutgoingOrder.

Lemma mapOutgoingObjects_order (fuel : nat) (v : val) (s : state) (w : wire)
      (s' : state) :
  sent_ok s → chains_ok s →
  mapOutgoingObjects fuel v s = (Ok w, s') →
  carries s s' (class_names w).
Proof.
  revert v s w s'. induction fuel as [|fuel IH]; intros v s w s' Hok Hch; simpl;
    [discriminate|].
  destruct v as [p|xs|obj].
  - intros [= <- <-]. by apply carries_refl.
  - intros H.
    apply bind_inv in H as [(ws & s1 & H1 & H)|(e & _ & ?)]; [|discriminate].
    injection H as <- <-. rewrite class_names_arr.
    by apply (mapM_order _ IH) in H1.
  - intros H.
    apply bind_inv in H as [(o & s1 & H1 & H)|(e & _ & ?)]; [|discriminate].
    apply heap_get_inv in H1 as [-> _].
    destruct (bool_decide (is_Some (o_call o))).
    { apply bind_inv in H as [(? & s1 & H1 & H)|(e & _ & ?)]; [|discriminate].
      apply carries_getOrCreateID in H1 as C1; [|done].
      apply bind_inv in H as [(id & s2 & H2 & H)|(e & _ & ?)]; [|discriminate].
      apply carries_getOrCreateID in H2 as C2; [|apply C1].
      injection H as <- <-. exact (carries_step _ _ _ _ _ C1 C2). }
    destruct (instanceof_RemoteClass (o_proto o)).
    { injection H as <- <-. by apply carries_refl. }
    unfold bind at 1 in H. rewrite getClassName_eq in H.
    destruct (name_at s (o_proto o)) as [cn|]; [|discriminate].
    destruct (decide (cn = "Object")).
    + apply bind_inv in H as [(m & s1 & H2 & H)|(e' & _ & ?)]; [|discriminate].
      injection H as <- <-.
      apply (plain_fields_order _ IH _ _ _ [] s) in H2;
        [|by apply carries_refl|done].
      eapply carries_names; [exact H2|].
      intros c. rewrite class_names_obj. simpl. done.
    + apply bind_inv in H as [(id & s1 & H2 & H)|(e' & _ & ?)]; [|discriminate].
      apply carries_getOrCreateID in H2 as C1; [|done].
      apply (createObjectDescription_order _ IH) in H as C2;
        [|apply C1|eapply chains_ok_heap; [apply C1|done]].
      exact (carries_step _ _ _ _ _ C1 C2).
Qed.

(** ** C4: class before instance *)


Lemma example_chains_ok : chains_ok Example.server.
Proof.
  intros l o cn Hl Hn. unfold Example.server in Hl. simpl in Hl.
  unfold Example.car_heap, heap0 in Hl.
  repeat (apply lookup_insert_Some in Hl as [[<- <-]|[_ Hl]];
          [vm_compute in Hn; injection Hn as <-;
           apply (bool_decide_unpack _); vm_compute; exact I|]).
  by rewrite lookup_empty in Hl.
Qed.

Lemma init_sent_ok (s : state) :
  localClasses s = ∅ → trace s = [] → sent_ok s.
Proof.
  intros Hl Ht. split.
  - intros c. rewrite Hl. set_solver.
  - intros pre ds post d p Heq. rewrite Ht in Heq.
    by destruct pre.
Qed.



(** * Further properties *)

(** * Further properties of the registry and the marshallers *)

(** ** Exporting an object *)

(** X1.  Exporting is idempotent: once [getOrCreateIDForLocalObject(o)] has
    returned [i], calling it again returns [i] and changes nothing. *)
Theorem export_idempotent (o : loc) (i : string) (s s1 : state) :
  getOrCreateIDForLocalObject o s = (Ok i, s1) →
  getOrCreateIDForLocalObject o s1 = (Ok i, s1).
Proof.
  intros H. apply getOrCreateID_spec in H as (Hne & Hreg & Hid & _).
  rewrite (getOrCreateID_known _ _ _ Hid Hne). f_equal.
  destruct s1; unfold set_localIDsToObjects; simpl in *. f_equal.
  by apply insert_id.
Qed.

Lemma export_idempotent_witness :
  getOrCreateIDForLocalObject 20%positive
    (snd (getOrCreateIDForLocalObject 20%positive (init [42%N])))
  = (Ok "42", snd (getOrCreateIDForLocalObject 20%positive (init [42%N]))).
Proof.
  apply (export_idempotent 20%positive "42" (init [42%N])). reflexivity.
Defined.

Lemma export_unknown_or_known (o : loc) (i : string) (s s1 : state) :
  getOrCreateIDForLocalObject o s = (Ok i, s1) →
  (∀ j, j ≠ i → localIDsToObjects s1 !! j = localIDsToObjects s !! j)
  ∧ (∀ o', o' ≠ o → localObjectsToIDs s1 !! o' = localObjectsToIDs s !! o')
  ∧ (truthy_str (localObjectsToIDs s !! o) = None →
     localIDsToObjects s !! i = None)
  ∧ (∀ i0, truthy_str (localObjectsToIDs s !! o) = Some i0 → i = i0).
Proof.
  unfold getOrCreateIDForLocalObject, generateNewObjID. unfold_m.
  destruct (truthy_str (localObjectsToIDs s !! o)) as [i0|] eqn:Hk.
  - intros [= <- <-]. simpl. repeat split; auto.
    + intros j Hj. by rewrite lookup_insert_ne.
    + discriminate.
    + by intros ? [= <-].
  - destruct (pick_fresh (localIDsToObjects s) (rand s)) as [[i' r']|] eqn:Hp;
      [|discriminate].
    intros [= <- <-]. apply pick_fresh_spec in Hp as [_ Hfresh]. simpl.
    repeat split; auto.
    + intros j Hj. by rewrite lookup_insert_ne.
    + intros o' Ho'. by rewrite lookup_insert_ne.
    + discriminate.
Qed.

(** X2.  Exporting never disturbs another entry: every ID other than the
    one returned keeps its registry entry, every other object keeps its ID,
    and an object that had no ID gets one that was not in the registry, so
    that no entry is overwritten. *)
Theorem export_preserves_others (o : loc) (i : string) (s s1 : state) :
  getOrCreateIDForLocalObject o s = (Ok i, s1) →
  (∀ j, j ≠ i → localIDsToObjects s1 !! j = localIDsToObjects s !! j)
  ∧ (∀ o', o' ≠ o → localObjectsToIDs s1 !! o' = localObjectsToIDs s !! o')
  ∧ (truthy_str (localObjectsToIDs s !! o) = None →
     localIDsToObjects s !! i = None)
  ∧ (∀ i0, truthy_str (localObjectsToIDs s !! o) = Some i0 → i = i0).
Proof. exact (export_unknown_or_known o i s s1). Qed.

Lemma export_preserves_others_witness :
  localIDsToObjects (snd (getOrCreateIDForLocalObject 21%positive
                            Example.server_sent)) !! "42"
  = localIDsToObjects Example.server_sent !! "42".
Proof.
  refine (proj1 (export_preserves_others 21%positive "7" Example.server_sent _ _)
                "42" _).
  - reflexivity.
  - discriminate.
Defined.

(** ** Identity over the life of an entry *)

Lemma exposed_ok_step (op : lop) (s : state) :
  exposed_ok s → allowed op s → exposed_ok (lexec op s).
Proof.
  intros Hok Hal. destruct op as [o|id|id|l|id]; simpl in Hal; simpl.
  - destruct (getOrCreateIDForLocalObject o s) as [[i|e] s1] eqn:E; simpl.
    + pose proof (getOrCreateID_spec _ _ _ _ E)
        as (Hne & Hreg & Hid & _ & _ & Hc & _).
      pose proof (export_unknown_or_known o i s s1 E) as (Hids & Hobjs & Hnew & Hold).
      intros o' i' Ho' Hi' Hlive.
      assert (is_live o' s = true) as Hlive'
          by (by rewrite <- (is_live_collected _ _ _ Hc)).
      destruct (decide (o' = o)) as [->|Hneq].
      * rewrite Hid in Ho'. injection Ho' as <-. eauto.
      * rewrite Hobjs in Ho' by done.
        destruct (Hok o' i' Ho' Hi' Hlive') as (e & He & Ht).
        destruct (decide (i' = i)) as [->|Hni].
        -- exfalso.
           destruct (truthy_str (localObjectsToIDs s !! o)) as [i0|] eqn:Hk.
           ++ pose proof (Hold _ eq_refl) as ->.
              apply truthy_str_Some in Hk as [Hk _].
              destruct (Hok o i0 Hk Hne Hal) as (e' & He' & Ht').
              congruence.
           ++ rewrite (Hnew eq_refl) in He. discriminate.
        -- exists e. by rewrite Hids.
    + unfold getOrCreateIDForLocalObject, generateNewObjID in E. unfold_m.
      destruct (truthy_str _); [discriminate|].
      destruct (pick_fresh _ _) as [[? ?]|]; [discriminate|].
      injection E as _ <-. exact Hok.
  - unfold deleteLocalObject. unfold_m.
    destruct (localIDsToObjects s !! id) as [[l|l]|] eqn:E; simpl; try exact Hok.
    intros o i Ho Hi Hlive. destruct (Hok o i Ho Hi Hlive) as (e & He & Ht).
    simpl. destruct (decide (i = id)) as [->|Hne].
    + rewrite lookup_insert_eq. rewrite E in He. injection He as <-. eauto.
    + rewrite lookup_insert_ne by done. eauto.
  - unfold getLocalObject. unfold_m.
    destruct (localIDsToObjects s !! id) as [[l|l]|] eqn:E; simpl; try exact Hok.
    destruct (is_live l s) eqn:L; simpl; [|exact Hok].
    intros o i Ho Hi Hlive. destruct (Hok o i Ho Hi Hlive) as (e & He & Ht).
    simpl. destruct (decide (i = id)) as [->|Hne].
    + rewrite lookup_insert_eq. rewrite E in He. injection He as <-. eauto.
    + rewrite lookup_insert_ne by done. eauto.
  - intros o i Ho Hi Hlive. apply (Hok o i Ho Hi).
    unfold is_live in *. simpl in Hlive.
    apply bool_decide_eq_true in Hlive. apply bool_decide_eq_true.
    set_solver.
  - intros o i Ho Hi Hlive.
    assert (localObjectsToIDs s !! o = Some i) as Ho' by exact Ho.
    assert (is_live o s = true) as Hlive' by exact Hlive.
    destruct (Hok o i Ho' Hi Hlive') as (e & He & Ht).
    destruct (decide (i = id)) as [->|Hne].
    + rewrite (Hal o Ho') in Hlive'. discriminate.
    + exists e. split; [|done]. simpl. by rewrite lookup_delete_ne.
Qed.

Lemma exposed_ok_runs (s s' : state) (ops : list lop) :
  exposed_ok s → lruns s ops s' → exposed_ok s'.
Proof.
  intros Hok Hr. induction Hr as [|s op ops s' Hal _ IH]; [done|].
  apply IH. by apply exposed_ok_step.
Qed.

(** X3.  Identity survives the whole life of an entry.  Start from a
    registry in which every live object with an ID is registered under it
    (the fresh protocol instance is one) and let objects be exported, IDs be
    released by the peer and resolved again, objects be collected and
    finalization callbacks run, in any order the host allows.  Then every
    live object that has an ID still resolves from it -- the echoed
    [{idRemote: i}] yields that very object -- and no two live objects share
    an ID. *)
Theorem identity_over_lifetime (s s' : state) (ops : list lop) :
  exposed_ok s → lruns s ops s' →
  (∀ o i fuel, localObjectsToIDs s' !! o = Some i → i ≠ "" →
               is_live o s' = true →
               fst (mapIncomingObjects (S fuel)
                      (WObject None None None (Some i) None) s') = Ok (VRef o))
  ∧ (∀ o1 o2 i, localObjectsToIDs s' !! o1 = Some i →
                localObjectsToIDs s' !! o2 = Some i → i ≠ "" →
                is_live o1 s' = true → is_live o2 s' = true → o1 = o2).
Proof.
  intros Hok Hr. pose proof (exposed_ok_runs _ _ _ Hok Hr) as Hok'. split.
  - intros o i fuel Ho Hi Hlive. destruct (Hok' o i Ho Hi Hlive) as (e & He & Ht).
    simpl. rewrite (truthy_str_nonempty _ Hi).
    unfold getLocalObject. unfold_m. rewrite He.
    destruct e as [l|l]; simpl in Ht; subst l; [done|].
    by rewrite Hlive.
  - intros o1 o2 i H1 H2 Hi L1 L2.
    destruct (Hok' o1 i H1 Hi L1) as (e1 & He1 & <-).
    destruct (Hok' o2 i H2 Hi L2) as (e2 & He2 & <-). congruence.
Qed.

Lemma init_exposed_ok (r : list N) : exposed_ok (init r).
Proof. intros o i Ho. simpl in Ho. by rewrite lookup_empty in Ho. Qed.

Lemma identity_over_lifetime_witness :
  fst (mapIncomingObjects 1 (WObject None None None (Some "42") None)
         (lexec (LRelease "42") (lexec (LExport 20%positive) (init [42%N]))))
  = Ok (VRef 20%positive).
Proof.
  refine (proj1 (identity_over_lifetime (init [42%N]) _
                   [LExport 20%positive; LRelease "42"] _ _)
                20%positive "42" 0 _ _ _).
  - apply init_exposed_ok.
  - apply lruns_cons; [reflexivity|]. apply lruns_cons; [exact I|]. apply lruns_nil.
  - reflexivity.
  - discriminate.
  - reflexivity.
Defined.

(** ** A scheme for the outgoing marshaller *)

(** Whatever relation [R] between states the two state-changing steps of the
    outgoing marshaller respect, and whatever property [Q] of wire values
    its result shapes establish, hold of every run. *)
Section OutgoingScheme.
Variable R : state → state → Prop.
Variable Q : state → wire → Prop.
Hypothesis R_refl : ∀ s, R s s.
Hypothesis R_trans : ∀ s s1 s2, R s s1 → R s1 s2 → R s s2.
Hypothesis R_export :
  ∀ o s r s', getOrCreateIDForLocalObject o s = (r, s') → R s s'.
Hypothesis R_class :
  ∀ cn c s r s', sendClassDescription cn c s = (r, s') → R s s'.
Hypothesis Q_mono : ∀ s s' w, R s s' → Q s w → Q s' w.
Hypothesis Q_prim : ∀ s p, Q s (WPrim p).
Hypothesis Q_arr : ∀ s ws, Forall (Q s) ws → Q s (WArr ws).
Hypothesis Q_plain :
  ∀ s m, Forall (fun kw => Q s kw.2) m →
         Q s (WObject None None None None (Some m)).
Hypothesis Q_stub : ∀ s idR, Q s (WObject None None None idR None).
Hypothesis Q_fun :
  ∀ o id s0 s1, getOrCreateIDForLocalObject o s0 = (Ok id, s1) →
                Q s1 (WObject (Some id) (Some "Function") None None None).
Hypothesis Q_desc :
  ∀ o id s0 s1 s cn props,
    getOrCreateIDForLocalObject o s0 = (Ok id, s1) → R s1 s →
    Forall (fun kw => Q s kw.2) (default [] props) →
    Q s (WObject (Some id) (Some cn) props None None).

Section Step.
Variable rec : val → M wire.
Hypothesis rec_ok :
  ∀ v s r s', rec v s = (r, s') → R s s' ∧ ∀ w, r = Ok w → Q s' w.

Lemma Forall_Q_mono (s s' : state) (l : list (string * wire)) :
  R s s' → Forall (fun kw => Q s kw.2) l → Forall (fun kw => Q s' kw.2) l.
Proof.
  intros HR H. eapply Forall_impl; [exact H|]. intros kw. by apply Q_mono.
Qed.

Lemma scheme_mapM (xs : list val) (s : state) (r : outcome (list wire))
      (s' : state) :
  mapM rec xs s = (r, s') → R s s' ∧ ∀ ws, r = Ok ws → Forall (Q s') ws.
Proof.
  revert s r s'. induction xs as [|x xs IH]; intros s r s'; simpl.
  - intros [= <- <-]. split; [apply R_refl|]. intros ? [= <-]. constructor.
  - intros H. apply bind_inv in H as [(w & s1 & H1 & H)|(e & H1 & ->)];
      apply rec_ok in H1 as [R1 Q1]; [|by split].
    apply bind_inv in H as [(ws & s2 & H2 & H)|(e & H2 & ->)];
      apply IH in H2 as [R2 Q2].
    + injection H as <- <-. split; [by eapply R_trans|].
      intros ? [= <-]. constructor; [|by apply Q2].
      eapply Q_mono; [exact R2|]. by apply Q1.
    + split; [by eapply R_trans|discriminate].
Qed.

Lemma scheme_plain_fields (own : list (key * pdesc)) (c : chain)
      (names : list string) :
  ∀ (acc : list (string * wire)) (s : state)
    (r : outcome (list (string * wire))) (s' : state),
    Forall (fun kw => Q s kw.2) acc →
    plain_fields rec own c names acc s = (r, s') →
    R s s' ∧ ∀ m, r = Ok m → Forall (fun kw => Q s' kw.2) m.
Proof.
  induction names as [|n names IH]; intros acc s r s' Hacc; simpl.
  - intros [= <- <-]. split; [apply R_refl|]. by intros ? [= <-].
  - intros H. apply bind_inv in H as [(w & s1 & H1 & H)|(e & H1 & ->)];
      apply rec_ok in H1 as [R1 Q1]; [|by split].
    apply IH in H as [R2 Q2].
    + split; [by eapply R_trans|exact Q2].
    + apply Forall_assoc_set; [by eapply Forall_Q_mono|]. by apply Q1.
Qed.

Lemma scheme_describe_props (own : list (key * pdesc)) :
  ∀ (props : option (list (string * wire))) (s : state)
    (r : outcome (option (list (string * wire)))) (s' : state),
    Forall (fun kw => Q s kw.2) (default [] props) →
    describe_props rec own props s = (r, s') →
    R s s' ∧ ∀ props', r = Ok props' →
                       Forall (fun kw => Q s' kw.2) (default [] props').
Proof.
  induction own as [|[k d] own IH]; intros props s r s' Hacc; simpl.
  - intros [= <- <-]. split; [apply R_refl|]. by intros ? [= <-].
  - destruct k as [n| |]; try by apply IH.
    destruct (starts_underscore n); [by apply IH|].
    unfold bind at 1. unfold gets at 1.
    destruct (match d with
              | Data _ v => is_function (heap s) v
              | Accessor _ get _ => bool_decide (is_Some get)
              end); [by apply IH|].
    intros H. apply bind_inv in H as [(w & s1 & H1 & H)|(e & H1 & ->)];
      apply rec_ok in H1 as [R1 Q1]; [|by split].
    apply IH in H as [R2 Q2].
    + split; [by eapply R_trans|exact Q2].
    + simpl. apply Forall_assoc_set; [by eapply Forall_Q_mono|]. by apply Q1.
Qed.

Lemma scheme_createObjectDescription (obj : loc) (id : string)
      (s0 s : state) (r : outcome wire) (s' : state) :
  getOrCreateIDForLocalObject obj s0 = (Ok id, s) →
  createObjectDescription_with rec obj id s = (r, s') →
  R s s' ∧ ∀ w, r = Ok w → Q s' w.
Proof.
  intros Hid. unfold createObjectDescription_with. intros H.
  apply bind_inv in H as [(o & s1 & H1 & H)|(e & H1 & ->)];
    apply heap_get_inv in H1 as [-> _]; [|by split].
  apply bind_inv in H as [(cn & s1 & H1 & H)|(e & H1 & ->)];
    pose proof (getClassName_state _ _ _ _ H1) as ->; [|by split].
  apply bind_inv in H as [([] & s1 & H2 & H)|(e & H2 & ->)]; cycle 1.
  { unfold assert, ret, throw in H2. destruct (negb _); [discriminate|].
    injection H2 as _ <-. by split. }
  assert (s1 = s) as ->.
  { unfold assert, ret, throw in H2. destruct (negb _); [|discriminate].
    by injection H2 as <-. }
  apply bind_inv in H as [(sent & s1 & H3 & H)|(e & H3 & ->)]; [|discriminate].
  injection H3 as <- <-.
  apply bind_inv in H as [([] & s2 & H4 & H)|(e & H4 & ->)]; cycle 1.
  { destruct (bool_decide _); [discriminate|]. apply R_class in H4. by split. }
  assert (R s s2) as R2.
  { destruct (bool_decide _); [injection H4 as <-; apply R_refl|].
    by apply R_class in H4. }
  apply bind_inv in H as [(props & s3 & H5 & H)|(e & H5 & ->)];
    apply (scheme_describe_props _ None) in H5 as [R3 Q3]; try (by constructor);
    [|split; [by eapply R_trans|discriminate]].
  injection H as <- <-. split; [by eapply R_trans|].
  intros w [= <-]. eapply Q_desc; [exact Hid|by eapply R_trans|by apply Q3].
Qed.
End Step.

Lemma mapOutgoingObjects_scheme (fuel : nat) (v : val) (s : state)
      (r : outcome wire) (s' : state) :
  mapOutgoingObjects fuel v s = (r, s') → R s s' ∧ ∀ w, r = Ok w → Q s' w.
Proof.
  revert v s r s'. induction fuel as [|fuel IH]; intros v s r s'; simpl.
  - intros [= <- <-]. split; [apply R_refl|discriminate].
  - destruct v as [p|xs|obj].
    + intros [= <- <-]. split; [apply R_refl|]. intros ? [= <-]. apply Q_prim.
    + intros H. apply bind_inv in H as [(ws & s1 & H1 & H)|(e & H1 & ->)];
        apply (scheme_mapM _ IH) in H1 as [R1 Q1]; [|by split].
      injection H as <- <-. split; [done|]. intros ? [= <-]. apply Q_arr. auto.
    + intros H. apply bind_inv in H as [(o & s1 & H1 & H)|(e & H1 & ->)];
        apply heap_get_inv in H1 as [-> _]; [|by split].
      destruct (bool_decide (is_Some (o_call o))).
      { apply bind_inv in H as [(? & s1 & H1 & H)|(e & H1 & ->)];
          apply R_export in H1; [|by split].
        apply bind_inv in H as [(id & s2 & H2 & H)|(e & H2 & ->)];
          pose proof (R_export _ _ _ _ H2) as R2;
          [|split; [by eapply R_trans|discriminate]].
        injection H as <- <-. split; [by eapply R_trans|].
        intros ? [= <-]. by eapply Q_fun. }
      destruct (instanceof_RemoteClass (o_proto o)).
      { injection H as <- <-. split; [apply R_refl|].
        intros ? [= <-]. apply Q_stub. }
      apply bind_inv in H as [(cn & s1 & H1 & H)|(e & H1 & ->)];
        pose proof (getClassName_state _ _ _ _ H1) as ->; [|by split].
      destruct (decide (cn = "Object")).
      * assert (Forall (fun kw : string * wire => Q s kw.2) []) as Hnil
            by constructor.
        apply bind_inv in H as [(m & s1 & H2 & H)|(e' & H2 & ->)];
          apply (scheme_plain_fields _ IH _ _ _ _ _ _ _ Hnil) in H2 as [R2 Q2];
          [|by split].
        injection H as <- <-. split; [done|].
        intros ? [= <-]. apply Q_plain. auto.
      * apply bind_inv in H as [(id & s1 & H2 & H)|(e' & H2 & ->)];
          pose proof (R_export _ _ _ _ H2) as R2; [|by split].
        apply (scheme_createObjectDescription _ IH _ _ _ _ _ _ H2) in H
          as [R3 Q3].
        split; [by eapply R_trans|exact Q3].
Qed.
End OutgoingScheme.

(** ** What the outgoing marshaller changes *)

Lemma out_le_refl (s : state) : out_le s s.
Proof.
  split; auto; try done.
  - exists []. by rewrite app_nil_r.
  - eauto.
Qed.

Lemma out_le_trans (s s1 s2 : state) : out_le s s1 → out_le s1 s2 → out_le s s2.
Proof.
  intros [H1 N1 C1 O1 K1 L1 (e1 & T1) I1 S1 D1] [H2 N2 C2 O2 K2 L2 (e2 & T2) I2 S2 D2].
  split; try congruence.
  - by etrans.
  - exists (e1 ++ e2)%list. by rewrite T2, T1, app_assoc.
  - auto.
  - intros i o Hs. destruct (S1 i o Hs) as [o' Ho']. by eapply S2.
  - auto.
Qed.

Lemma out_le_export (o : loc) (s : state) (r : outcome string) (s' : state) :
  getOrCreateIDForLocalObject o s = (r, s') → out_le s s'.
Proof.
  unfold getOrCreateIDForLocalObject, generateNewObjID. unfold_m.
  assert (∀ i (m : gmap string lentry) (j : string) (x : loc),
            is_Some (m !! j) → is_Some (<[i := Strong x]> m !! j)) as Hdom.
  { intros i m j x Hj. destruct (decide (i = j)) as [->|Hne].
    - rewrite lookup_insert_eq. eauto.
    - by rewrite lookup_insert_ne. }
  assert (∀ i (m : gmap string lentry) (j : string) (x y : loc),
            m !! j = Some (Strong y) →
            ∃ o', <[i := Strong x]> m !! j = Some (Strong o')) as Hstrong.
  { intros i m j x y Hj. destruct (decide (i = j)) as [->|Hne].
    - rewrite lookup_insert_eq. eauto.
    - rewrite lookup_insert_ne by done. eauto. }
  destruct (truthy_str (localObjectsToIDs s !! o)) as [i0|] eqn:Hk.
  - intros [= <- <-]. split; simpl; auto; try done.
    + exists []. by rewrite app_nil_r.
    + intros. by eapply Hstrong.
  - destruct (pick_fresh (localIDsToObjects s) (rand s)) as [[i r']|] eqn:Hp.
    + intros [= <- <-]. split; simpl; auto; try done.
      * exists []. by rewrite app_nil_r.
      * intros o' i' Ho' Hi'. destruct (decide (o = o')) as [<-|Hne].
        -- assert (truthy_str (localObjectsToIDs s !! o) = Some i') as Hc
               by (by apply truthy_str_Some).
           congruence.
        -- by rewrite lookup_insert_ne.
      * intros. by eapply Hstrong.
    + intros [= <- <-]. split; simpl; auto; try done.
      * exists []. by rewrite app_nil_r.
      * eauto.
Qed.

Lemma out_le_class (cn : string) (c : chain) (s : state) (r : outcome unit)
      (s' : state) :
  sendClassDescription cn c s = (r, s') → out_le s s'.
Proof.
  assert (∀ x s0, out_le s0 (set_localClasses ({[x]} ∪ localClasses s0) s0))
    as Hadd.
  { intros x s0. split; simpl; auto; try done.
    - set_solver.
    - exists []. by rewrite app_nil_r.
    - eauto. }
  revert cn s r s'. induction c as [|proto rest IH]; intros cn s r s'; simpl.
  - unfold_m. case_bool_decide; intros [= _ <-]; [apply out_le_refl|apply Hadd].
  - intros H. apply bind_inv in H as [(sent & s0 & H0 & H)|(e & H0 & _)];
      [|discriminate].
    injection H0 as <- <-.
    destruct (bool_decide _); [injection H as _ <-; apply out_le_refl|].
    apply bind_inv in H as [([] & s1 & H1 & H)|(e & H1 & _)]; [|discriminate].
    assert (out_le s s1) as S1 by (injection H1 as <-; apply Hadd).
    clear H1. apply (out_le_trans _ _ _ S1).
    apply bind_inv in H as [(parent & s2 & H2 & H)|(e & H2 & _)];
      pose proof (getClassName_state _ _ _ _ H2) as ->; [|apply out_le_refl].
    clear H2.
    apply bind_inv in H as [(ext & s3 & H3 & H)|(e & H3 & _)].
    + assert (out_le s1 s3) as S3.
      { destruct (decide (parent = "Object")).
        - injection H3 as _ <-. apply out_le_refl.
        - apply bind_inv in H3 as [(? & s4 & H4 & H3)|(e & H4 & _)].
          + injection H3 as _ <-. by eapply IH.
          + by eapply IH. }
      eapply out_le_trans; [exact S3|].
      unfold bind, gets, callRemote, modify in H. injection H as _ <-.
      split; simpl; auto; try done; eauto.
    + destruct (decide (parent = "Object")); [discriminate|].
      apply bind_inv in H3 as [(? & s4 & H4 & H3)|(e' & H4 & _)];
        [discriminate|]. by eapply IH.
Qed.

(** X4.  The outgoing marshaller only reads the heap and only adds to the
    sender's tables.  However it ends, the heap, the allocation pointer, the
    collected set, the stub registry and the table of remote classes are
    unchanged; the set of described classes and the trace have only grown;
    every object that had an ID has the same one, and every ID that was
    held strongly or at all still is. *)
Theorem outgoing_footprint (fuel : nat) (v : val) (s : state)
        (r : outcome wire) (s' : state) :
  mapOutgoingObjects fuel v s = (r, s') → out_le s s'.
Proof.
  intros H.
  refine (proj1 (mapOutgoingObjects_scheme out_le (fun _ _ => True)
                   out_le_refl out_le_trans out_le_export out_le_class
                   _ _ _ _ _ _ _ fuel v s r s' H)); auto.
Qed.

Lemma outgoing_footprint_witness :
  out_le Example.server Example.server_sent.
Proof.
  apply (outgoing_footprint 3 (VRef Example.car) Example.server
           (Ok Example.car_description)).
  reflexivity.
Defined.

(** ** References that are sent can be echoed *)

Lemma ids_local_arr (ws : list wire) :
  ids_local (WArr ws) = concat (map ids_local ws).
Proof. simpl. induction ws as [|x r IH]; simpl; [done|]. by rewrite IH. Qed.

Lemma ids_local_obj idL cn props idR po :
  ids_local (WObject idL cn props idR po)
  = (match idL with Some i => [i] | None => [] end
     ++ fields_ids (default [] props) ++ fields_ids (default [] po))%list.
Proof.
  assert (∀ l : list (string * wire),
            (fix go (l : list (string * wire)) : list string :=
               match l with
               | [] => []
               | (_, x) :: r => (ids_local x ++ go r)%list
               end) l = fields_ids l) as Hgo.
  { induction l as [|[k x] r IH]; [done|]. unfold fields_ids. simpl.
    by rewrite IH. }
  simpl. f_equal. f_equal.
  - destruct props; [apply Hgo|done].
  - destruct po; [apply Hgo|done].
Qed.

Lemma echoable_fields (s : state) (l : list (string * wire)) (i : string) :
  Forall (fun kw => echoable s kw.2) l → i ∈ fields_ids l →
  i ≠ "" ∧ ∃ o, localIDsToObjects s !! i = Some (Strong o).
Proof.
  unfold fields_ids. induction 1 as [|[k w] l Hw _ IH]; simpl; intros Hin.
  - by apply elem_of_nil in Hin.
  - apply elem_of_app in Hin as [Hin|Hin]; [by apply Hw|by apply IH].
Qed.

Lemma echoable_list (s : state) (ws : list wire) (i : string) :
  Forall (echoable s) ws → i ∈ concat (map ids_local ws) →
  i ≠ "" ∧ ∃ o, localIDsToObjects s !! i = Some (Strong o).
Proof.
  induction 1 as [|w l Hw _ IH]; simpl; intros Hin.
  - by apply elem_of_nil in Hin.
  - apply elem_of_app in Hin as [Hin|Hin]; [by apply Hw|by apply IH].
Qed.

Lemma mapOutgoingObjects_echoable (fuel : nat) (v : val) (s : state)
      (r : outcome wire) (s' : state) :
  mapOutgoingObjects fuel v s = (r, s') →
  out_le s s' ∧ ∀ w, r = Ok w → echoable s' w.
Proof.
  apply (mapOutgoingObjects_scheme out_le echoable
           out_le_refl out_le_trans out_le_export out_le_class).
  - intros s0 s1 w HR Hw i Hi. destruct (Hw i Hi) as [Hne [o Ho]].
    split; [done|]. by eapply (ol_strong _ _ HR).
  - intros s0 p i Hi. by apply elem_of_nil in Hi.
  - intros s0 ws Hws i Hi. rewrite ids_local_arr in Hi. by eapply echoable_list.
  - intros s0 m Hm i Hi. rewrite ids_local_obj in Hi. simpl in Hi.
    by eapply echoable_fields.
  - intros s0 idR i Hi. by apply elem_of_nil in Hi.
  - intros o id s0 s1 Hid i Hi. rewrite ids_local_obj in Hi. simpl in Hi.
    apply list_elem_of_singleton in Hi as ->.
    apply getOrCreateID_spec in Hid as (Hne & Hreg & _). eauto.
  - intros o id s0 s1 s2 cn props Hid HR Hprops i Hi.
    rewrite ids_local_obj in Hi. simpl in Hi. rewrite app_nil_r in Hi.
    apply elem_of_cons in Hi as [->|Hi]; [|by eapply echoable_fields].
    apply getOrCreateID_spec in Hid as (Hne & Hreg & _).
    split; [done|]. by eapply (ol_strong _ _ HR).
Qed.

(** X5.  No reference that is sent dangles.  When the outgoing marshaller
    returns a wire value, every [idLocal] anywhere inside it is a non-empty
    ID that the local registry holds strongly, so that the peer's echo
    [{idRemote: i}] of any of them resolves to an object and changes
    nothing. *)
Theorem sent_references_resolve (fuel : nat) (v : val) (s : state) (w : wire)
        (s' : state) :
  mapOutgoingObjects fuel v s = (Ok w, s') →
  ∀ i, i ∈ ids_local w →
       i ≠ ""
       ∧ ∃ o, localIDsToObjects s' !! i = Some (Strong o)
           ∧ ∀ n, mapIncomingObjects (S n) (WObject None None None (Some i) None) s'
                  = (Ok (VRef o), s').
Proof.
  intros H i Hi.
  destruct (proj2 (mapOutgoingObjects_echoable _ _ _ _ _ H) w eq_refl i Hi)
    as [Hne [o Ho]].
  split; [done|]. exists o. split; [done|]. intros n. simpl.
  rewrite (truthy_str_nonempty _ Hne). unfold getLocalObject. unfold_m.
  by rewrite Ho.
Qed.

Lemma sent_references_resolve_witness :
  mapIncomingObjects 1 (WObject None None None (Some "42") None)
    Example.server_sent
  = (Ok (VRef Example.car), Example.server_sent).
Proof.
  destruct (sent_references_resolve 3 (VRef Example.car) Example.server
              Example.car_description Example.server_sent eq_refl "42")
    as (_ & o & Ho & Hecho).
  - left.
  - assert (o = Example.car) as ->
        by (vm_compute in Ho; injection Ho as <-; reflexivity).
    apply Hecho.
Defined.

(** ** Each class is described once *)

Lemma sent_names_app (tr ext : list frame) :
  sent_names (tr ++ ext) = (sent_names tr ++ sent_names ext)%list.
Proof. unfold sent_names. by rewrite map_app, concat_app. Qed.

Lemma news_refl (s : state) : news s s.
Proof.
  split; [done|]. exists []. rewrite app_nil_r. split; [done|].
  split; [constructor|]. intros x Hx. by apply elem_of_nil in Hx.
Qed.

Lemma news_trans (s s1 s2 : state) : news s s1 → news s1 s2 → news s s2.
Proof.
  intros [L1 (e1 & T1 & N1 & F1)] [L2 (e2 & T2 & N2 & F2)].
  split; [by etrans|]. exists (e1 ++ e2)%list.
  split; [by rewrite T2, T1, app_assoc|]. rewrite sent_names_app. split.
  - apply NoDup_app. split; [done|]. split; [|done].
    intros x H1 H2. destruct (F1 x H1) as [_ Hin]. by destruct (F2 x H2).
  - intros x Hx. apply elem_of_app in Hx as [Hx|Hx].
    + destruct (F1 x Hx). split; [done|]. by apply L2.
    + destruct (F2 x Hx) as [Hn Hin]. split; [|done].
      intros Hc. apply Hn. by apply L1.
Qed.

Lemma news_same (s s' : state) :
  localClasses s' = localClasses s → trace s' = trace s → news s s'.
Proof.
  intros Hl Ht. split; [by rewrite Hl|]. exists []. rewrite app_nil_r.
  split; [done|]. split; [constructor|]. intros x Hx. by apply elem_of_nil in Hx.
Qed.

Lemma news_export (o : loc) (s : state) (r : outcome string) (s' : state) :
  getOrCreateIDForLocalObject o s = (r, s') → news s s'.
Proof.
  unfold getOrCreateIDForLocalObject, generateNewObjID. unfold_m.
  destruct (truthy_str _).
  - intros [= _ <-]. by apply news_same.
  - destruct (pick_fresh _ _) as [[? ?]|]; intros [= _ <-]; by apply news_same.
Qed.

Lemma news_class (cn : string) (c : chain) (s : state) (r : outcome unit)
      (s' : state) :
  sendClassDescription cn c s = (r, s') → news s s'.
Proof.
  assert (∀ x s0, news s0 (set_localClasses ({[x]} ∪ localClasses s0) s0))
    as Hadd.
  { intros x s0. split; [simpl; apply union_subseteq_r|]. exists []. rewrite app_nil_r.
    split; [done|]. split; [constructor|].
    intros y Hy. by apply elem_of_nil in Hy. }
  revert cn s r s'. induction c as [|proto rest IH]; intros cn s r s'; simpl.
  - unfold_m. case_bool_decide; intros [= _ <-]; [apply news_refl|apply Hadd].
  - intros H. apply bind_inv in H as [(sent & s0 & H0 & H)|(e & H0 & _)];
      [|discriminate].
    injection H0 as <- <-.
    case_bool_decide as Hsent; [injection H as _ <-; apply news_refl|].
    apply bind_inv in H as [([] & s1 & H1 & H)|(e & H1 & _)]; [|discriminate].
    injection H1 as <-.
    set (s1 := set_localClasses ({[cn]} ∪ localClasses s) s) in *.
    apply bind_inv in H as [(parent & s2 & H2 & H)|(e & H2 & _)];
      pose proof (getClassName_state _ _ _ _ H2) as ->; [|apply Hadd].
    clear H2.
    apply bind_inv in H as [(ext & s3 & H3 & H)|(e & H3 & _)].
    + assert (news s1 s3) as S3.
      { destruct (decide (parent = "Object")).
        - injection H3 as _ <-. apply news_refl.
        - apply bind_inv in H3 as [(? & s4 & H4 & H3)|(e & H4 & _)].
          + injection H3 as _ <-. by eapply IH.
          + by eapply IH. }
      unfold bind, gets, callRemote, modify in H. injection H as _ <-.
      destruct S3 as [L3 (e3 & T3 & N3 & F3)].
      set (d := describe_members _ _ _).
      assert (cd_className d = cn) as Hdn by (subst d; apply describe_members_head).
      assert (cn ∈ localClasses s1) as Hcn1
        by (simpl; apply elem_of_union_l; by apply elem_of_singleton).
      split; [etrans; [|exact L3]; simpl; apply union_subseteq_r|].
      exists (e3 ++ [FClass [d]])%list. simpl.
      split; [by rewrite T3, app_assoc|]. rewrite sent_names_app.
      change (sent_names [FClass [d]]) with ([cd_className d] ++ [])%list.
      rewrite Hdn, app_nil_r. split.
      * apply NoDup_app. split; [done|]. split; [|apply NoDup_singleton].
        intros x Hx Hc. apply list_elem_of_singleton in Hc as ->.
        by destruct (F3 cn Hx).
      * intros x Hx. apply elem_of_app in Hx as [Hx|Hx].
        -- destruct (F3 x Hx) as [Hn Hin]. split; [|done].
           intros Hc. apply Hn. simpl. by apply elem_of_union_r.
        -- apply list_elem_of_singleton in Hx as ->. split; [done|].
           by apply L3.
    + destruct (decide (parent = "Object")); [discriminate|].
      apply bind_inv in H3 as [(? & s4 & H4 & H3)|(e' & H4 & _)];
        [discriminate|].
      eapply news_trans; [apply Hadd|]. by eapply IH.
Qed.

Lemma once_ok_news (s s' : state) : once_ok s → news s s' → once_ok s'.
Proof.
  intros [Hnd Hin] [L (ext & T & N & F)]. split.
  - rewrite T, sent_names_app. apply NoDup_app. split; [done|]. split; [|done].
    intros x H1 H2. destruct (F x H2) as [Hn _]. apply Hn. by apply Hin.
  - intros c. rewrite T, sent_names_app. intros Hc.
    apply elem_of_app in Hc as [Hc|Hc]; [apply L; by apply Hin|].
    by destruct (F c Hc).
Qed.

(** X6.  Each class is described at most once.  However the outgoing
    marshaller ends, every description it has sent is for a class that was
    not marked as sent before, no class is described twice in the run, and
    all of them are marked afterwards; so if no class had been described
    twice, and every described class was marked, the same holds at the
    end. *)
Theorem described_once (fuel : nat) (v : val) (s : state) (r : outcome wire)
        (s' : state) :
  mapOutgoingObjects fuel v s = (r, s') →
  news s s' ∧ (once_ok s → once_ok s').
Proof.
  intros H.
  assert (news s s') as Hn.
  { refine (proj1 (mapOutgoingObjects_scheme news (fun _ _ => True)
                     news_refl news_trans news_export news_class
                     _ _ _ _ _ _ _ fuel v s r s' H)); auto. }
  split; [done|]. intros Hok. by eapply once_ok_news.
Qed.

Lemma described_once_witness :
  NoDup (sent_names (trace Example.server_sent)).
Proof.
  destruct (described_once 3 (VRef Example.car) Example.server
              (Ok Example.car_description) Example.server_sent) as [_ Hok].
  - reflexivity.
  - apply Hok. split; [constructor|]. intros c Hc. by apply elem_of_nil in Hc.
Defined.

(** ** What the incoming marshaller never does *)

Lemma in_refl (s : state) : in_le s s.
Proof. split; auto. reflexivity. Qed.

Lemma in_trans (s s1 s2 : state) : in_le s s1 → in_le s1 s2 → in_le s s2.
Proof.
  intros [T1 R1 C1 L1 K1 I1 N1 E1] [T2 R2 C2 L2 K2 I2 N2 E2].
  split.
  - by rewrite T2.
  - by rewrite R2.
  - by rewrite C2.
  - by rewrite L2.
  - by rewrite K2.
  - by rewrite I2.
  - by etrans.
  - intros i. by rewrite E2, E1.
Qed.

Lemma in_alloc (o : object) (s : state) : in_le s (snd (alloc o s)).
Proof. split; simpl; auto. lia. Qed.

Lemma in_set_prop (t : loc) (k : key) (v : val) (s s' : state)
      (r : outcome unit) :
  set_prop t k v s = (r, s') → in_le s s'.
Proof.
  unfold set_prop. intros H.
  apply bind_inv in H as [(o & s1 & H1 & H)|(e & H1 & _)];
    apply heap_get_inv in H1 as [-> _]; [|apply in_refl].
  unfold modify in H. injection H as _ <-. split; simpl; auto. reflexivity.
Qed.

Lemma in_addRemoteObject (id : string) (obj : loc) (s s' : state)
      (r : outcome unit) :
  addRemoteObject id obj s = (r, s') → in_le s s'.
Proof.
  unfold addRemoteObject. intros H.
  apply bind_inv in H as [(ex & s1 & H1 & H)|(e & H1 & _)];
    apply getRemoteObject_inv in H1 as [-> _]; [|apply in_refl].
  unfold_m. destruct (bool_decide _); injection H as _ <-;
    split; simpl; auto; reflexivity.
Qed.

Lemma in_getLocalObject (id : string) (s s' : state) (r : outcome loc) :
  getLocalObject id s = (r, s') → in_le s s'.
Proof.
  unfold getLocalObject. unfold_m.
  destruct (localIDsToObjects s !! id) as [[l|l]|] eqn:E.
  - intros [= _ <-]. apply in_refl.
  - destruct (is_live l s); simpl; intros [= _ <-]; [|apply in_refl].
    split; simpl; auto; [reflexivity|].
    intros i. destruct (decide (i = id)) as [->|Hne].
    + by rewrite lookup_insert_eq, E.
    + by rewrite lookup_insert_ne.
  - intros [= _ <-]. apply in_refl.
Qed.

Section IncomingFootprint.

Variable rec : wire → M val.

Hypothesis rec_in : ∀ w s r s', rec w s = (r, s') → in_le s s'.

Lemma in_mapM (ws : list wire) (s s' : state) (r : outcome (list val)) :
  mapM rec ws s = (r, s') → in_le s s'.
Proof.
  revert s s' r. induction ws as [|w ws IH]; intros s s' r; simpl.
  - intros [= _ <-]. apply in_refl.
  - intros H.
    apply bind_inv in H as [(v & s1 & H1 & H)|(e & H1 & _)];
      [|by eapply rec_in].
    apply rec_in in H1.
    apply bind_inv in H as [(vs & s2 & H2 & H)|(e & H2 & _)].
    + apply IH in H2. injection H as _ <-. by eapply in_trans.
    + apply IH in H2. by eapply in_trans.
Qed.

Lemma in_assign_fields (t : loc) (fields : list (string * wire))
      (s s' : state) (r : outcome unit) :
  assign_fields rec t fields s = (r, s') → in_le s s'.
Proof.
  revert s r. induction fields as [|[k w] fields IH]; intros s r; simpl.
  - intros [= _ <-]. apply in_refl.
  - intros H.
    apply bind_inv in H as [(v & s1 & H1 & H)|(e & H1 & _)];
      apply rec_in in H1; [|done].
    apply bind_inv in H as [(? & s2 & H2 & H)|(e & H2 & _)];
      apply in_set_prop in H2.
    + apply IH in H. eapply in_trans; [exact H1|]. by eapply in_trans.
    + by eapply in_trans.
Qed.

Lemma in_makeStub (id : string) (cn : option string)
      (props : option (list (string * wire))) (s s' : state) (r : outcome loc) :
  makeStub_with rec id cn props s = (r, s') → in_le s s'.
Proof.
  unfold makeStub_with. intros H.
  apply bind_inv in H as [(proto & s1 & H1 & H)|(e & H1 & _)];
    [|discriminate].
  injection H1 as <- <-.
  destruct (cn ≫= _) as [proto|]; [|injection H as _ <-; apply in_refl].
  apply bind_inv in H as [(stub & s1 & H1 & H)|(e & H1 & _)]; [|discriminate].
  pose proof (in_alloc (Object None [] proto) s) as Hfr1.
  rewrite H1 in Hfr1. simpl in Hfr1.
  apply bind_inv in H as [(? & s2 & H2 & H)|(e & H2 & _)];
    apply in_set_prop in H2;
    pose proof (in_trans _ _ _ Hfr1 H2) as Hfr2; [|done].
  apply bind_inv in H as [(? & s3 & H3 & H)|(e & H3 & _)];
    apply in_addRemoteObject in H3;
    pose proof (in_trans _ _ _ Hfr2 H3) as Hfr3; [|done].
  apply bind_inv in H as [(? & s4 & H4 & H)|(e & H4 & _)];
    apply in_assign_fields in H4;
    pose proof (in_trans _ _ _ Hfr3 H4) as Hfr4; [|done].
  by injection H as _ <-.
Qed.

End IncomingFootprint.

Lemma mapIncomingObjects_in_le (fuel : nat) (w : wire) (s : state)
      (r : outcome val) (s' : state) :
  mapIncomingObjects fuel w s = (r, s') → in_le s s'.
Proof.
  revert w s r s'. induction fuel as [|fuel IH]; intros w s r s'; simpl.
  - intros [= _ <-]. apply in_refl.
  - destruct w as [p|ws|idL cn props idR po].
    + intros [= _ <-]. apply in_refl.
    + intros H. apply bind_inv in H as [(vs & s1 & H1 & H)|(e & H1 & _)].
      * apply (in_mapM _ IH) in H1. by injection H as _ <-.
      * by apply (in_mapM _ IH) in H1.
    + destruct (truthy_str idL) as [id|].
      * intros H. apply bind_inv in H as [(ex & s1 & H1 & H)|(e & H1 & _)];
          apply getRemoteObject_inv in H1 as [-> _]; [|apply in_refl].
        destruct ex as [stub|]; [injection H as _ <-; apply in_refl|].
        destruct (decide (cn = Some "Function")) as [Hfn|Hfn].
        -- apply bind_inv in H as [(stub & s1 & H1 & H)|(e & H1 & _)];
             [|discriminate].
           pose proof (in_alloc
             (Object (Some (RemoteCall id)) [] [Function_prototype; Object_prototype]) s)
             as Hfr1.
           unfold makeCallable in H1. rewrite H1 in Hfr1. simpl in Hfr1.
           apply bind_inv in H as [(? & s2 & H2 & H)|(e & H2 & _)];
             apply in_addRemoteObject in H2.
           ++ injection H as _ <-. by eapply in_trans.
           ++ by eapply in_trans.
        -- apply bind_inv in H as [(stub & s1 & H1 & H)|(e & H1 & _)].
           ++ apply (in_makeStub _ IH) in H1. by injection H as _ <-.
           ++ by apply (in_makeStub _ IH) in H1.
      * destruct (truthy_str idR) as [id|].
        -- intros H. apply bind_inv in H as [(obj & s1 & H1 & H)|(e & H1 & _)];
             apply in_getLocalObject in H1; [|done].
           by injection H as _ <-.
        -- destruct po as [fields|]; [|intros [= _ <-]; apply in_refl].
           intros H.
           apply bind_inv in H as [(fresh & s1 & H1 & H)|(e & H1 & _)];
             [|discriminate].
           pose proof (in_alloc (Object None [] [Object_prototype]) s) as Hfr1.
           rewrite H1 in Hfr1. simpl in Hfr1.
           apply bind_inv in H as [(? & s2 & H2 & H)|(e & H2 & _)];
             apply (in_assign_fields _ IH) in H2.
           ++ injection H as _ <-. by eapply in_trans.
           ++ by eapply in_trans.
Qed.

(** X7.  What the incoming marshaller never does.  However
    [mapIncomingObjects] ends -- with a value or with an exception -- it has
    sent nothing, drawn no random number, assigned no ID to a local object,
    marked no class as described and registered no remote class; a local
    registry entry still names the object it named before (the only change
    to an entry is from weakly to strongly held), and no entry is added or
    removed. *)
Theorem incoming_footprint (fuel : nat) (w : wire) (s : state)
        (r : outcome val) (s' : state) :
  mapIncomingObjects fuel w s = (r, s') →
  trace s' = trace s ∧ rand s' = rand s ∧ collected s' = collected s
  ∧ localClasses s' = localClasses s ∧ remoteClasses s' = remoteClasses s
  ∧ localObjectsToIDs s' = localObjectsToIDs s
  ∧ ∀ i, target <$> (localIDsToObjects s' !! i)
         = target <$> (localIDsToObjects s !! i).
Proof.
  intros H. destruct (mapIncomingObjects_in_le _ _ _ _ _ H).
  repeat split; assumption.
Qed.

Lemma incoming_footprint_witness :
  trace Client.with_car = trace Client.fresh.
Proof.
  refine (proj1 (incoming_footprint 3 Example.car_description Client.fresh
                   (Ok (VRef Client.car_stub)) Client.with_car _)).
  reflexivity.
Defined.

(** ** A stub sent back *)

Lemma incoming_description_unfold (fuel : nat) (s : state) (id : string)
      (cn idR : option string) (props po : option (list (string * wire)))
      (proto : chain) :
  id ≠ "" →
  (∀ l, remoteObjects s !! id = Some l → is_live l s = false) →
  cn ≠ Some "Function" →
  cn ≫= (fun c => remoteClasses s !! c) = Some proto →
  mapIncomingObjects (S fuel) (WObject (Some id) cn props idR po) s
  = (assign_fields (mapIncomingObjects fuel) (next_loc s) (default [] props) ;;;
     ret (VRef (next_loc s))) (stub_registered id proto s).
Proof.
  intros Hid Hnone Hcn Hproto. simpl. rewrite (truthy_str_nonempty _ Hid).
  rewrite (bind_ok _ _ _ _ _ (getRemoteObject_none _ _ Hnone)).
  destruct (decide (cn = Some "Function")); [done|].
  unfold bind at 1.
  rewrite (makeStub_unfold _ _ _ _ _ _ Hnone Hproto). simpl.
  unfold bind. by destruct (assign_fields _ _ _ _) as [[[]|?] ?].
Qed.

Lemma outgoing_stub (fuel : nat) (l : loc) (o : object) (s : state) :
  heap s !! l = Some o → o_call o = None →
  instanceof_RemoteClass (o_proto o) = true →
  mapOutgoingObjects (S fuel) (VRef l) s
  = (Ok (WObject None None None
           (str_of (get_on (o_own o) (o_proto o) (KStr "id"))) None), s).
Proof.
  intros Ho Hc Hi. simpl.
  rewrite (bind_ok _ _ _ _ _ (heap_get_ok _ _ _ Ho)).
  rewrite Hc. rewrite bool_decide_eq_false_2 by (by intros [? ?]).
  by rewrite Hi.
Qed.

(** X8.  A stub sent back.  When a description [{idLocal: id, className,
    properties?}] is received for an ID with no live stub, its class is a
    registered remote class other than ["Function"] whose prototype chain
    reaches [RemoteClass] and has no member named [id], and no property of
    the description is named [id], then the stub that comes out goes back
    over the wire as [{idRemote: id}] and nothing more: no ID is assigned to
    it, no class is described, and the state is left as it is. *)
Theorem stub_sent_back (fuel fuel' : nat) (s : state) (id : string)
        (cn idR : option string) (props po : option (list (string * wire)))
        (proto : chain) (v : val) (s' : state) :
  id ≠ "" →
  (∀ l, remoteObjects s !! id = Some l → is_live l s = false) →
  cn ≠ Some "Function" →
  cn ≫= (fun c => remoteClasses s !! c) = Some proto →
  instanceof_RemoteClass proto = true →
  chain_lookup (KStr "id") proto = None →
  "id" ∉ (default [] props).*1 →
  mapIncomingObjects (S fuel) (WObject (Some id) cn props idR po) s
  = (Ok v, s') →
  v = VRef (next_loc s)
  ∧ mapOutgoingObjects (S fuel') v s'
    = (Ok (WObject None None None (Some id) None), s').
Proof.
  intros Hid Hnone Hcn Hproto Hinst _ Hno.
  rewrite (incoming_description_unfold fuel s id cn idR props po proto
             Hid Hnone Hcn Hproto).
  intros H.
  apply bind_inv in H as [([] & s1 & H1 & H)|(e & _ & ?)]; [|discriminate].
  injection H as <- <-. split; [done|].
  eapply assign_fields_target in H1 as (o' & Ho' & Hc & Hp & Hout & _);
    [|apply (mapIncomingObjects_frame fuel)|simpl; apply lookup_insert_eq
     |simpl; lia].
  simpl in Hc, Hp.
  rewrite (outgoing_stub fuel' _ o' s1 Ho' Hc) by (by rewrite Hp).
  unfold get_on, lookup_prop. rewrite Hout.
  - done.
  - intros Hk. apply list_elem_of_fmap in Hk as (x & [= <-] & Hx). done.
Qed.

Lemma stub_sent_back_witness :
  mapOutgoingObjects 1 (VRef Client.car_stub) Client.with_car
  = (Ok (WObject None None None (Some "42") None), Client.with_car).
Proof.
  refine (proj2 (stub_sent_back 2 0 Client.fresh "42" (Some "Car") None
                   (Some [("wheels", WPrim (PNum 4))]) None
                   Client.Car_stub_chain (VRef Client.car_stub) Client.with_car
                   _ _ _ _ _ _ _ _)).
  - discriminate.
  - intros l Hl. vm_compute in Hl. discriminate.
  - discriminate.
  - reflexivity.
  - reflexivity.
  - reflexivity.
  - intros H. apply list_elem_of_singleton in H. discriminate.
  - reflexivity.
Defined.



(** ** Functions on the wire *)

Lemma outgoing_function (fuel : nat) (l : loc) (o : object) (s : state)
      (r : outcome wire) (s' : state) :
  heap s !! l = Some o → is_Some (o_call o) →
  mapOutgoingObjects (S fuel) (VRef l) s = (r, s') →
  ∀ w, r = Ok w →
    ∃ i, w = WObject (Some i) (Some "Function") None None None
         ∧ i ≠ ""
         ∧ localIDsToObjects s' !! i = Some (Strong l)
         ∧ localObjectsToIDs s' !! l = Some i.
Proof.
  intros Ho Hc. simpl.
  rewrite (bind_ok _ _ _ _ _ (heap_get_ok _ _ _ Ho)).
  rewrite bool_decide_eq_true_2 by done.
  intros H w ->.
  apply bind_inv in H as [(i1 & s1 & H1 & H)|(e & _ & ?)]; [|discriminate].
  apply bind_inv in H as [(i & s2 & H2 & H)|(e & _ & ?)]; [|discriminate].
  injection H as <- <-.
  apply getOrCreateID_spec in H2 as (Hne & Hl & Hi & _).
  by exists i.
Qed.

(** X10.  A remote function is not sent back as a reference.  The callable
    stub made for an incoming [{idLocal: id, className: "Function"}] is
    registered as a remote object under [id]; when it is passed to the
    outgoing marshaller and that succeeds, it goes over the wire as
    [{idLocal: i, className: "Function"}] under an ID [i] of this side's own
    registry, which from then on holds the stub strongly -- never as
    [{idRemote: id}]. *)
Theorem remote_function_reexported (fuel fuel' : nat) (s : state) (id : string)
        (idR : option string) (props po : option (list (string * wire)))
        (v : val) (s1 : state) (w : wire) (s2 : state) :
  id ≠ "" →
  (∀ l, remoteObjects s !! id = Some l → is_live l s = false) →
  mapIncomingObjects (S fuel)
    (WObject (Some id) (Some "Function") props idR po) s = (Ok v, s1) →
  mapOutgoingObjects (S fuel') v s1 = (Ok w, s2) →
  v = VRef (next_loc s)
  ∧ remoteObjects s1 !! id = Some (next_loc s)
  ∧ ∃ i, w = WObject (Some i) (Some "Function") None None None
         ∧ i ≠ ""
         ∧ localIDsToObjects s2 !! i = Some (Strong (next_loc s))
         ∧ localObjectsToIDs s2 !! next_loc s = Some i.
Proof.
  intros Hid Hnone. simpl mapIncomingObjects.
  rewrite (truthy_str_nonempty _ Hid).
  rewrite (bind_ok _ _ _ _ _ (getRemoteObject_none _ _ Hnone)).
  destruct (decide (Some "Function" = Some "Function")); [|done].
  unfold makeCallable. unfold bind at 1. unfold alloc at 1.
  erewrite (bind_ok (addRemoteObject _ _)); cycle 1.
  { apply addRemoteObject_ok. intros l Hl. exact (Hnone l Hl). }
  intros [= <- <-] Hout. split; [done|].
  split; [simpl; apply lookup_insert_eq|].
  eapply outgoing_function; [| |exact Hout|done].
  - simpl. apply lookup_insert_eq.
  - simpl. eauto.
Qed.

Lemma remote_function_reexported_witness :
  localIDsToObjects
    (snd (mapOutgoingObjects 1 (VRef (next_loc (init [5%N])))
            (snd (mapIncomingObjects 1
                    (WObject (Some "9") (Some "Function") None None None)
                    (init [5%N]))))) !! "5"
  = Some (Strong (next_loc (init [5%N]))).
Proof.
  destruct (remote_function_reexported 0 0 (init [5%N]) "9" None None None
              (VRef (next_loc (init [5%N])))
              (snd (mapIncomingObjects 1
                      (WObject (Some "9") (Some "Function") None None None)
                      (init [5%N])))
              (WObject (Some "5") (Some "Function") None None None)
              (snd (mapOutgoingObjects 1 (VRef (next_loc (init [5%N])))
                      (snd (mapIncomingObjects 1
                              (WObject (Some "9") (Some "Function") None None None)
                              (init [5%N]))))))
    as (_ & _ & i & Hw & _ & Hl & _).
  - discriminate.
  - intros l Hl. vm_compute in Hl. discriminate.
  - reflexivity.
  - reflexivity.
  - injection Hw as <-. exact Hl.
Defined.

(** ** A reference sent out and echoed back *)

Lemma reg_refl (s : state) : reg_le s s.
Proof. intros Hok. split; [done|]. by intros i o ? ? ?. Qed.

Lemma reg_trans (s s1 s2 : state) : reg_le s s1 → reg_le s1 s2 → reg_le s s2.
Proof.
  intros H1 H2 Hok. destruct (H1 Hok) as [Hok1 K1].
  destruct (H2 Hok1) as [Hok2 K2]. split; [done|].
  intros i o Hi Ho Hne. destruct (K1 i o Hi Ho Hne) as [Hi1 Ho1].
  by apply K2.
Qed.

Lemma reg_same (s s' : state) :
  localIDsToObjects s' = localIDsToObjects s →
  localObjectsToIDs s' = localObjectsToIDs s → reg_le s s'.
Proof.
  intros Hi Ho Hok. split.
  - intros o i. rewrite Hi, Ho. apply Hok.
  - intros i o. by rewrite Hi, Ho.
Qed.

Lemma reg_export (o : loc) (s : state) (r : outcome string) (s' : state) :
  getOrCreateIDForLocalObject o s = (r, s') → reg_le s s'.
Proof.
  destruct r as [i|e]; cycle 1.
  { unfold getOrCreateIDForLocalObject, generateNewObjID. unfold_m.
    destruct (truthy_str _); [discriminate|].
    destruct (pick_fresh _ _) as [[? ?]|]; [discriminate|].
    intros [= _ <-]. by apply reg_same. }
  intros H Hok.
  pose proof (getOrCreateID_spec _ _ _ _ H) as (Hne & Hreg & Hid & _).
  pose proof (export_unknown_or_known _ _ _ _ H) as (Hi & Ho & Hfresh & Hknown).
  assert (∀ e, localIDsToObjects s !! i = Some e → target e = o) as Hsame.
  { intros e He.
    destruct (truthy_str (localObjectsToIDs s !! o)) as [i0|] eqn:Hk.
    - pose proof (Hknown i0 eq_refl) as <-.
      apply truthy_str_Some in Hk as [Hk _].
      destruct (Hok o i Hk Hne) as (e' & He' & Ht). congruence.
    - rewrite (Hfresh eq_refl) in He. discriminate. }
  split.
  - intros o' j Ho' Hj. destruct (decide (o' = o)) as [->|Hno].
    + assert (j = i) as -> by congruence. by exists (Strong o).
    + rewrite (Ho o' Hno) in Ho'. destruct (Hok o' j Ho' Hj) as (e & He & Ht).
      destruct (decide (j = i)) as [->|Hji].
      * apply Hsame in He. congruence.
      * exists e. by rewrite (Hi j Hji).
  - intros j o' Hj Ho' Hjne. destruct (decide (j = i)) as [->|Hji].
    + apply Hsame in Hj. simpl in Hj. subst o'. by split.
    + rewrite (Hi j Hji). split; [done|].
      destruct (decide (o' = o)) as [->|Hno]; [|by rewrite (Ho o' Hno)].
      destruct (Hok o j Ho' Hjne) as (e & He & Ht).
      assert (truthy_str (localObjectsToIDs s !! o) = Some j) as Hk
          by (by apply truthy_str_Some).
      by pose proof (Hknown j Hk).
Qed.

Lemma reg_class (cn : string) (c : chain) (s : state) (r : outcome unit)
      (s' : state) :
  sendClassDescription cn c s = (r, s') → reg_le s s'.
Proof.
  intros H. apply reg_same; revert cn s r s' H;
    (induction c as [|proto rest IH]; intros cn s r s'; simpl;
     [unfold_m; case_bool_decide; by intros [= _ <-]|]);
    intros H;
    (apply bind_inv in H as [(sent & s0 & H0 & H)|(e & H0 & _)];
       [|discriminate]);
    injection H0 as <- <-;
    (destruct (bool_decide _); [by injection H as _ <-|]);
    (apply bind_inv in H as [([] & s1 & H1 & H)|(e & H1 & _)]; [|discriminate]);
    injection H1 as <-;
    (apply bind_inv in H as [(parent & s2 & H2 & H)|(e & H2 & _)];
       pose proof (getClassName_state _ _ _ _ H2) as ->; [|done]);
    clear H2;
    (apply bind_inv in H as [(ext & s3 & H3 & H)|(e & H3 & _)];
       [unfold bind, gets, callRemote, modify in H; injection H as _ <-; simpl|];
     (destruct (decide (parent = "Object"));
        [by (discriminate || (injection H3 as _ <-))|]);
     (apply bind_inv in H3 as [(? & s4 & H4 & H3)|(e' & H4 & _)];
        [try discriminate; injection H3 as _ <-|]);
     by rewrite (IH _ _ _ _ H4)).
Qed.

Lemma mapOutgoingObjects_reg (fuel : nat) (v : val) (s : state)
      (r : outcome wire) (s' : state) :
  mapOutgoingObjects fuel v s = (r, s') → reg_le s s'.
Proof.
  intros H.
  refine (proj1 (mapOutgoingObjects_scheme reg_le (fun _ _ => True)
                   reg_refl reg_trans reg_export reg_class
                   _ _ _ _ _ _ _ fuel v s r s' H)); auto.
Qed.

Lemma outgoing_head (fuel : nat) (o : loc) (s : state) (i : string)
      (cn : option string) (props po : option (list (string * wire)))
      (idR : option string) (s' : state) :
  registry_ok s →
  mapOutgoingObjects fuel (VRef o) s
  = (Ok (WObject (Some i) cn props idR po), s') →
  i ≠ "" ∧ localIDsToObjects s' !! i = Some (Strong o)
  ∧ localObjectsToIDs s' !! o = Some i ∧ registry_ok s'.
Proof.
  intros Hok. destruct fuel as [|fuel]; [discriminate|]. simpl. intros H.
  apply bind_inv in H as [(ob & s0 & H0 & H)|(e & _ & ?)]; [|discriminate].
  apply heap_get_inv in H0 as [-> _].
  destruct (bool_decide (is_Some (o_call ob))).
  - apply bind_inv in H as [(i1 & s1 & H1 & H)|(e & _ & ?)]; [|discriminate].
    apply bind_inv in H as [(i2 & s2 & H2 & H)|(e & _ & ?)]; [|discriminate].
    injection H as <- <- <- <- <- <-.
    destruct (reg_export _ _ _ _ H1 Hok) as [Hok1 _].
    destruct (reg_export _ _ _ _ H2 Hok1) as [Hok2 _].
    apply getOrCreateID_spec in H2 as (Hne & Hreg & Hid & _). auto.
  - destruct (instanceof_RemoteClass (o_proto ob)); [discriminate|].
    apply bind_inv in H as [(cls & s1 & H1 & H)|(e & _ & ?)]; [|discriminate].
    pose proof (getClassName_state _ _ _ _ H1) as ->. clear H1.
    destruct (decide (cls = "Object")) as [Hobj|Hobj].
    { apply bind_inv in H as [(? & s1 & _ & H)|(e' & _ & ?)]; discriminate. }
    apply bind_inv in H as [(i1 & s1 & H1 & H)|(e & _ & ?)]; [|discriminate].
    destruct (reg_export _ _ _ _ H1 Hok) as [Hok1 _].
    pose proof (getOrCreateID_spec _ _ _ _ H1) as (Hne & Hreg & Hid & _).
    pose proof (createObjectDescription_shape _ _ _ _ _ _ H)
      as (? & ? & ? & _ & _ & [= <- _ _ _ _]).
    assert (reg_le s1 s') as Hle.
    { refine (proj1 (scheme_createObjectDescription reg_le (fun _ _ => True)
                       reg_refl reg_trans reg_class _ _
                       (mapOutgoingObjects fuel) _ o i s s1 _ s' H1 H)).
      all: auto.
      intros v0 s2 r2 s3 H3. split; [|done].
      by eapply mapOutgoingObjects_reg. }
    destruct (Hle Hok1) as [Hok' K].
    destruct (K i o Hreg Hid Hne). auto.
Qed.

(** X11.  A reference survives the round trip between two peers.  Peer [s],
    whose two local tables agree, sends object [o] as a description under ID
    [i] with a class other than ["Function"].  Peer [c] has no live stub for
    [i], knows the class as a remote class reaching [RemoteClass] and having
    no member named [id], and the description has no property named [id].
    Then [c] makes a stub, sends it back as a bare reference without any
    change of its own state, and [s] resolves that reference to [o] itself,
    again without change. *)
Theorem reference_round_trip (fs fc fc' n : nat) (o : loc) (s s1 : state)
        (i : string) (cn : option string)
        (props : option (list (string * wire)))
        (c c1 : state) (proto : chain) (v : val) :
  registry_ok s →
  mapOutgoingObjects fs (VRef o) s
  = (Ok (WObject (Some i) cn props None None), s1) →
  cn ≠ Some "Function" →
  (∀ l, remoteObjects c !! i = Some l → is_live l c = false) →
  cn ≫= (fun x => remoteClasses c !! x) = Some proto →
  instanceof_RemoteClass proto = true →
  chain_lookup (KStr "id") proto = None →
  "id" ∉ (default [] props).*1 →
  mapIncomingObjects (S fc) (WObject (Some i) cn props None None) c
  = (Ok v, c1) →
  ∃ back, mapOutgoingObjects (S fc') v c1 = (Ok back, c1)
          ∧ mapIncomingObjects (S n) back s1 = (Ok (VRef o), s1).
Proof.
  intros Hok Hout Hcn Hnone Hproto Hinst _ Hno Hin.
  destruct (outgoing_head _ _ _ _ _ _ _ _ _ Hok Hout) as (Hne & Hreg & _).
  rewrite (incoming_description_unfold fc c i cn None props None proto
             Hne Hnone Hcn Hproto) in Hin.
  apply bind_inv in Hin as [([] & c2 & H1 & H)|(e & _ & ?)]; [|discriminate].
  injection H as <- <-.
  eapply assign_fields_target in H1 as (o' & Ho' & Hc & Hp & Hkeep & _);
    [|apply (mapIncomingObjects_frame fc)|simpl; apply lookup_insert_eq
     |simpl; lia].
  simpl in Hc, Hp.
  exists (WObject None None None (Some i) None). split.
  - rewrite (outgoing_stub fc' _ o' c2 Ho' Hc) by (by rewrite Hp).
    unfold get_on, lookup_prop. rewrite Hkeep; [done|].
    intros Hk. apply list_elem_of_fmap in Hk as (x & [= <-] & Hx). done.
  - simpl. rewrite (truthy_str_nonempty _ Hne).
    unfold getLocalObject. unfold_m. by rewrite Hreg.
Qed.

Lemma reference_round_trip_witness :
  ∃ back,
    mapOutgoingObjects 1 (VRef Client.car_stub) Client.with_car
    = (Ok back, Client.with_car)
    ∧ mapIncomingObjects 1 back Example.server_sent
      = (Ok (VRef Example.car), Example.server_sent).
Proof.
  refine (reference_round_trip 3 2 0 0 Example.car Example.server
            Example.server_sent "42" (Some "Car")
            (Some [("wheels", WPrim (PNum 4))])
            Client.fresh Client.with_car Client.Car_stub_chain
            (VRef Client.car_stub) _ _ _ _ _ _ _ _ _).
  - intros o i Ho. vm_compute in Ho. discriminate.
  - reflexivity.
  - discriminate.
  - intros l Hl. vm_compute in Hl. discriminate.
  - reflexivity.
  - reflexivity.
  - reflexivity.
  - intros H. apply list_elem_of_singleton in H. discriminate.
  - reflexivity.
Defined.

(** ** The two local tables stay in agreement *)

Lemma registry_ok_in_le (s s' : state) : in_le s s' → registry_ok s → registry_ok s'.
Proof.
  intros Hle Hok o i Ho Hi. rewrite (il_ids _ _ Hle) in Ho.
  destruct (Hok o i Ho Hi) as (e & He & Ht).
  pose proof (il_entries _ _ Hle i) as Hent. rewrite He in Hent.
  destruct (localIDsToObjects s' !! i) as [e'|]; [|discriminate].
  exists e'. split; [done|]. simpl in Hent. congruence.
Qed.

(** X12.  The two local tables stay in agreement.  In a new protocol
    instance every object that has an ID is the object the registry holds
    under that ID, and this is kept -- whatever the outcome -- by the outgoing
    marshaller, by the incoming marshaller, and by the handler of [del]. *)
Theorem tables_agree (s : state) :
  registry_ok s →
  (∀ fuel v r s', mapOutgoingObjects fuel v s = (r, s') → registry_ok s')
  ∧ (∀ fuel w r s', mapIncomingObjects fuel w s = (r, s') → registry_ok s')
  ∧ (∀ id r s', deleteLocalObject id s = (r, s') → registry_ok s').
Proof.
  intros Hok. split; [|split].
  - intros fuel v r s' H. by destruct (mapOutgoingObjects_reg _ _ _ _ _ H Hok).
  - intros fuel w r s' H. eapply registry_ok_in_le; [|exact Hok].
    by eapply mapIncomingObjects_in_le.
  - intros id r s'. unfold deleteLocalObject. unfold_m.
    destruct (localIDsToObjects s !! id) as [[l|l]|] eqn:E;
      intros [= _ <-]; [|done|done].
    intros o i Ho Hi. simpl in Ho. destruct (Hok o i Ho Hi) as (e & He & Ht).
    simpl. destruct (decide (i = id)) as [->|Hne].
    + rewrite lookup_insert_eq. exists (Weak l). split; [done|].
      rewrite E in He. injection He as <-. exact Ht.
    + rewrite lookup_insert_ne by done. by exists e.
Qed.

Lemma tables_agree_witness : registry_ok Example.server_sent.
Proof.
  refine (proj1 (tables_agree Example.server _) 3 (VRef Example.car)
            (Ok Example.car_description) Example.server_sent _).
  - intros o i Ho. vm_compute in Ho. discriminate.
  - reflexivity.
Defined.

(** ** The class mirror on the receiving side *)

Lemma register_one_spec (d : class_descr) (reg : gmap string (list Mirror.proto))
      (e : option Mirror.merror) (reg' : gmap string (list Mirror.proto)) :
  Mirror.registerRemoteClass d reg = (e, reg') →
  (∀ n c, reg !! n = Some c → reg' !! n = Some c)
  ∧ (e = None → is_Some (reg' !! cd_className d))
  ∧ (∀ p, e = Some (Mirror.SuperUnknown p) →
          truthy_str (cd_extends d) = Some p ∧ reg !! p = None)
  ∧ (e ≠ None → reg' = reg)
  ∧ (∀ n c, reg' !! n = Some c → reg !! n = None →
            n = cd_className d
            ∧ ∃ own parents,
                c = own :: parents
                ∧ Mirror.build parents d = Some own
                ∧ match truthy_str (cd_extends d) with
                  | Some p => reg !! p = Some parents
                  | None => parents = []
                  end).
Proof.
  unfold Mirror.registerRemoteClass.
  destruct (reg !! cd_className d) as [c0|] eqn:Hknown.
  { intros [= <- <-]. repeat split; eauto; try congruence; try discriminate. }
  assert (∀ parents,
            match truthy_str (cd_extends d) with
            | Some p => reg !! p = Some parents
            | None => parents = []
            end →
            match Mirror.build parents d with
            | Some own => (None, <[cd_className d := own :: parents]> reg)
            | None => (Some Mirror.TypeError, reg)
            end = (e, reg') →
            (∀ n c, reg !! n = Some c → reg' !! n = Some c)
            ∧ (e = None → is_Some (reg' !! cd_className d))
            ∧ (∀ p, e = Some (Mirror.SuperUnknown p) →
                    truthy_str (cd_extends d) = Some p ∧ reg !! p = None)
            ∧ (e ≠ None → reg' = reg)
            ∧ (∀ n c, reg' !! n = Some c → reg !! n = None →
                      n = cd_className d
                      ∧ ∃ own parents,
                          c = own :: parents
                          ∧ Mirror.build parents d = Some own
                          ∧ match truthy_str (cd_extends d) with
                            | Some p => reg !! p = Some parents
                            | None => parents = []
                            end)) as Hbuild.
  { intros parents Hpar. destruct (Mirror.build parents d) as [own|] eqn:Hb.
    - intros [= <- <-]. split; [|split; [|split; [|split]]].
      + intros n c Hn. rewrite lookup_insert_ne; [done|]. congruence.
      + intros _. rewrite lookup_insert_eq. eauto.
      + discriminate.
      + done.
      + intros n c Hn Hno. destruct (decide (n = cd_className d)) as [->|Hne].
        * split; [done|]. rewrite lookup_insert_eq in Hn. injection Hn as <-.
          eauto.
        * rewrite lookup_insert_ne in Hn by done. congruence.
    - intros [= <- <-]. split; [|split; [|split; [|split]]];
        try done; congruence. }
  destruct (truthy_str (cd_extends d)) as [p|] eqn:Hext.
  - destruct (reg !! p) as [c|] eqn:Hp.
    + by apply Hbuild.
    + intros [= <- <-]. split; [|split; [|split; [|split]]];
        try done; try congruence.
      intros ? [= <-]. done.
  - by apply Hbuild.
Qed.

Lemma register_all_spec (ds : list class_descr) (reg : gmap string (list Mirror.proto))
      (e : option Mirror.merror) (reg' : gmap string (list Mirror.proto)) :
  Mirror.registerRemoteClasses ds reg = (e, reg') →
  (∀ n c, reg !! n = Some c → reg' !! n = Some c)
  ∧ (e = None → ∀ d, d ∈ ds → is_Some (reg' !! cd_className d))
  ∧ (∀ p, e = Some (Mirror.SuperUnknown p) →
          ∃ d, d ∈ ds ∧ truthy_str (cd_extends d) = Some p ∧ reg !! p = None).
Proof.
  revert reg. induction ds as [|d ds IH]; intros reg; simpl.
  - intros [= <- <-]. repeat split; try done.
    intros _ d Hd. by apply elem_of_nil in Hd.
  - destruct (Mirror.registerRemoteClass d reg) as [[e1|] reg1] eqn:H1;
      apply register_one_spec in H1 as (G1 & R1 & U1 & _).
    + intros [= <- <-]. repeat split; try done.
      intros p Hp. destruct (U1 p Hp). exists d. split; [left|done].
    + intros H. apply IH in H as (G2 & R2 & U2). repeat split.
      * intros n c Hn. by apply G2, G1.
      * intros He d' Hd'. apply elem_of_cons in Hd' as [->|Hd'].
        -- destruct (R1 eq_refl) as [c Hc]. exists c. by apply G2.
        -- by apply R2.
      * intros p Hp. destruct (U2 p Hp) as (d' & Hd' & Hext & Hnone).
        exists d'. split; [by right|]. split; [done|].
        destruct (reg !! p) as [c|] eqn:Hc; [|done].
        apply G1 in Hc. congruence.
Qed.

Lemma described_snoc_inv (pre : list frame) (f : frame) (c : string) :
  described (pre ++ [f]) c →
  described pre c ∨ ∃ ds d, f = FClass ds ∧ d ∈ ds ∧ cd_className d = c.
Proof.
  intros (ds & d & Hin & Hd & Hc). apply elem_of_app in Hin as [Hin|Hin].
  - left. by exists ds, d.
  - apply list_elem_of_singleton in Hin. right. by exists ds, d.
Qed.

Lemma replay_parents_first (tr : list frame) :
  ∀ (pre : list frame) (reg : gmap string (list Mirror.proto))
    (es : list (option Mirror.merror)) (reg' : gmap string (list Mirror.proto)),
    (∀ c, described pre c → is_Some (reg !! c)) →
    parents_first (pre ++ tr) →
    Mirror.replay tr reg = (es, reg') →
    Forall (fun e => e ≠ Some Mirror.TypeError) es →
    Forall (fun e => e = None) es
    ∧ (∀ n c, reg !! n = Some c → reg' !! n = Some c)
    ∧ ∀ c, described (pre ++ tr) c → is_Some (reg' !! c).
Proof.
  induction tr as [|f tr IH]; intros pre reg es reg' Hpre Hpf; simpl.
  - intros [= <- <-] _. rewrite app_nil_r. by repeat split.
  - destruct f as [ds|id].
    + destruct (Mirror.registerRemoteClasses ds reg) as [e reg1] eqn:H1.
      destruct (Mirror.replay tr reg1) as [es1 reg2] eqn:H2.
      intros [= <- <-] Hte. apply Forall_cons in Hte as [He Hes].
      apply register_all_spec in H1 as (G1 & R1 & U1).
      assert (e = None) as ->.
      { destruct e as [[p|]|]; [|done|done]. exfalso.
        destruct (U1 p eq_refl) as (d & Hd & Hext & Hnone).
        apply truthy_str_Some in Hext as [Hext _].
        destruct (Hpre p (Hpf pre ds tr d p eq_refl Hd Hext)) as [c Hc].
        congruence. }
      rewrite (cons_middle (FClass ds)), app_assoc in Hpf |- *.
      eapply IH in H2 as (A & G2 & D); [| |exact Hpf|exact Hes].
      * repeat split; [by constructor| |exact D].
        intros n c Hn. by apply G2, G1.
      * intros c Hc. apply described_snoc_inv in Hc as [Hc|(ds' & d & [= <-] & Hd & <-)].
        -- destruct (Hpre c Hc) as [x Hx]. exists x. by apply G1.
        -- by apply R1.
    + intros H Hte.
      rewrite (cons_middle (FDel id)), app_assoc in Hpf |- *.
      eapply IH in H as (A & G & D); [| |exact Hpf|exact Hte]; [done|].
      intros c Hc. apply described_snoc_inv in Hc as [Hc|(ds' & d & [=] & _)].
      by apply Hpre.
Qed.



Lemma register_all_new (ds : list class_descr) :
  ∀ (reg : gmap string (list Mirror.proto)) (e : option Mirror.merror)
    (reg' : gmap string (list Mirror.proto)),
    Mirror.registerRemoteClasses ds reg = (e, reg') →
    ∀ n c, reg' !! n = Some c → reg !! n = None →
      ∃ d own parents,
        d ∈ ds ∧ cd_className d = n ∧ c = own :: parents
        ∧ Mirror.inherited (Mirror.Name "newRemote") c
          = Some (Mirror.SData (Mirror.SFn (Mirror.MakeNewObj n)))
        ∧ match truthy_str (cd_extends d) with
          | Some p => reg' !! p = Some parents
          | None => parents = []
          end.
Proof.
  induction ds as [|d ds IH]; intros reg e reg'; simpl.
  - intros [= <- <-] n c Hn Hno. congruence.
  - destruct (Mirror.registerRemoteClass d reg) as [[e1|] reg1] eqn:H1;
      pose proof (register_one_spec _ _ _ _ H1) as (G1 & _ & _ & E1 & N1).
    + intros [= <- <-] n c Hn Hno. rewrite E1 in Hn by done. congruence.
    + intros H n c Hn Hno.
      pose proof (register_all_spec _ _ _ _ H) as (G2 & _).
      destruct (reg1 !! n) as [c1|] eqn:Hc1.
      * pose proof (G2 _ _ Hc1) as Hc. rewrite Hn in Hc. injection Hc as ->.
        destruct (N1 n c1 Hc1 Hno) as (-> & own & parents & -> & Hb & Hp).
        exists d, own, parents. split; [left|]. split; [done|].
        split; [done|]. split.
        -- unfold Mirror.build in Hb.
           destruct (match parents with [] => _ | _ => _ end) as [o0|];
             [|discriminate]. simpl in Hb.
           destruct (match truthy_str (cd_iterator d) with
                     | Some _ => _ | None => _ end) as [o1|];
             [|discriminate]. simpl in Hb.
           destruct (Mirror.add_functions _ _ _) as [o2|]; [|discriminate].
           simpl in Hb.
           destruct (Mirror.add_getters _ _ _) as [o3|]; [|discriminate].
           simpl in Hb. unfold Mirror.assign in Hb.
           destruct (Mirror.inherited _ _) as [[?|? ?]|]; try discriminate;
             injection Hb as <-; simpl; by rewrite assoc_get_set_eq.
        -- destruct (truthy_str (cd_extends d)); [by apply G2, G1|done].
      * destruct (IH _ _ _ H n c Hn Hc1) as (d' & own & parents & Hd' & Hrest).
        exists d', own, parents. split; [by right|done].
Qed.

(** X14.  A registered stub class is final.  Whatever an array of class
    descriptions says and however handling it ends, every class that was
    registered keeps its stub prototype; on success every class described
    is registered; and every class that has become registered was described
    in the array, has a stub prototype that inherits from the stub prototype
    registered for the parent it names (or directly from [RemoteClass] when
    it names none), and has [newRemote] bound to the constructor call for
    that class, even if the description lists a member of that name. *)
Theorem stub_class_final (ds : list class_descr)
        (reg : gmap string (list Mirror.proto)) (e : option Mirror.merror)
        (reg' : gmap string (list Mirror.proto)) :
  Mirror.registerRemoteClasses ds reg = (e, reg') →
  (∀ n c, reg !! n = Some c → reg' !! n = Some c)
  ∧ (e = None → ∀ d, d ∈ ds → is_Some (reg' !! cd_className d))
  ∧ (∀ n c, reg' !! n = Some c → reg !! n = None →
       ∃ d own parents,
         d ∈ ds ∧ cd_className d = n ∧ c = own :: parents
         ∧ Mirror.inherited (Mirror.Name "newRemote") c
           = Some (Mirror.SData (Mirror.SFn (Mirror.MakeNewObj n)))
         ∧ match truthy_str (cd_extends d) with
           | Some p => reg' !! p = Some parents
           | None => parents = []
           end).
Proof.
  intros H. pose proof (register_all_spec _ _ _ _ H) as (G & R & _).
  split; [done|]. split; [done|]. by eapply register_all_new.
Qed.

Lemma stub_class_final_witness :
  is_Some
    ((Mirror.registerRemoteClasses
        [ClassDescr "Movable" None None [] [] [];
         ClassDescr "Car" (Some "Movable") None ["startEngine"] [("owner", true)] []]
        ∅).2 !! "Car").
Proof.
  refine (proj1 (proj2 (stub_class_final
            [ClassDescr "Movable" None None [] [] [];
             ClassDescr "Car" (Some "Movable") None ["startEngine"]
                        [("owner", true)] []]
            ∅ None _ _)) eq_refl
            (ClassDescr "Car" (Some "Movable") None ["startEngine"]
                        [("owner", true)] []) _).
  - vm_compute. reflexivity.
  - right. left.
Defined.

Lemma add_functions_blocked (parents : list Mirror.proto) (f : string)
      (g : Mirror.stubfn) (cfg : bool) (fs : list string) :
  Mirror.inherited (Mirror.Name f) parents = Some (Mirror.SGet g cfg) →
  f ∈ fs →
  ∀ own, assoc_get (Mirror.Name f) own = None →
         Mirror.add_functions parents fs own = None.
Proof.
  intros Hinh. induction fs as [|name fs IH]; intros Hf own Hown.
  - by apply elem_of_nil in Hf.
  - simpl. unfold Mirror.assign at 1. simpl.
    destruct (decide (name = f)) as [->|Hne].
    + by rewrite Hown, Hinh.
    + apply elem_of_cons in Hf as [->|Hf]; [done|].
      destruct (match assoc_get (Mirror.Name name) own with
                | Some d => Some d
                | None => Mirror.inherited (Mirror.Name name) parents
                end) as [[?|? ?]|]; simpl; try done;
        (apply IH; [done|]); rewrite assoc_get_set_ne; auto; congruence.
Qed.

Lemma assign_keeps_none (k : Mirror.mkey) (v : Mirror.sval)
      (parents : list Mirror.proto) (own own' : Mirror.proto) (f : string) :
  Mirror.assign k v parents own = Some own' → k ≠ Mirror.Name f →
  assoc_get (Mirror.Name f) own = None →
  assoc_get (Mirror.Name f) own' = None.
Proof.
  unfold Mirror.assign. intros H Hk Hown.
  destruct (Mirror.inherited k (own :: parents)) as [[?|? ?]|];
    try discriminate; injection H as <-; rewrite assoc_get_set_ne; auto.
Qed.

(** X15.  A method cannot override an inherited getter.  If a class that is
    not yet registered names a registered parent, and one of its functions
    has the name of a getter that the parent's stub prototype has or
    inherits, then registering the class throws a [TypeError] -- the
    assignment of the function stub meets an accessor without setter -- and
    the class is not registered. *)
Theorem method_over_inherited_getter (d : class_descr)
        (reg : gmap string (list Mirror.proto)) (p f : string)
        (parents : list Mirror.proto) (g : Mirror.stubfn) (cfg : bool) :
  reg !! cd_className d = None →
  truthy_str (cd_extends d) = Some p →
  reg !! p = Some parents →
  f ∈ cd_functions d →
  Mirror.inherited (Mirror.Name f) parents = Some (Mirror.SGet g cfg) →
  Mirror.registerRemoteClass d reg = (Some Mirror.TypeError, reg).
Proof.
  intros Hnew Hext Hp Hf Hinh. unfold Mirror.registerRemoteClass.
  rewrite Hnew, Hext, Hp.
  assert (Mirror.build parents d = None) as ->; [|done].
  unfold Mirror.build.
  destruct (match parents with
            | [] => _
            | _ => Mirror.assign _ _ parents []
            end) as [own0|] eqn:H0; simpl; [|done].
  assert (assoc_get (Mirror.Name f) own0 = None) as N0.
  { destruct parents as [|p0 rest]; [discriminate|].
    eapply assign_keeps_none; [exact H0| |done].
    intros [= <-]. unfold Mirror.assign in H0.
    change (Mirror.inherited (Mirror.Name "className") ([] :: p0 :: rest))
      with (Mirror.inherited (Mirror.Name "className") (p0 :: rest)) in H0.
    by rewrite Hinh in H0. }
  destruct (match truthy_str (cd_iterator d) with
            | Some _ => _
            | None => _
            end) as [own1|] eqn:H1; simpl; [|done].
  assert (assoc_get (Mirror.Name f) own1 = None) as N1.
  { destruct (truthy_str (cd_iterator d)); [|congruence].
    eapply assign_keeps_none; [exact H1|done|done]. }
  by rewrite (add_functions_blocked _ f g cfg _ Hinh Hf own1 N1).
Qed.

Lemma method_over_inherited_getter_witness :
  Mirror.registerRemoteClass
    (ClassDescr "Car" (Some "Movable") None ["speed"] [] [])
    (Mirror.registerRemoteClasses
       [ClassDescr "Movable" None None [] [("speed", false)] []] ∅).2
  = (Some Mirror.TypeError,
     (Mirror.registerRemoteClasses
        [ClassDescr "Movable" None None [] [("speed", false)] []] ∅).2).
Proof.
  refine (method_over_inherited_getter
            (ClassDescr "Car" (Some "Movable") None ["speed"] [] [])
            _ "Movable" "speed" _ (Mirror.MakeGetter "speed") false _ _ _ _ _).
  - reflexivity.
  - reflexivity.
  - vm_compute. reflexivity.
  - left.
  - reflexivity.
Defined.

(** ** Reading a property of a released object *)

(** X16.  A release is undone by the next access.  If an ID is strongly held
    and the peer releases it with [del], a following [get] on that ID, while
    the object is alive, replies and leaves the state exactly as the [get]
    alone would have: the entry is strong again.  If the host has collected
    the object in between, the [get] throws [UnknownLocal] and sends
    nothing. *)
Theorem get_after_release (fuel : nat) (name i : string) (l : loc) (s : state) :
  localIDsToObjects s !! i = Some (Strong l) →
  (is_live l s = true →
   (deleteLocalObject i ;;; getterListener fuel name i) s
   = getterListener fuel name i s)
  ∧ (is_live l s = false →
     ∃ s', (deleteLocalObject i ;;; getterListener fuel name i) s
           = (Throw (UnknownLocal i), s')
           ∧ trace s' = trace s).
Proof.
  intros Hreg.
  assert (deleteLocalObject i s
          = (Ok tt, set_localIDsToObjects (<[i := Weak l]> (localIDsToObjects s)) s))
    as Hdel.
  { unfold deleteLocalObject. unfold_m. by rewrite Hreg. }
  split; intros Hlive.
  - rewrite (bind_ok _ _ _ _ _ Hdel). unfold getterListener.
    assert (getLocalObject i
              (set_localIDsToObjects (<[i := Weak l]> (localIDsToObjects s)) s)
            = (Ok l, s)) as H1.
    { unfold getLocalObject. unfold_m. simpl. rewrite lookup_insert_eq.
      unfold is_live in *. simpl. rewrite Hlive. simpl.
      rewrite insert_insert_eq, (insert_id _ _ _ Hreg). by destruct s. }
    assert (getLocalObject i s = (Ok l, s)) as H2.
    { unfold getLocalObject. unfold_m. by rewrite Hreg. }
    by rewrite (bind_ok _ _ _ _ _ H1), (bind_ok _ _ _ _ _ H2).
  - rewrite (bind_ok _ _ _ _ _ Hdel). unfold getterListener.
    eexists. split.
    + unfold bind at 1. unfold getLocalObject. unfold_m. simpl.
      rewrite lookup_insert_eq. unfold is_live in *. simpl. rewrite Hlive.
      simpl. reflexivity.
    + reflexivity.
Qed.

Lemma get_after_release_witness :
  (deleteLocalObject "42" ;;; getterListener 2 "wheels" "42") Example.server_sent
  = (Ok (WPrim (PNum 4)), Example.server_sent).
Proof.
  rewrite (proj1 (get_after_release 2 "wheels" "42" Example.car
                    Example.server_sent eq_refl) eq_refl).
  reflexivity.
Defined.

(** ** The earlier revision's registry *)

Lemma legacy_id_range (d : N) : (d < 10)%N → Legacy.generateObjID d ∈ Legacy.ids.
Proof.
  intros Hd.
  assert (d = 0 ∨ d = 1 ∨ d = 2 ∨ d = 3 ∨ d = 4 ∨ d = 5 ∨ d = 6 ∨ d = 7
          ∨ d = 8 ∨ d = 9)%N as Hc by lia.
  unfold Legacy.ids.
  repeat (destruct Hc as [->|Hc]; [vm_compute; set_solver|]).
  subst d. vm_compute. set_solver.
Qed.

(** X17.  The earlier revision has ten IDs.  Because [10^20] is an XOR, every
    ID that [generateObjID] returns is one of ten numerals, so every ID
    that [getNewIDForLocalObject] hands out is one of them; and once all ten
    are in use no sequence of draws, however long, ends the loop: no
    further object can be exported. *)
Theorem legacy_ten_ids (obj : loc) (s : Legacy.state) :
  Forall (fun d => (d < 10)%N) (Legacy.rand s) →
  (∀ id s', Legacy.getNewIDForLocalObject obj s = (Legacy.Ok id, s') →
            id ∈ Legacy.ids ∧ Legacy.gLocalIDsToObjects s !! id = None
            ∧ Legacy.getLocalObject id s' = Legacy.Ok obj)
  ∧ ((∀ id, id ∈ Legacy.ids → is_Some (Legacy.gLocalIDsToObjects s !! id)) →
     (Legacy.getNewIDForLocalObject obj s).1 = Legacy.Throw Legacy.NoFreshID).
Proof.
  intros Hr. unfold Legacy.getNewIDForLocalObject. split.
  - intros id s'.
    destruct (Legacy.draw _ _) as [[i r']|] eqn:Hd; [|discriminate].
    intros [= <- <-]. unfold Legacy.getLocalObject. simpl.
    rewrite lookup_insert_eq.
    revert Hr Hd. generalize (Legacy.rand s). intros r.
    induction r as [|d r IH]; simpl; [discriminate|]. intros Hr.
    apply Forall_cons in Hr as [Hd Hr]. case_bool_decide as Hin.
    + by apply IH.
    + intros [= <- <-]. split; [by apply legacy_id_range|]. split; [|done].
      destruct (Legacy.gLocalIDsToObjects s !! Legacy.generateObjID d) eqn:E;
        [|done]. exfalso. apply Hin. eauto.
  - intros Hfull.
    assert (Legacy.draw (Legacy.gLocalIDsToObjects s) (Legacy.rand s) = None)
      as ->; [|done].
    revert Hr. generalize (Legacy.rand s). intros r.
    induction r as [|d r IH]; simpl; [done|]. intros Hr.
    apply Forall_cons in Hr as [Hd Hr].
    rewrite bool_decide_eq_true_2; [by apply IH|].
    by apply Hfull, legacy_id_range.
Qed.

Lemma legacy_ten_ids_witness :
  (Legacy.getNewIDForLocalObject 11%positive
     (Legacy.State (list_to_map (map (fun i => (i, 5%positive)) Legacy.ids)) ∅
        [3%N; 9%N; 0%N; 4%N])).1
  = Legacy.Throw Legacy.NoFreshID.
Proof.
  refine (proj2 (legacy_ten_ids 11%positive _ _) _).
  - simpl. repeat constructor.
  - intros id Hid. simpl.
    unfold Legacy.ids in Hid.
    repeat (apply elem_of_cons in Hid as [->|Hid]; [vm_compute; eauto|]).
    by apply elem_of_nil in Hid.
Defined.

(** X18.  In the earlier revision a release forgets the object.  With the
    two local maps inverse to each other, [deleteLocalObject] on a
    registered ID removes the entry from both maps: the ID is unknown
    afterwards, the object has no ID any more, every other entry stays, and
    the maps are still inverse to each other. *)
Theorem legacy_release_forgets (i : string) (o : loc) (s : Legacy.state) :
  Legacy.consistent s →
  Legacy.gLocalIDsToObjects s !! i = Some o →
  ∃ s', Legacy.deleteLocalObject i s = (Legacy.Ok tt, s')
    ∧ Legacy.getLocalObject i s' = Legacy.Throw (Legacy.UnknownLocal i)
    ∧ Legacy.getExistingIDForLocalObject o s' = None
    ∧ (∀ j, j ≠ i → Legacy.gLocalIDsToObjects s' !! j
                    = Legacy.gLocalIDsToObjects s !! j)
    ∧ (∀ o', o' ≠ o → Legacy.gLocalObjectsToIDs s' !! o'
                      = Legacy.gLocalObjectsToIDs s !! o')
    ∧ Legacy.consistent s'.
Proof.
  intros Hc Hreg. unfold Legacy.deleteLocalObject. rewrite Hreg.
  eexists. split; [reflexivity|].
  unfold Legacy.getLocalObject, Legacy.getExistingIDForLocalObject. simpl.
  rewrite !lookup_delete_eq. split; [done|]. split; [done|].
  split; [intros j Hj; by rewrite lookup_delete_ne|].
  split; [intros o' Ho'; by rewrite lookup_delete_ne|].
  intros j o'. simpl. destruct (decide (j = i)) as [->|Hj].
  - rewrite lookup_delete_eq. split; [discriminate|].
    destruct (decide (o' = o)) as [->|Ho']; [by rewrite lookup_delete_eq|].
    rewrite lookup_delete_ne by done. intros H. apply Hc in H. congruence.
  - rewrite lookup_delete_ne by done.
    destruct (decide (o' = o)) as [->|Ho'].
    + rewrite lookup_delete_eq. split; [|discriminate].
      intros H. apply Hc in H. apply Hc in Hreg. congruence.
    + rewrite lookup_delete_ne by done. apply Hc.
Qed.

Lemma legacy_release_forgets_witness :
  ∃ s', Legacy.deleteLocalObject "21"
          (Legacy.State {["21" := 7%positive]} {[7%positive := "21"]} [])
        = (Legacy.Ok tt, s')
        ∧ Legacy.getLocalObject "21" s' = Legacy.Throw (Legacy.UnknownLocal "21").
Proof.
  destruct (legacy_release_forgets "21" 7%positive
              (Legacy.State {["21" := 7%positive]} {[7%positive := "21"]} []))
    as (s' & Hd & Hg & _).
  - intros i o. simpl. rewrite !lookup_singleton_Some.
    split; intros [<- <-]; by split.
  - reflexivity.
  - exists s'. by split.
Defined.

(** ** The ways a marshaller can fail *)

Lemma err_getClassName (c : chain) (s s' : state) (e : error) :
  getClassName c s = (Throw e, s') → out_error e.
Proof.
  unfold getClassName. destruct c as [|proto rest]; [discriminate|].
  destruct (name_of _); [discriminate|].
  destruct (get_on _ _ (KStr "constructor")) as [[]| |l];
    try discriminate; try (by intros [= <- _]).
  intros H. apply bind_inv in H as [(o & s1 & H1 & H2)|(e' & H1 & [= ->])];
    [discriminate|].
  apply heap_get_inv in H1 as [_ [(? & _ & ?)|[_ [= ->]]]]; [discriminate|done].
Qed.

Lemma err_export (o : loc) (s s' : state) (e : error) :
  getOrCreateIDForLocalObject o s = (Throw e, s') → out_error e.
Proof.
  unfold getOrCreateIDForLocalObject, generateNewObjID. unfold_m.
  destruct (truthy_str _); [discriminate|].
  destruct (pick_fresh _ _) as [[? ?]|]; [discriminate|]. by intros [= <- _].
Qed.

Lemma err_class (cn : string) (c : chain) (s s' : state) (e : error) :
  sendClassDescription cn c s = (Throw e, s') → out_error e.
Proof.
  revert cn s s'. induction c as [|proto rest IH]; intros cn s s'; simpl.
  - unfold_m. case_bool_decide; [discriminate|]. by intros [= <- _].
  - intros H. apply bind_inv in H as [(sent & s0 & H0 & H)|(e' & H0 & _)];
      [|discriminate].
    injection H0 as <- <-.
    destruct (bool_decide _); [discriminate|].
    apply bind_inv in H as [([] & s1 & H1 & H)|(e' & H1 & _)]; [|discriminate].
    clear H1.
    apply bind_inv in H as [(parent & s2 & H2 & H)|(e' & H2 & [= ->])];
      [|by eapply err_getClassName].
    apply bind_inv in H as [(ext & s3 & H3 & H)|(e' & H3 & [= ->])];
      [discriminate|].
    destruct (decide (parent = "Object")); [discriminate|].
    apply bind_inv in H3 as [(? & s4 & H4 & H3)|(e'' & H4 & [= ->])];
      [discriminate|]. by eapply IH.
Qed.

Section OutgoingErrors.

Variable rec : val → M wire.

Hypothesis rec_err : ∀ v s e s', rec v s = (Throw e, s') → out_error e.

Lemma err_mapM (xs : list val) (s s' : state) (e : error) :
  mapM rec xs s = (Throw e, s') → out_error e.
Proof.
  revert s. induction xs as [|x xs IH]; intros s; simpl; [discriminate|].
  intros H. apply bind_inv in H as [(w & s1 & H1 & H)|(e' & H1 & [= ->])];
    [|by eapply rec_err].
  apply bind_inv in H as [(ws & s2 & H2 & H)|(e' & H2 & [= ->])];
    [discriminate|by eapply IH].
Qed.

Lemma err_plain_fields (own : list (key * pdesc)) (c : chain)
      (names : list string) :
  ∀ (acc : list (string * wire)) (s s' : state) (e : error),
    plain_fields rec own c names acc s = (Throw e, s') → out_error e.
Proof.
  induction names as [|n names IH]; intros acc s s' e; simpl; [discriminate|].
  intros H. apply bind_inv in H as [(w & s1 & H1 & H)|(e' & H1 & [= ->])];
    [by eapply IH|by eapply rec_err].
Qed.

Lemma err_describe_props (own : list (key * pdesc)) :
  ∀ (props : option (list (string * wire))) (s s' : state) (e : error),
    describe_props rec own props s = (Throw e, s') → out_error e.
Proof.
  induction own as [|[k d] own IH]; intros props s s' e; simpl; [discriminate|].
  destruct k as [n| |]; try apply IH.
  destruct (starts_underscore n); [apply IH|].
  intros H. apply bind_inv in H as [(h & s1 & H1 & H)|(e' & H1 & _)];
    [|discriminate].
  injection H1 as <- <-.
  destruct (match d with Data _ v => _ | Accessor _ get _ => _ end);
    [by eapply IH|].
  apply bind_inv in H as [(w & s1 & H1 & H)|(e' & H1 & [= ->])];
    [by eapply IH|by eapply rec_err].
Qed.

Lemma err_createObjectDescription (obj : loc) (id : string) (s s' : state)
      (e : error) :
  createObjectDescription_with rec obj id s = (Throw e, s') → out_error e.
Proof.
  unfold createObjectDescription_with. intros H.
  apply bind_inv in H as [(o & s1 & H1 & H)|(e' & H1 & [= ->])]; cycle 1.
  { apply heap_get_inv in H1 as [_ [(? & _ & ?)|[_ [= ->]]]];
      [discriminate|done]. }
  apply bind_inv in H as [(cn & s2 & H2 & H)|(e' & H2 & [= ->])];
    [|by eapply err_getClassName].
  apply getClassName_nonempty in H2 as Hne.
  rewrite bool_decide_eq_false_2 in H by done. simpl in H.
  apply bind_inv in H as [([] & s3 & H3 & H)|(e' & H3 & _)]; [|discriminate].
  apply bind_inv in H as [(sent & s4 & H4 & H)|(e' & H4 & _)]; [|discriminate].
  apply bind_inv in H as [([] & s5 & H5 & H)|(e' & H5 & [= ->])]; cycle 1.
  { destruct sent; [discriminate|]. by eapply err_class. }
  apply bind_inv in H as [(props & s6 & H6 & H)|(e' & H6 & [= ->])];
    [discriminate|by eapply err_describe_props].
Qed.

End OutgoingErrors.

Lemma mapOutgoingObjects_err (fuel : nat) (v : val) (s : state) (e : error)
      (s' : state) :
  mapOutgoingObjects fuel v s = (Throw e, s') → out_error e.
Proof.
  revert v s e s'. induction fuel as [|fuel IH]; intros v s e s'; simpl.
  - by intros [= <- _].
  - destruct v as [p|xs|obj]; [discriminate| |].
    + intros H. apply bind_inv in H as [(ws & s1 & H1 & H)|(e' & H1 & [= ->])];
        [discriminate|]. by eapply (err_mapM _ IH).
    + intros H. apply bind_inv in H as [(o & s1 & H1 & H)|(e' & H1 & [= ->])];
        cycle 1.
      { apply heap_get_inv in H1 as [_ [(? & _ & ?)|[_ [= ->]]]];
          [discriminate|done]. }
      destruct (bool_decide (is_Some (o_call o))).
      * apply bind_inv in H as [(i1 & s2 & H2 & H)|(e' & H2 & [= ->])];
          [|by eapply err_export].
        apply bind_inv in H as [(i2 & s3 & H3 & H)|(e' & H3 & [= ->])];
          [discriminate|by eapply err_export].
      * destruct (instanceof_RemoteClass (o_proto o)); [discriminate|].
        apply bind_inv in H as [(cn & s2 & H2 & H)|(e' & H2 & [= ->])];
          [|by eapply err_getClassName].
        destruct (decide (cn = "Object")).
        -- apply bind_inv in H as [(m & s3 & H3 & H)|(e' & H3 & [= ->])];
             [discriminate|]. by eapply (err_plain_fields _ IH).
        -- apply bind_inv in H as [(id & s3 & H3 & H)|(e' & H3 & [= ->])];
             [|by eapply err_export].
           by eapply (err_createObjectDescription _ IH).
Qed.



Lemma err_getLocalObject (id : string) (s s' : state) (e : error) :
  getLocalObject id s = (Throw e, s') → in_error e.
Proof.
  unfold getLocalObject. unfold_m.
  destruct (localIDsToObjects s !! id) as [[l|l]|].
  - discriminate.
  - destruct (is_live l s); simpl; [discriminate|]. by intros [= <- _].
  - by intros [= <- _].
Qed.

Section IncomingErrors.

Variable rec : wire → M val.

Hypothesis rec_frame : ∀ w s r s', rec w s = (r, s') → frame_le s s'.

Hypothesis rec_err : ∀ w s e s', rec w s = (Throw e, s') → in_error e.

Lemma err_mapM_in (ws : list wire) (s s' : state) (e : error) :
  mapM rec ws s = (Throw e, s') → in_error e.
Proof.
  revert s. induction ws as [|w ws IH]; intros s; simpl; [discriminate|].
  intros H. apply bind_inv in H as [(v & s1 & H1 & H)|(e' & H1 & [= ->])];
    [|by eapply rec_err].
  apply bind_inv in H as [(vs & s2 & H2 & H)|(e' & H2 & [= ->])];
    [discriminate|by eapply IH].
Qed.

Lemma err_assign_fields (t : loc) (fields : list (string * wire)) :
  ∀ (s s' : state) (e : error) (o : object),
    heap s !! t = Some o → (t < next_loc s)%positive →
    assign_fields rec t fields s = (Throw e, s') → in_error e.
Proof.
  induction fields as [|[k w] fields IH]; intros s s' e o Ho Ht; simpl;
    [discriminate|].
  intros H. apply bind_inv in H as [(v & s1 & H1 & H)|(e' & H1 & [= ->])];
    [|by eapply rec_err].
  pose proof (rec_frame _ _ _ _ H1) as F1.
  assert (heap s1 !! t = Some o) as Ho1
      by (rewrite (fr_heap _ _ F1) by done; done).
  assert (t < next_loc s1)%positive as Ht1
      by (pose proof (fr_next _ _ F1); lia).
  rewrite (bind_ok _ _ _ _ _ (set_prop_ok _ _ _ _ _ Ho1)) in H.
  eapply IH; [| |exact H]; [simpl; apply lookup_insert_eq|exact Ht1].
Qed.

End IncomingErrors.

Lemma mapIncomingObjects_err (fuel : nat) (w : wire) (s : state) (e : error)
      (s' : state) :
  mapIncomingObjects fuel w s = (Throw e, s') → in_error e.
Proof.
  revert w s e s'. induction fuel as [|fuel IH]; intros w s e s'; simpl.
  - by intros [= <- _].
  - destruct w as [p|ws|idL cn props idR po]; [discriminate| |].
    + intros H. apply bind_inv in H as [(vs & s1 & H1 & H)|(e' & H1 & [= ->])];
        [discriminate|]. by eapply (err_mapM_in _ IH).
    + destruct (truthy_str idL) as [id|].
      * intros H. apply bind_inv in H as [(ex & s1 & H1 & H)|(e' & H1 & _)];
          apply getRemoteObject_inv in H1 as [-> Hex];
          [|by destruct Hex as [(? & ? & _)|[? _]]].
        destruct Hex as [(l & [= ->] & _)|[[= ->] Hnone]]; [discriminate|].
        destruct (decide (cn = Some "Function")) as [Hfn|Hfn].
        -- unfold makeCallable in H. unfold bind at 1 in H.
           unfold alloc at 1 in H.
           erewrite (bind_ok (addRemoteObject _ _)) in H; [discriminate|].
           apply addRemoteObject_ok. intros l Hl. exact (Hnone l Hl).
        -- apply bind_inv in H as [(stub & s1 & H1 & H)|(e' & H1 & [= ->])];
             [discriminate|].
           unfold makeStub_with in H1.
           destruct (cn ≫= (fun c => remoteClasses s !! c)) as [proto|] eqn:Hp.
           ++ fold (makeStub_with (mapIncomingObjects fuel) id cn props) in H1.
              rewrite (makeStub_unfold _ _ _ _ _ _ Hnone Hp) in H1.
              apply bind_inv in H1 as [(? & s2 & H2 & H1)|(e'' & H2 & [= ->])];
                [discriminate|].
              eapply (err_assign_fields _ (mapIncomingObjects_frame fuel) IH);
                [| |exact H2]; simpl; [apply lookup_insert_eq|lia].
           ++ unfold bind at 1 in H1. unfold gets at 1 in H1.
              rewrite Hp in H1. by injection H1 as <- _.
      * destruct (truthy_str idR) as [id|].
        -- intros H.
           apply bind_inv in H as [(obj & s1 & H1 & H)|(e' & H1 & [= ->])];
             [discriminate|by eapply err_getLocalObject].
        -- destruct po as [fields|]; [|discriminate].
           intros H. unfold bind at 1 in H. unfold alloc at 1 in H.
           apply bind_inv in H as [(? & s2 & H2 & H)|(e' & H2 & [= ->])];
             [discriminate|].
           eapply (err_assign_fields _ (mapIncomingObjects_frame fuel) IH);
             [| |exact H2]; simpl; [apply lookup_insert_eq|lia].
Qed.



(** ** A release callback that comes late *)

(** X21.  A late release callback splits the identity of a stub.  The
    callback of the remote registry deletes the entry of its ID without
    looking at which stub the entry holds.  So if it runs for an ID under
    which a live stub is registered -- the callback of an earlier, collected
    stub for the same ID -- the live stub is no longer found: a [del] for
    the ID is sent although the stub is alive, and the next reference to
    the ID, which would have returned the live stub, makes and registers a
    second one. *)
Theorem late_release_second_stub (fuel : nat) (s : state) (id : string)
        (l : loc) (idR : option string)
        (props po : option (list (string * wire))) :
  id ≠ "" → remoteObjects s !! id = Some l → is_live l s = true →
  (l < next_loc s)%positive →
  mapIncomingObjects (S fuel)
    (WObject (Some id) (Some "Function") props idR po) s = (Ok (VRef l), s)
  ∧ ∃ s', (remoteFinalizer id ;;;
           mapIncomingObjects (S fuel)
             (WObject (Some id) (Some "Function") props idR po)) s
          = (Ok (VRef (next_loc s)), s')
      ∧ next_loc s ≠ l ∧ is_live l s' = true
      ∧ remoteObjects s' !! id = Some (next_loc s)
      ∧ trace s' = (trace s ++ [FDel id])%list.
Proof.
  intros Hid Hreg Hlive Hlt. split.
  - simpl. rewrite (truthy_str_nonempty _ Hid).
    by rewrite (bind_ok _ _ _ _ _ (getRemoteObject_live _ _ _ Hreg Hlive)).
  - unfold remoteFinalizer, callRemote. unfold bind at 1. unfold bind at 1.
    unfold modify at 1. unfold modify at 1. simpl mapIncomingObjects.
    rewrite (truthy_str_nonempty _ Hid).
    erewrite (bind_ok (getRemoteObject _)); cycle 1.
    { apply getRemoteObject_none. intros l' Hl'. simpl in Hl'.
      rewrite lookup_delete_eq in Hl'. discriminate. }
    destruct (decide (Some "Function" = Some "Function")); [|done].
    unfold makeCallable. unfold bind at 1. unfold alloc at 1.
    erewrite (bind_ok (addRemoteObject _ _)); cycle 1.
    { apply addRemoteObject_ok. intros l' Hl'. simpl in Hl'.
      rewrite lookup_delete_eq in Hl'. discriminate. }
    eexists. split; [reflexivity|]. simpl.
    split; [lia|]. split; [exact Hlive|]. split; [apply lookup_insert_eq|done].
Qed.

Lemma late_release_second_stub_witness :
  ∃ s', (remoteFinalizer "42" ;;;
         mapIncomingObjects 1
           (WObject (Some "42") (Some "Function") None None None))
          Client.with_car
        = (Ok (VRef (next_loc Client.with_car)), s')
        ∧ next_loc Client.with_car ≠ Client.car_stub.
Proof.
  destruct (late_release_second_stub 0 Client.with_car "42" Client.car_stub
              None None None) as (_ & s' & H & Hne & _).
  - discriminate.
  - reflexivity.
  - reflexivity.
  - reflexivity.
  - exists s'. by split.
Defined.

(** ** What a stub prototype holds *)

Lemma assign_spec (k : Mirror.mkey) (v : Mirror.sval)
      (parents : list Mirror.proto) (own own' : Mirror.proto) :
  Mirror.assign k v parents own = Some own' →
  assoc_get k own' = Some (Mirror.SData v)
  ∧ (∀ k', k' ≠ k → assoc_get k' own' = assoc_get k' own)
  ∧ (∀ g cfg, assoc_get k own ≠ Some (Mirror.SGet g cfg)).
Proof.
  unfold Mirror.assign. simpl.
  destruct (assoc_get k own) as [[v0|g0 c0]|] eqn:Hk.
  - intros [= <-]. split; [apply assoc_get_set_eq|].
    split; [intros k' Hk'; by apply assoc_get_set_ne|]. congruence.
  - discriminate.
  - destruct (Mirror.inherited k parents) as [[?|? ?]|]; try discriminate;
      intros [= <-]; (split; [apply assoc_get_set_eq|]);
      (split; [intros k' Hk'; by apply assoc_get_set_ne|]); congruence.
Qed.

Lemma defineGetter_spec (n : string) (g : Mirror.stubfn)
      (own own' : Mirror.proto) :
  Mirror.defineGetter n g own = Some own' →
  (∃ cfg, assoc_get (Mirror.Name n) own' = Some (Mirror.SGet g cfg))
  ∧ (∀ k', k' ≠ Mirror.Name n → assoc_get k' own' = assoc_get k' own).
Proof.
  unfold Mirror.defineGetter.
  destruct (assoc_get (Mirror.Name n) own) as [[v0|g0 [|]]|];
    try discriminate; intros [= <-];
    (split; [eexists; apply assoc_get_set_eq|]);
    intros k' Hk'; by apply assoc_get_set_ne.
Qed.

Lemma add_functions_spec (parents : list Mirror.proto) (fs : list string) :
  ∀ own own',
    Mirror.add_functions parents fs own = Some own' →
    (∀ k, (∀ f, f ∈ fs → k ≠ Mirror.Name f) →
          assoc_get k own' = assoc_get k own)
    ∧ (∀ f, f ∈ fs →
            assoc_get (Mirror.Name f) own'
            = Some (Mirror.SData (Mirror.SFn (Mirror.MakeFunction f)))).
Proof.
  induction fs as [|f0 fs IH]; intros own own'; simpl.
  - intros [= <-]. split; [done|]. intros f Hf. by apply elem_of_nil in Hf.
  - destruct (Mirror.assign _ _ parents own) as [own1|] eqn:H1; [|discriminate].
    simpl. intros H. apply assign_spec in H1 as (Hset & Hother & _).
    apply IH in H as (Hkeep & Hfs). split.
    + intros k Hk. rewrite Hkeep; [apply Hother|].
      * apply Hk. left.
      * intros f Hf. apply Hk. by right.
    + intros f Hf. destruct (decide (f ∈ fs)) as [Hin|Hin]; [by apply Hfs|].
      apply elem_of_cons in Hf as [->|Hf]; [|done].
      rewrite Hkeep; [done|]. intros f Hf [= <-]. done.
Qed.

Lemma setter_names_cons (n : string) (hs : bool) (gs : list (string * bool))
      (sn : string) :
  sn ∈ Mirror.setter_names ((n, hs) :: gs) ↔
  (hs = true ∧ Mirror.setterName n = Some sn) ∨ sn ∈ Mirror.setter_names gs.
Proof.
  unfold Mirror.setter_names. simpl. destruct hs; simpl.
  - destruct (Mirror.setterName n) as [sn0|] eqn:E.
    + rewrite elem_of_cons. split.
      * intros [->|H]; auto.
      * intros [[_ [= ->]]|H]; auto.
    + split; [by right|]. by intros [[_ ?]|H].
  - split; [by right|]. by intros [[? _]|H].
Qed.

Lemma add_getters_spec (parents : list Mirror.proto)
      (gs : list (string * bool)) :
  ∀ own own',
    Mirror.add_getters parents gs own = Some own' →
    (∀ k, (∀ n, n ∈ gs.*1 → k ≠ Mirror.Name n) →
          (∀ sn, sn ∈ Mirror.setter_names gs → k ≠ Mirror.Name sn) →
          assoc_get k own' = assoc_get k own)
    ∧ (∀ k g cfg, assoc_get k own = Some (Mirror.SGet g cfg) →
                  (∀ n, n ∈ gs.*1 → k ≠ Mirror.Name n) →
                  assoc_get k own' = Some (Mirror.SGet g cfg))
    ∧ (∀ n, n ∈ gs.*1 →
            ∃ cfg, assoc_get (Mirror.Name n) own'
                   = Some (Mirror.SGet (Mirror.MakeGetter n) cfg))
    ∧ (∀ sn, sn ∈ Mirror.setter_names gs → sn ∉ gs.*1 →
             ∃ n, (n, true) ∈ gs ∧ Mirror.setterName n = Some sn
                  ∧ assoc_get (Mirror.Name sn) own'
                    = Some (Mirror.SData (Mirror.SFn (Mirror.MakeSetter n)))).
Proof.
  induction gs as [|[n hs] gs IH]; intros own own'; simpl.
  - intros [= <-]. split; [done|]. split; [done|].
    split; intros ? H; by apply elem_of_nil in H.
  - destruct (Mirror.defineGetter n _ own) as [own1|] eqn:H1; [|discriminate].
    simpl. apply defineGetter_spec in H1 as ([cfg1 Hacc] & Hother1).
    destruct (if hs then _ else Some own1) as [own2|] eqn:H2; [|discriminate].
    simpl. intros H. apply IH in H as (Hkeep & Hpers & Hget & Hset).
    assert ((∃ cfg, assoc_get (Mirror.Name n) own2
                    = Some (Mirror.SGet (Mirror.MakeGetter n) cfg))
            ∧ (∀ k, k ≠ Mirror.Name n →
                    (∀ sn, hs = true → Mirror.setterName n = Some sn →
                           k ≠ Mirror.Name sn) →
                    assoc_get k own2 = assoc_get k own)
            ∧ (∀ k g cfg, assoc_get k own = Some (Mirror.SGet g cfg) →
                          k ≠ Mirror.Name n →
                          assoc_get k own2 = Some (Mirror.SGet g cfg))
            ∧ (∀ sn, hs = true → Mirror.setterName n = Some sn →
                     assoc_get (Mirror.Name sn) own2
                     = Some (Mirror.SData (Mirror.SFn (Mirror.MakeSetter n)))))
      as (Hacc2 & Hother2 & Hpers2 & Hset2).
    { destruct hs.
      - destruct (Mirror.setterName n) as [sn|] eqn:Hsn; [|discriminate].
        simpl in H2. apply assign_spec in H2 as (Hs & Ho & Hno).
        assert (Mirror.Name sn ≠ Mirror.Name n) as Hne.
        { intros Heq. rewrite Heq in Hno. by eapply Hno. }
        split; [exists cfg1; by rewrite Ho|]. split; [|split].
        + intros k Hk Hsk. rewrite Ho; [by apply Hother1|].
          by apply Hsk.
        + intros k g cfg Hk Hkn. rewrite Ho; [by rewrite Hother1|].
          intros ->. rewrite <- (Hother1 _ Hkn) in Hk. by eapply Hno.
        + intros sn' _ [= <-]. exact Hs.
      - injection H2 as <-. split; [by exists cfg1|]. split; [|split].
        + intros k Hk _. by apply Hother1.
        + intros k g cfg Hk Hkn. by rewrite Hother1.
        + discriminate. }
    split; [|split; [|split]].
    + intros k Hn Hs. rewrite Hkeep.
      * apply Hother2; [apply Hn; left|].
        intros sn Hhs Hsn. apply Hs. apply setter_names_cons. by left.
      * intros n' Hn'. apply Hn. by right.
      * intros sn Hsn. apply Hs. apply setter_names_cons. by right.
    + intros k g cfg Hk Hn. apply Hpers.
      * apply Hpers2; [done|]. apply Hn. left.
      * intros n' Hn'. apply Hn. by right.
    + intros n' Hn'. destruct (decide (n' ∈ gs.*1)) as [Hin|Hin];
        [by apply Hget|].
      apply elem_of_cons in Hn' as [->|Hn']; [|done].
      destruct Hacc2 as [cfg Hc]. exists cfg. apply Hpers; [done|].
      intros n' Hn' [= <-]. done.
    + intros sn Hsn Hnot.
      assert (sn ≠ n ∧ sn ∉ gs.*1) as [Hsn_n Hsn_gs].
      { split; intros Hx; apply Hnot; [subst; left|by right]. }
      destruct (decide (sn ∈ Mirror.setter_names gs)) as [Hin|Hin].
      * destruct (Hset sn Hin Hsn_gs) as (n' & Hn' & Hs' & Hg').
        exists n'. split; [by right|done].
      * apply setter_names_cons in Hsn as [[-> Hs]|Hs]; [|done].
        exists n. split; [left|]. split; [done|].
        rewrite Hkeep; [by apply Hset2| |].
        -- intros n' Hn' [= <-]. done.
        -- intros sn' Hsn' [= <-]. done.
Qed.

Lemma setterName_prefix (n sn : string) :
  Mirror.setterName n = Some sn → sn ≠ "newRemote".
Proof.
  unfold Mirror.setterName. destruct n as [|c r]; [discriminate|].
  intros [= <-]. discriminate.
Qed.

(** X22.  The stub prototype mirrors the description.  When a stub
    prototype is built, it holds: for every function of the description a
    stub that calls that function, unless a getter, a setter stub or
    [newRemote] has the same name; for every getter an accessor that reads
    that property; for every getter with a setter a method
    [set] + capitalised name that sets a property of that setter name,
    unless a getter has this name; and [newRemote], bound to the constructor
    call of the class. *)
Theorem stub_prototype_mirrors (parents : list Mirror.proto) (d : class_descr)
        (own : Mirror.proto) :
  Mirror.build parents d = Some own →
  (∀ f, f ∈ cd_functions d → f ∉ (cd_getters d).*1 →
        f ∉ Mirror.setter_names (cd_getters d) → f ≠ "newRemote" →
        assoc_get (Mirror.Name f) own
        = Some (Mirror.SData (Mirror.SFn (Mirror.MakeFunction f))))
  ∧ (∀ n, n ∈ (cd_getters d).*1 →
          ∃ cfg, assoc_get (Mirror.Name n) own
                 = Some (Mirror.SGet (Mirror.MakeGetter n) cfg))
  ∧ (∀ sn, sn ∈ Mirror.setter_names (cd_getters d) → sn ∉ (cd_getters d).*1 →
           ∃ n, (n, true) ∈ cd_getters d ∧ Mirror.setterName n = Some sn
                ∧ assoc_get (Mirror.Name sn) own
                  = Some (Mirror.SData (Mirror.SFn (Mirror.MakeSetter n))))
  ∧ assoc_get (Mirror.Name "newRemote") own
    = Some (Mirror.SData (Mirror.SFn (Mirror.MakeNewObj (cd_className d)))).
Proof.
  unfold Mirror.build.
  destruct (match parents with [] => _ | _ => _ end) as [own0|];
    [|discriminate]. simpl.
  destruct (match truthy_str (cd_iterator d) with
            | Some _ => _ | None => _ end) as [own1|]; [|discriminate].
  simpl.
  destruct (Mirror.add_functions _ _ _) as [own2|] eqn:H2; [|discriminate].
  simpl.
  destruct (Mirror.add_getters _ _ _) as [own3|] eqn:H3; [|discriminate].
  simpl. intros H4.
  apply add_functions_spec in H2 as (_ & Hfs).
  apply add_getters_spec in H3 as (Hkeep & _ & Hget & Hset).
  apply assign_spec in H4 as (Hnew & Hother & Hno).
  split; [|split; [|split]].
  - intros f Hf Hg Hs Hn. rewrite Hother by congruence.
    rewrite Hkeep; [by apply Hfs| |].
    + intros n Hn' [= <-]. done.
    + intros sn Hsn [= <-]. done.
  - intros n Hn. destruct (Hget n Hn) as [cfg Hc]. exists cfg.
    rewrite Hother; [done|]. intros [= ->]. by eapply Hno.
  - intros sn Hsn Hnot. destruct (Hset sn Hsn Hnot) as (n & Hn & Hs & Hg).
    exists n. split; [done|]. split; [done|].
    rewrite Hother; [done|]. intros [= ->]. by eapply setterName_prefix.
  - exact Hnew.
Qed.

Lemma stub_prototype_mirrors_witness :
  ∃ n, Mirror.setterName n = Some "setOwner"
       ∧ assoc_get (Mirror.Name "setOwner")
           [(Mirror.Name "className", Mirror.SData (Mirror.SStr "Car"));
            (Mirror.Name "startEngine",
             Mirror.SData (Mirror.SFn (Mirror.MakeFunction "startEngine")));
            (Mirror.Name "owner", Mirror.SGet (Mirror.MakeGetter "owner") false);
            (Mirror.Name "setOwner",
             Mirror.SData (Mirror.SFn (Mirror.MakeSetter "owner")));
            (Mirror.Name "newRemote",
             Mirror.SData (Mirror.SFn (Mirror.MakeNewObj "Car")))]
         = Some (Mirror.SData (Mirror.SFn (Mirror.MakeSetter n))).
Proof.
  destruct (stub_prototype_mirrors []
              (ClassDescr "Car" None None ["startEngine"] [("owner", true)] [])
              _ eq_refl) as (_ & _ & Hs & _).
  destruct (Hs "setOwner") as (n & _ & Hn & Hg).
  - vm_compute. left.
  - intros H. apply list_elem_of_singleton in H. discriminate.
  - exists n. by split.
Defined.

(** ** Object graphs with a cycle *)

Lemma mapOutgoingObjects_heap (fuel : nat) (v : val) (s : state)
      (r : outcome wire) (s' : state) :
  mapOutgoingObjects fuel v s = (r, s') → heap s' = heap s.
Proof.
  intros H. by destruct (proj1 (mapOutgoingObjects_echoable _ _ _ _ _ H)).
Qed.

Section Cycle.

Variable h : gmap loc object.

Variable rec : val → M wire.

Hypothesis rec_heap : ∀ v s r s', rec v s = (r, s') → heap s' = heap s.

Variable l' : loc.

Hypothesis rec_throws :
  ∀ s, heap s = h → ∃ e s', rec (VRef l') s = (Throw e, s').

Lemma plain_fields_throws (own : list (key * pdesc)) (c : chain) (k : string)
      (names : list string) :
  get_on own c (KStr k) = VRef l' → k ∈ names →
  ∀ acc s, heap s = h →
           ∃ e s', plain_fields rec own c names acc s = (Throw e, s').
Proof.
  intros Hget. induction names as [|n names IH]; intros Hk acc s Hs.
  - by apply elem_of_nil in Hk.
  - simpl. destruct (decide (n = k)) as [->|Hne].
    + rewrite Hget. destruct (rec_throws s Hs) as (e & s' & Hr).
      exists e, s'. by rewrite (bind_throw _ _ _ _ _ Hr).
    + apply elem_of_cons in Hk as [->|Hk]; [done|].
      destruct (rec (get_on own c (KStr n)) s) as [[w|e] s1] eqn:Hr.
      * rewrite (bind_ok _ _ _ _ _ Hr). apply IH; [done|].
        by rewrite (rec_heap _ _ _ _ Hr).
      * exists e, s1. by rewrite (bind_throw _ _ _ _ _ Hr).
Qed.

Lemma describe_props_throws (n : string) (en : bool)
      (own : list (key * pdesc)) :
  (KStr n, Data en (VRef l')) ∈ own → starts_underscore n = false →
  is_function h (VRef l') = false →
  ∀ props s, heap s = h →
             ∃ e s', describe_props rec own props s = (Throw e, s').
Proof.
  intros Hin Hu Hf. induction own as [|[k d] own IH]; intros props s Hs.
  - by apply elem_of_nil in Hin.
  - apply elem_of_cons in Hin as [[= <- <-]|Hin].
    + simpl. rewrite Hu. unfold bind at 1. unfold gets at 1.
      rewrite Hs. simpl in Hf. simpl. rewrite Hf.
      destruct (rec_throws s Hs) as (e & s' & Hr).
      exists e, s'. by rewrite (bind_throw _ _ _ _ _ Hr).
    + simpl. destruct k as [m| |]; try (by apply IH).
      destruct (starts_underscore m); [by apply IH|].
      unfold bind at 1. unfold gets at 1.
      destruct (match d with Data _ v => _ | Accessor _ get _ => _ end);
        [by apply IH|].
      destruct (rec (read_desc d) s) as [[w|e] s1] eqn:Hr.
      * rewrite (bind_ok _ _ _ _ _ Hr). apply IH; [done|].
        by rewrite (rec_heap _ _ _ _ Hr).
      * exists e, s1. by rewrite (bind_throw _ _ _ _ _ Hr).
Qed.

End Cycle.

Lemma cycle_throws (s0 : state) (C : gset loc) :
  cyclic s0 C →
  ∀ fuel l s, l ∈ C → heap s = heap s0 →
              ∃ e s', mapOutgoingObjects fuel (VRef l) s = (Throw e, s').
Proof.
  intros Hc. induction fuel as [|fuel IH]; intros l s Hl Hs.
  - simpl. by eexists _, _.
  - destruct (Hc l Hl) as (o & Ho & Hcall & Hinst & l' & Hl' & Hv).
    simpl. rewrite <- Hs in Ho.
    rewrite (bind_ok _ _ _ _ _ (heap_get_ok _ _ _ Ho)).
    rewrite Hcall, bool_decide_eq_false_2 by (by intros [? ?]).
    rewrite Hinst. unfold bind at 1. rewrite getClassName_eq.
    unfold visits in Hv. rewrite <- (name_at_heap s0 s _ Hs) in Hv.
    destruct (name_at s (o_proto o)) as [cn|e]; [|done].
    assert (∀ s1, heap s1 = heap s0 →
                  ∃ e s', mapOutgoingObjects fuel (VRef l') s1 = (Throw e, s'))
      as Hrec by (intros s1 Hs1; by apply IH).
    destruct (decide (cn = "Object")) as [->|Hcn].
    + destruct Hv as (k & Hk & Hget).
      destruct (plain_fields_throws (heap s0) _ (mapOutgoingObjects_heap fuel)
                  l' Hrec _ _ k _ Hget Hk [] s Hs) as (e & s' & Hp).
      exists e, s'. by rewrite (bind_throw _ _ _ _ _ Hp).
    + destruct Hv as (n & en & Hin & Hu & Hf).
      destruct (getOrCreateIDForLocalObject l s) as [[id|e] s1] eqn:Hid;
        [|exists e, s1; by rewrite (bind_throw _ _ _ _ _ Hid)].
      rewrite (bind_ok _ _ _ _ _ Hid).
      apply getOrCreateID_spec in Hid as (_ & _ & _ & Hh1 & _).
      unfold createObjectDescription_with.
      rewrite <- Hh1 in Ho.
      rewrite (bind_ok _ _ _ _ _ (heap_get_ok _ _ _ Ho)).
      unfold bind at 1. rewrite getClassName_eq.
      rewrite (name_at_heap s s1 _ Hh1).
      destruct (name_at s (o_proto o)) as [cn'|e'] eqn:Hna; [|by eexists _, _].
      destruct (negb (bool_decide (cn' = ""))); simpl;
        [|unfold bind at 1; simpl; by eexists _, _].
      unfold bind at 1. simpl. unfold bind at 1. simpl.
      destruct ((if bool_decide (cn' ∈ localClasses s1) then ret tt
                 else sendClassDescription cn' (o_proto o)) s1)
        as [[[]|e'] s2] eqn:Hsend;
        [|exists e', s2; by rewrite (bind_throw _ _ _ _ _ Hsend)].
      rewrite (bind_ok _ _ _ _ _ Hsend).
      assert (heap s2 = heap s0) as Hs2.
      { rewrite <- Hs, <- Hh1. destruct (bool_decide _).
        - by injection Hsend as <-.
        - by destruct (out_le_class _ _ _ _ _ Hsend). }
      rewrite <- Hs in Hf.
      destruct (describe_props_throws (heap s0) _ (mapOutgoingObjects_heap fuel)
                  l' Hrec n en (o_own o) Hin Hu ltac:(by rewrite <- Hs)
                  None s2 Hs2) as (e & s' & Hp).
      exists e, s'. by rewrite (bind_throw _ _ _ _ _ Hp).
Qed.

(** X23.  A cycle in the object graph is never marshalled.  If from an
    object the marshaller is led, through plain-record fields and described
    own properties of objects that are neither functions nor stubs, back to
    an object it is already working on, then [mapOutgoingObjects] returns no
    value for it, whatever the fuel: the recursion does not end (an object
    that has got its ID is described again, not referred to). *)
Theorem cycle_never_marshalled (s : state) (C : gset loc) (l : loc)
        (fuel : nat) :
  cyclic s C → l ∈ C →
  ∃ e s', mapOutgoingObjects fuel (VRef l) s = (Throw e, s').
Proof.
  intros Hc Hl. by eapply cycle_throws.
Qed.

Lemma cycle_never_marshalled_witness :
  ∃ e s', mapOutgoingObjects 5 (VRef Loop.node) Loop.server = (Throw e, s').
Proof.
  apply (cycle_never_marshalled Loop.server {[Loop.node]}).
  - intros l Hl. apply elem_of_singleton in Hl as ->.
    eexists. split; [reflexivity|]. split; [reflexivity|].
    split; [reflexivity|]. exists Loop.node.
    split; [by apply elem_of_singleton|].
    unfold visits.
    assert (name_at Loop.server
              (o_proto (Object None [(KStr "self", Data true (VRef Loop.node))]
                               [Object_prototype])) = Ok "Object") as ->
        by reflexivity.
    rewrite decide_True by done. exists "self". split; [|reflexivity].
    vm_compute. left.
  - by apply elem_of_singleton.
Defined.

(** ** Class frames delivered again *)

Lemma register_known (ds : list class_descr)
      (reg : gmap string (list Mirror.proto)) :
  (∀ d, d ∈ ds → is_Some (reg !! cd_className d)) →
  Mirror.registerRemoteClasses ds reg = (None, reg).
Proof.
  induction ds as [|d ds IH]; intros Hk; simpl; [done|].
  unfold Mirror.registerRemoteClass.
  destruct (Hk d) as [c Hc]; [left|]. rewrite Hc.
  apply IH. intros d' Hd'. apply Hk. by right.
Qed.

Lemma replay_grows (tr : list frame) :
  ∀ (reg : gmap string (list Mirror.proto)) es reg',
    Mirror.replay tr reg = (es, reg') →
    ∀ n c, reg !! n = Some c → reg' !! n = Some c.
Proof.
  induction tr as [|[ds|id] tr IH]; intros reg es reg'; simpl.
  - by intros [= _ <-].
  - destruct (Mirror.registerRemoteClasses ds reg) as [e reg1] eqn:H1.
    destruct (Mirror.replay tr reg1) as [es1 reg2] eqn:H2.
    intros [= _ <-] n c Hn. eapply IH; [exact H2|].
    by apply (proj1 (register_all_spec _ _ _ _ H1)).
  - apply IH.
Qed.

(** X24.  Class frames can be delivered again.  If the receiver has handled
    the class frames of a trace without any exception, handling the same
    frames once more raises no exception either and leaves the registry as
    it is: every description is ignored, its class being registered. *)
Theorem redelivery_harmless (tr : list frame)
        (reg : gmap string (list Mirror.proto))
        (es : list (option Mirror.merror))
        (reg' : gmap string (list Mirror.proto)) :
  Mirror.replay tr reg = (es, reg') →
  Forall (fun e => e = None) es →
  Mirror.replay tr reg' = (es, reg').
Proof.
  intros H Hes.
  assert (∀ reg2, (∀ n c, reg' !! n = Some c → reg2 !! n = Some c) →
                  Mirror.replay tr reg2 = (es, reg2)) as Hgen; [|by apply Hgen].
  revert reg es reg' H Hes.
  induction tr as [|[ds|id] tr IH]; intros reg es reg'; simpl.
  - by intros [= <- <-].
  - destruct (Mirror.registerRemoteClasses ds reg) as [e reg1] eqn:H1.
    destruct (Mirror.replay tr reg1) as [es1 reg2] eqn:H2.
    intros [= <- <-] Hes reg3 Hsub.
    apply Forall_cons in Hes as [-> Hes].
    pose proof (register_all_spec _ _ _ _ H1) as (_ & Hreg & _).
    rewrite register_known.
    + by rewrite (IH _ _ _ H2 Hes reg3 Hsub).
    + intros d Hd. destruct (Hreg eq_refl d Hd) as [c Hc]. exists c.
      apply Hsub. by eapply replay_grows.
  - intros H Hes reg3 Hsub. by eapply IH.
Qed.

Lemma redelivery_harmless_witness :
  Mirror.replay (trace Example.server_sent)
    (Mirror.replay (trace Example.server_sent) ∅).2
  = Mirror.replay (trace Example.server_sent) ∅.
Proof.
  rewrite (redelivery_harmless (trace Example.server_sent) ∅
             (Mirror.replay (trace Example.server_sent) ∅).1
             (Mirror.replay (trace Example.server_sent) ∅).2).
  - by destruct (Mirror.replay (trace Example.server_sent) ∅).
  - by destruct (Mirror.replay (trace Example.server_sent) ∅).
  - vm_compute. repeat constructor.
Defined.
